(** * VideoForge: engine loader, conversion runner and queue page

    A shallow embedding of the logic of [src/hooks/useFFmpeg.ts] (the
    single-flight engine loader and the conversion runner) and of the queue
    page component ([Home]: [startProcessing], [removeItem],
    [clearCompleted]), with the properties the specification states about
    them.

    Conventions.
    - JavaScript runs one task at a time: an [async] function runs without
      interruption up to its next [await].  Every stretch of code between two
      suspension points is therefore one atomic transition of a state
      machine, and the environment (the engine, the timers, the user) is a
      list of events.
    - Strings are byte strings.  The only characters the code inspects are
      the ASCII dot and the ASCII letters of the fixed names.
    - JavaScript numbers that carry a progress percentage are modelled as
      rationals ([Q]); the code only multiplies them by 100 and takes a
      minimum, and every concrete value used below is a dyadic rational whose
      product by 100 is exact in binary floating point. *)

From Stdlib Require Import String Ascii List Bool Arith ZArith QArith Qminmax Lia.
From Stdlib Require Import DecimalString Sorted Lqa.
From stdpp Require Import gmap strings.
Import ListNotations.

Local Open Scope string_scope.
Local Open Scope list_scope.

(* ===================================================================== *)
(** * File extension of a workspace entry ([getExtension]) *)
(* ===================================================================== *)

Module Extension.

(** [[^.]]: any character but the dot. *)
Definition not_dot (c : ascii) : bool := negb (Ascii.eqb c ".").

(** [[^.]*] reaching the end of the string. *)
Fixpoint no_dot (s : string) : bool :=
  match s with
  | EmptyString => true
  | String c r => not_dot c && no_dot r
  end.

(** The regular expression [/\.[^.]+$/] tried at the first position of [s]:
    a dot, then one or more characters that are not dots, then the end of
    the input.  The greedy [[^.]+] stops at the first dot or at the end, and
    giving characters back never helps [$], so the attempt succeeds exactly
    when the whole rest is a non-empty run without dots. *)
Definition match_here (s : string) : option string :=
  match s with
  | String c (String _ _ as rest) =>
      if Ascii.eqb c "." && no_dot rest then Some s else None
  | _ => None
  end.

(** [filename.match(re)] for a regular expression without the [g] flag: the
    start positions are tried from left to right and the first success is
    the match; [None] is JavaScript's [null]. *)
Fixpoint regex_match (s : string) : option string :=
  match match_here s with
  | Some m => Some m
  | None =>
      match s with
      | EmptyString => None
      | String _ r => regex_match r
      end
  end.

Section WithLowerCase.

(** [String.prototype.toLowerCase], a function of the host. *)
Variable toLowerCase : string -> string.

Definition getExtension (filename : string) : string :=
  match regex_match filename with
  | Some m => toLowerCase m
  | None => ".mp4"
  end.

(** The two workspace names [convert] computes from the file name. *)
Definition inputName (filename : string) : string :=
  ("input" ++ getExtension filename)%string.

Definition outputName : string := "output.mp4".

End WithLowerCase.

(** The final dot-suffix in the words of the specification: the part of the
    name from its last dot on, when something follows that dot. *)
Fixpoint last_dot_suffix (s : string) : option string :=
  match s with
  | EmptyString => None
  | String c r =>
      match last_dot_suffix r with
      | Some m => Some m
      | None => if Ascii.eqb c "." then Some s else None
      end
  end.

Definition final_dot_suffix (s : string) : option string :=
  match last_dot_suffix s with
  | Some (String _ (String _ _) as m) => Some m
  | _ => None
  end.

(** ASCII lower-casing, the instance of [toLowerCase] used in examples. *)
Definition lower_ascii (c : ascii) : ascii :=
  let n := nat_of_ascii c in
  if (65 <=? n)%nat && (n <=? 90)%nat then ascii_of_nat (n + 32) else c.

Fixpoint lower (s : string) : string :=
  match s with
  | EmptyString => EmptyString
  | String c r => String (lower_ascii c) (lower r)
  end.

End Extension.

(* ===================================================================== *)
(** * JavaScript values shared by the two hooks' models *)
(* ===================================================================== *)

Module Js.

(** A thrown JavaScript value: an [Error] object with its name, message and
    (truthy) cause, or any other value, given by its [String(...)]. *)
Inductive JsErr :=
| ErrorObj (name message : string) (cause : option string)
| Thrown (text : string).

(** How an awaited operation settles. *)
Inductive Outcome (A : Type) :=
| Ok (a : A)
| Throw (e : JsErr).
Arguments Ok {A} a.
Arguments Throw {A} e.

End Js.

(* ===================================================================== *)
(** * The engine loader ([doLoad], [ensureLoaded]) *)
(* ===================================================================== *)

(** The module-level singleton and the hook's [doLoad] and [ensureLoaded],
    called from any number of components.  Console output is not
    modelled. *)

Module Loader.
Import Js.

(** ['idle' | 'loading' | 'ready' | 'error']. *)
Inductive FFmpegState := Idle | Loading | Ready | Error.

(** [DebugInfo]; the field [error] of the source is [errorText] here, the
    name [error] being taken by the hook's own state variable. *)
Record DebugInfo := mkDebugInfo {
  userAgent : string;
  crossOriginIsolated : bool;
  errorText : string;
  failedUrl : option string;
  timestamp : string
}.

(** What the code reads from the browser when it runs. *)
Record Host := mkHost {
  hasSharedArrayBuffer : bool;      (* typeof SharedArrayBuffer !== 'undefined' *)
  navigatorUserAgent : string;
  windowCrossOriginIsolated : bool;
  isoTime : string;                 (* new Date().toISOString() *)
  origin : string                   (* window.location.origin *)
}.

(** The engine operations the loader issues. *)
Inductive Effect :=
| NewFFmpeg
| OnLog
| ToBlobURL (url mime : string)
| FFmpegLoad (coreURL wasmURL : string).

(** The React state of one component that uses the hook. *)
Record Hook := mkHook {
  state : FFmpegState;
  error : option string;
  debugInfo : option DebugInfo
}.

(** Where a suspended [doLoad] waits. *)
Inductive Stage :=
| AwaitCore
| AwaitWasm (coreURL : string)
| AwaitLoad.

(** A [doLoad] call suspended at an [await]. *)
Record Task := mkTask {
  t_promise : nat;      (* the promise this call of doLoad returned *)
  t_hook : nat;         (* the component whose setters it closes over *)
  t_base : string;      (* baseURL *)
  t_stage : Stage
}.

(** An [ensureLoaded] call that has not returned yet: it awaits
    [loadPromise] ([w_sync = true], the branch that sets the state after
    waiting) or has returned that promise itself ([w_sync = false]). *)
Record Waiter := mkWaiter {
  w_call : nat;
  w_hook : nat;
  w_promise : nat;
  w_sync : bool
}.

(** A finished [ensureLoaded] call: the promise it waited for, if any, and
    the boolean its caller received. *)
Record Return := mkReturn {
  r_call : nat;
  r_promise : option nat;
  r_value : bool
}.

(** The module-level singletons ([loadPromise], [ffmpegInstance],
    [isReady]), the settled promises of [doLoad] (a promise that was created
    and is absent from [promises] is pending), the components, the suspended
    calls, and the log of what happened.  [loadsStarted] counts the calls of
    [doLoad] and numbers their promises; [loadsFailed] counts the calls that
    returned [false]. *)
Record World := mkWorld {
  loadPromise : option nat;
  ffmpegInstance : option nat;
  isReady : bool;
  promises : gmap nat bool;
  hooks : gmap nat Hook;
  tasks : list Task;
  waiters : list Waiter;
  returned : list Return;
  effects : list Effect;
  loadsStarted : nat;
  loadsFailed : nat;
  calls : nat
}.

Definition init : World :=
  mkWorld None None false ∅ ∅ [] [] [] [] 0 0 0.

(** Field updates. *)
Definition with_loadPromise (v : option nat) (w : World) : World :=
  mkWorld v (ffmpegInstance w) (isReady w) (promises w) (hooks w) (tasks w)
    (waiters w) (returned w) (effects w) (loadsStarted w) (loadsFailed w) (calls w).
Definition with_ffmpegInstance (v : option nat) (w : World) : World :=
  mkWorld (loadPromise w) v (isReady w) (promises w) (hooks w) (tasks w)
    (waiters w) (returned w) (effects w) (loadsStarted w) (loadsFailed w) (calls w).
Definition with_isReady (v : bool) (w : World) : World :=
  mkWorld (loadPromise w) (ffmpegInstance w) v (promises w) (hooks w) (tasks w)
    (waiters w) (returned w) (effects w) (loadsStarted w) (loadsFailed w) (calls w).
Definition with_promises (v : gmap nat bool) (w : World) : World :=
  mkWorld (loadPromise w) (ffmpegInstance w) (isReady w) v (hooks w) (tasks w)
    (waiters w) (returned w) (effects w) (loadsStarted w) (loadsFailed w) (calls w).
Definition with_hooks (v : gmap nat Hook) (w : World) : World :=
  mkWorld (loadPromise w) (ffmpegInstance w) (isReady w) (promises w) v (tasks w)
    (waiters w) (returned w) (effects w) (loadsStarted w) (loadsFailed w) (calls w).
Definition with_tasks (v : list Task) (w : World) : World :=
  mkWorld (loadPromise w) (ffmpegInstance w) (isReady w) (promises w) (hooks w) v
    (waiters w) (returned w) (effects w) (loadsStarted w) (loadsFailed w) (calls w).
Definition with_waiters (v : list Waiter) (w : World) : World :=
  mkWorld (loadPromise w) (ffmpegInstance w) (isReady w) (promises w) (hooks w)
    (tasks w) v (returned w) (effects w) (loadsStarted w) (loadsFailed w) (calls w).
Definition with_returned (v : list Return) (w : World) : World :=
  mkWorld (loadPromise w) (ffmpegInstance w) (isReady w) (promises w) (hooks w)
    (tasks w) (waiters w) v (effects w) (loadsStarted w) (loadsFailed w) (calls w).
Definition with_effects (v : list Effect) (w : World) : World :=
  mkWorld (loadPromise w) (ffmpegInstance w) (isReady w) (promises w) (hooks w)
    (tasks w) (waiters w) (returned w) v (loadsStarted w) (loadsFailed w) (calls w).
Definition with_loadsStarted (v : nat) (w : World) : World :=
  mkWorld (loadPromise w) (ffmpegInstance w) (isReady w) (promises w) (hooks w)
    (tasks w) (waiters w) (returned w) (effects w) v (loadsFailed w) (calls w).
Definition with_loadsFailed (v : nat) (w : World) : World :=
  mkWorld (loadPromise w) (ffmpegInstance w) (isReady w) (promises w) (hooks w)
    (tasks w) (waiters w) (returned w) (effects w) (loadsStarted w) v (calls w).
Definition with_calls (v : nat) (w : World) : World :=
  mkWorld (loadPromise w) (ffmpegInstance w) (isReady w) (promises w) (hooks w)
    (tasks w) (waiters w) (returned w) (effects w) (loadsStarted w) (loadsFailed w) v.

Definition emit (e : Effect) (w : World) : World :=
  with_effects (effects w ++ [e]) w.

(** The state a component starts with: the initialiser of [useState]. *)
Definition initialState (w : World) : FFmpegState :=
  if isReady w then Ready
  else match loadPromise w with Some _ => Loading | None => Idle end.

Definition hook_of (w : World) (h : nat) : Hook :=
  match hooks w !! h with
  | Some k => k
  | None => mkHook (initialState w) None None
  end.

Definition setState (h : nat) (s : FFmpegState) (w : World) : World :=
  let k := hook_of w h in
  with_hooks (<[h := mkHook s (error k) (debugInfo k)]> (hooks w)) w.
Definition setError (h : nat) (e : option string) (w : World) : World :=
  let k := hook_of w h in
  with_hooks (<[h := mkHook (state k) e (debugInfo k)]> (hooks w)) w.
Definition setDebugInfo (h : nat) (d : option DebugInfo) (w : World) : World :=
  let k := hook_of w h in
  with_hooks (<[h := mkHook (state k) (error k) d]> (hooks w)) w.

Definition createDebugInfo (host : Host) (errorMsg : string)
    (url : option string) : DebugInfo :=
  mkDebugInfo (navigatorUserAgent host) (windowCrossOriginIsolated host)
    errorMsg url (isoTime host).

Definition missingCapabilityMsg : string :=
  "SharedArrayBuffer not available. Please use Chrome/Edge/Firefox with HTTPS.".

(** [err instanceof Error ? `${err.name}: ${err.message}`
     : String(err) || 'Failed to load FFmpeg'], then the cause. *)
Definition errorMessage (e : JsErr) : string :=
  match e with
  | ErrorObj n m _ => (n ++ ": " ++ m)%string
  | Thrown s => if String.eqb s "" then "Failed to load FFmpeg" else s
  end.

Definition fullError (e : JsErr) : string :=
  match e with
  | ErrorObj _ _ (Some c) => (errorMessage e ++ " | Cause: " ++ c)%string
  | _ => errorMessage e
  end.

(** The promise of a [doLoad] call settles with [b]. *)
Definition settle (p : nat) (b : bool) (w : World) : World :=
  with_promises (<[p := b]> (promises w)) w.

Definition removeTask (p : nat) (w : World) : World :=
  with_tasks (List.filter (fun t => negb (Nat.eqb (t_promise t) p)) (tasks w)) w.

(** The [catch] block of [doLoad], run by the call that owns promise [p]. *)
Definition loadCatch (p h : nat) (host : Host) (e : JsErr) (w : World) : World :=
  let w := setDebugInfo h (Some (createDebugInfo host (fullError e) None)) w in
  let w := setError h (Some (fullError e)) w in
  let w := setState h Error w in
  (* Reset singleton so retry is possible *)
  let w := with_loadPromise None w in
  let w := with_ffmpegInstance None w in
  let w := with_isReady false w in
  let w := with_loadsFailed (S (loadsFailed w)) w in
  settle p false (removeTask p w).

(** [doLoad()] called from component [h]: the code up to the first [await]
    (or up to [return false]).  [ctor] is what [new FFmpeg()] does: the
    statements of the [try] block before the first [await] can throw only
    there.  The result is the new world and the promise returned. *)
Definition doLoad (h : nat) (host : Host) (ctor : option JsErr)
    (w : World) : World * nat :=
  let p := loadsStarted w in
  let w := with_loadsStarted (S p) w in
  let w := setState h Loading w in
  let w := setError h None w in
  let w := setDebugInfo h None w in
  if negb (hasSharedArrayBuffer host) then
    let w := setError h (Some missingCapabilityMsg) w in
    let w := setDebugInfo h
               (Some (createDebugInfo host missingCapabilityMsg None)) w in
    let w := setState h Error w in
    let w := with_loadsFailed (S (loadsFailed w)) w in
    (settle p false w, p)
  else
    match ctor with
    | Some e => (loadCatch p h host e w, p)
    | None =>
        let w := emit NewFFmpeg w in
        let w := with_ffmpegInstance (Some p) w in
        let w := emit OnLog w in
        let baseURL := (origin host ++ "/ffmpeg")%string in
        let w := emit (ToBlobURL (baseURL ++ "/ffmpeg-core.js")%string
                         "text/javascript") w in
        (with_tasks (tasks w ++ [mkTask p h baseURL AwaitCore]) w, p)
    end.

(** [ensureLoaded()] called from component [h], up to its first suspension
    or its return. *)
Definition ensureLoaded (h : nat) (host : Host) (ctor : option JsErr)
    (w : World) : World :=
  let c := calls w in
  let w := with_calls (S c) w in
  if isReady w && bool_decide (ffmpegInstance w <> None) then
    (* Already loaded *)
    let w := setState h Ready w in
    with_returned (returned w ++ [mkReturn c None true]) w
  else
    match loadPromise w with
    | Some p =>
        (* Already loading - wait for the existing promise *)
        let w := setState h Loading w in
        with_waiters (waiters w ++ [mkWaiter c h p true]) w
    | None =>
        (* Start new load *)
        let '(w, p) := doLoad h host ctor w in
        let w := with_loadPromise (Some p) w in
        with_waiters (waiters w ++ [mkWaiter c h p false]) w
    end.

(** The operation a suspended [doLoad] awaits has settled. *)
Definition resumeLoad (t : Task) (host : Host) (o : Outcome string)
    (w : World) : World :=
  let p := t_promise t in
  let h := t_hook t in
  match o with
  | Throw e => loadCatch p h host e w
  | Ok v =>
      match t_stage t with
      | AwaitCore =>
          let w := emit (ToBlobURL (t_base t ++ "/ffmpeg-core.wasm")%string
                           "application/wasm") w in
          with_tasks
            (map (fun t' => if Nat.eqb (t_promise t') p
                            then mkTask p h (t_base t) (AwaitWasm v) else t')
               (tasks w)) w
      | AwaitWasm core =>
          let w := emit (FFmpegLoad core v) w in
          with_tasks
            (map (fun t' => if Nat.eqb (t_promise t') p
                            then mkTask p h (t_base t) AwaitLoad else t')
               (tasks w)) w
      | AwaitLoad =>
          let w := with_isReady true w in
          let w := setState h Ready w in
          settle p true (removeTask p w)
      end
  end.

(** An [ensureLoaded] call continues once the promise it waits for has
    settled. *)
Definition resumeCall (x : Waiter) (b : bool) (w : World) : World :=
  let w := if w_sync x
           then setState (w_hook x) (if b then Ready else Error) w
           else w in
  let w := with_waiters
             (List.filter (fun y => negb (Nat.eqb (w_call y) (w_call x)))
                (waiters w)) w in
  with_returned (returned w ++ [mkReturn (w_call x) (Some (w_promise x)) b]) w.

(** The effect that synchronises a component with a load finished by
    another one. *)
Definition syncEffect (h : nat) (w : World) : World :=
  match state (hook_of w h) with
  | Ready => w
  | _ => if isReady w then setState h Ready w else w
  end.

Inductive Event :=
| Call (h : nat) (host : Host) (ctor : option JsErr)
| Settle (p : nat) (host : Host) (o : Outcome string)
| Resume (c : nat)
| Render (h : nat).

Definition step (w : World) (e : Event) : World :=
  match e with
  | Call h host ctor => ensureLoaded h host ctor w
  | Settle p host o =>
      match List.find (fun t => Nat.eqb (t_promise t) p) (tasks w) with
      | Some t => resumeLoad t host o w
      | None => w
      end
  | Resume c =>
      match List.find (fun x => Nat.eqb (w_call x) c) (waiters w) with
      | Some x =>
          match promises w !! w_promise x with
          | Some b => resumeCall x b w
          | None => w
          end
      | None => w
      end
  | Render h => syncEffect h w
  end.

Definition run (evs : list Event) (w : World) : World :=
  fold_left step evs w.

(** A load is in flight: its promise was created and has not settled. *)
Definition in_flight (w : World) (p : nat) : Prop :=
  p < loadsStarted w /\ promises w !! p = None.

End Loader.

(* ===================================================================== *)
(** * The conversion runner ([convert], [cancel], [cleanup]) *)
(* ===================================================================== *)

(** One call of [convert] is followed from its start to its return, with
    the engine settling the awaited operations, reporting progress and the
    user cancelling at any point in between.  The [onProgress] callback is
    the caller's: its calls are logged, and it is assumed not to call back
    into the hook.  The engine is the external [FFmpeg] object: [on]
    registers a listener for good, [writeFile] creates the entry,
    [readFile] of an absent entry rejects, [deleteFile] removes the entry,
    and [exec] resolves whatever its exit code.  The engine runs in a worker
    and rejects with the string of the error raised there, not with an
    [Error] object. *)

Module Converter.
Import Js.

(** ['fast' | 'reencode']. *)
Inductive Mode := fast | reencode.

(** A [File]: its name and its bytes. *)
Record File := mkFile {
  name : string;
  content : string
}.

(** [ConversionProgress] as [convert] builds it. *)
Record ConversionProgress := mkProgress {
  progress : Q;
  time : option Q
}.

Record Blob := mkBlob {
  data : string;
  type : string
}.

(** The calls [convert] makes on the engine. *)
Inductive EngineCall :=
| OnProgress
| WriteFile (entry : string) (bytes : string)
| Exec (args : list string)
| ReadFile (entry : string)
| DeleteFile (entry : string).

(** The [return] statement a call of [convert] left by. *)
Inductive Exit :=
| NotReady      (* engine not loaded *)
| Cancelled     (* abort flag set when the command returned *)
| Completed     (* the Blob *)
| Failed.       (* the catch block *)

(** What [cleanup] was called after. *)
Inductive After :=
| AfterCancel
| AfterRead (bytes : string).

(** Where a call of [convert] is suspended. *)
Inductive Pc :=
| AwaitFetch
| AwaitWrite (bytes : string)
| AwaitExec
| AwaitRead
| AwaitDelete (k : After) (entries : list string)
| Returned (x : Exit) (result : option Blob).

(** One component's hook and the engine it drives.  [ready] stands for
    [ffmpegInstance && isReady]; [files] is the engine's workspace;
    [listeners] are the progress callbacks registered on the engine, each
    named by the job whose [onProgress] it calls; [delivered] logs the calls
    of [onProgress]. *)
Record World := mkWorld {
  ready : bool;
  abortRef : bool;
  error : option string;
  files : gmap string string;
  listeners : list nat;
  calls : list EngineCall;
  delivered : list (nat * ConversionProgress)
}.

(** A call of [convert] with its locals. *)
Record Run := mkRun {
  job : nat;
  file : File;
  mode : Mode;
  inputName : string;
  pc : Pc
}.

Definition outputName : string := Extension.outputName.

Definition with_abortRef (v : bool) (w : World) : World :=
  mkWorld (ready w) v (error w) (files w) (listeners w) (calls w) (delivered w).
Definition with_error (v : option string) (w : World) : World :=
  mkWorld (ready w) (abortRef w) v (files w) (listeners w) (calls w) (delivered w).
Definition with_files (v : gmap string string) (w : World) : World :=
  mkWorld (ready w) (abortRef w) (error w) v (listeners w) (calls w) (delivered w).
Definition with_listeners (v : list nat) (w : World) : World :=
  mkWorld (ready w) (abortRef w) (error w) (files w) v (calls w) (delivered w).
Definition with_calls (v : list EngineCall) (w : World) : World :=
  mkWorld (ready w) (abortRef w) (error w) (files w) (listeners w) v (delivered w).
Definition with_delivered (v : list (nat * ConversionProgress)) (w : World) : World :=
  mkWorld (ready w) (abortRef w) (error w) (files w) (listeners w) (calls w) v.
Definition with_pc (v : Pc) (r : Run) : Run :=
  mkRun (job r) (file r) (mode r) (inputName r) v.

Definition call (c : EngineCall) (w : World) : World :=
  with_calls (calls w ++ [c]) w.

(** [onProgress(p)] of job [j]. *)
Definition onProgress (j : nat) (p : ConversionProgress) (w : World) : World :=
  with_delivered (delivered w ++ [(j, p)]) w.

(** [Math.min(progress * 100, 99)]. *)
Definition clamp (reported : Q) : Q := Qmin (reported * 100) 99.

(** The listener [convert] registers for job [j]. *)
Definition listener (reported t : Q) (w : World) (j : nat) : World :=
  if abortRef w then w
  else onProgress j (mkProgress (clamp reported) (Some t)) w.

(** The engine emits a progress event: every registered listener runs. *)
Definition emitProgress (reported t : Q) (w : World) : World :=
  fold_left (listener reported t) (listeners w) w.

(** The argument list of the engine command. *)
Definition args (m : Mode) (input output : string) : list string :=
  match m with
  | fast => ["-i"; input; "-c"; "copy"; "-movflags"; "+faststart"; output]
  | reencode =>
      ["-i"; input; "-c:v"; "libx264"; "-preset"; "fast"; "-crf"; "23";
       "-c:a"; "aac"; "-b:a"; "128k"; "-movflags"; "+faststart"; output]
  end.

(** [err instanceof Error ? err.message : 'Conversion failed']. *)
Definition conversionMessage (e : JsErr) : string :=
  match e with
  | ErrorObj _ m _ => m
  | Thrown _ => "Conversion failed"
  end.

(** The [catch] block of [convert]. *)
Definition convertCatch (e : JsErr) (w : World) (r : Run) : World * Run :=
  (with_error (Some (conversionMessage e)) w, with_pc (Returned Failed None) r).

(** What [readFile] rejects with when the workspace entry does not exist:
    the string of the file system's error. *)
Definition missingEntry : JsErr := Thrown "ErrnoError: FS error".

(** [cleanup(ffmpeg, ...entries)] from its loop head: delete the first
    entry and wait, or, with nothing left, go on after the call. *)
Definition cleanup (k : After) (entries : list string) (w : World) (r : Run)
    : World * Run :=
  match entries with
  | n :: _ => (call (DeleteFile n) w, with_pc (AwaitDelete k entries) r)
  | [] =>
      match k with
      | AfterCancel => (w, with_pc (Returned Cancelled None) r)
      | AfterRead d =>
          let w := onProgress (job r) (mkProgress 100 None) w in
          (w, with_pc (Returned Completed (Some (mkBlob d "video/mp4"))) r)
      end
  end.

Section WithLowerCase.

Variable toLowerCase : string -> string.

(** [convert(file, mode, onProgress)] up to its first [await]; [j] names
    the [onProgress] callback passed in. *)
Definition convert (j : nat) (f : File) (m : Mode) (w : World) : World * Run :=
  let input := Extension.inputName toLowerCase (name f) in
  if negb (ready w) then (w, mkRun j f m input (Returned NotReady None))
  else
    let w := with_abortRef false w in
    let w := call OnProgress w in
    let w := with_listeners (listeners w ++ [j]) w in
    (w, mkRun j f m input AwaitFetch).

End WithLowerCase.

(** [cancel()]. *)
Definition cancel (w : World) : World := with_abortRef true w.

(** What the environment does: the awaited operation settles ([None]: it
    succeeded, [Some e]: it threw [e]), the engine reports progress, the
    user cancels.  [Executed out e]: the command has finished, leaving [out]
    (if any) in the output entry. *)
Inductive Event :=
| Fetched (e : option JsErr)
| Written (e : option JsErr)
| Executed (out : option string) (e : option JsErr)
| ReadDone (e : option JsErr)
| Deleted (ok : bool)
| Progress (reported t : Q)
| CancelInvoked.

Definition step (s : World * Run) (e : Event) : World * Run :=
  let (w, r) := s in
  match e, pc r with
  | CancelInvoked, _ => (cancel w, r)
  | Progress p t, _ => (emitProgress p t w, r)
  | Fetched None, AwaitFetch =>
      (call (WriteFile (inputName r) (content (file r))) w,
       with_pc (AwaitWrite (content (file r))) r)
  | Fetched (Some x), AwaitFetch => convertCatch x w r
  | Written None, AwaitWrite d =>
      let w := with_files (<[inputName r := d]> (files w)) w in
      (call (Exec (args (mode r) (inputName r) outputName)) w,
       with_pc AwaitExec r)
  | Written (Some x), AwaitWrite _ => convertCatch x w r
  | Executed out x, AwaitExec =>
      let w := match out with
               | Some d => with_files (<[outputName := d]> (files w)) w
               | None => w
               end in
      match x with
      | Some x => convertCatch x w r
      | None =>
          if abortRef w then cleanup AfterCancel [inputName r; outputName] w r
          else (call (ReadFile outputName) w, with_pc AwaitRead r)
      end
  | ReadDone x, AwaitRead =>
      match x, files w !! outputName with
      | Some x, _ => convertCatch x w r
      | None, None => convertCatch missingEntry w r
      | None, Some d => cleanup (AfterRead d) [inputName r; outputName] w r
      end
  | Deleted ok, AwaitDelete k (n :: rest) =>
      let w := if ok then with_files (delete n (files w)) w else w in
      cleanup k rest w r
  | _, _ => s
  end.

Definition returned (s : World * Run) : bool :=
  match pc (snd s) with Returned _ _ => true | _ => false end.

(** The events of one call of [convert], up to its return. *)
Fixpoint run (evs : list Event) (s : World * Run) : World * Run :=
  match evs with
  | [] => s
  | e :: evs => if returned s then s else run evs (step s e)
  end.

(** The events of the hook's whole life, whatever the call does. *)
Definition run_on (evs : list Event) (s : World * Run) : World * Run :=
  fold_left step evs s.

(** The values job [j]'s [onProgress] received, in order. *)
Definition for_job (j : nat) (l : list (nat * ConversionProgress)) : list Q :=
  map (fun x => progress (snd x)) (List.filter (fun x => Nat.eqb (fst x) j) l).


(** An awaited engine or host operation threw. *)
Definition throws (e : Event) : bool :=
  match e with
  | Fetched (Some _) | Written (Some _) | Executed _ (Some _)
  | ReadDone (Some _) => true
  | _ => false
  end.

Definition is_delete (c : EngineCall) : bool :=
  match c with DeleteFile _ => true | _ => false end.

Definition is_read (c : EngineCall) : bool :=
  match c with ReadFile _ => true | _ => false end.

Definition initial (isReady : bool) : World :=
  mkWorld isReady false None ∅ [] [] [].

End Converter.

(* ===================================================================== *)
(** * The queue page ([startProcessing], [removeItem], [clearCompleted]) *)
(* ===================================================================== *)

(** The page component with its mock conversion ([simulateConversion]), as
    the queue operations are written there.  Downloads and drag-and-drop do
    not touch the queue and are left out. *)

Module Page.

(** ['queued' | 'converting' | 'completed' | 'error']. *)
Inductive FileStatus := queued | converting | completed | error.

Definition status_eqb (a b : FileStatus) : bool :=
  match a, b with
  | queued, queued | converting, converting
  | completed, completed | error, error => true
  | _, _ => false
  end.

Record File := mkFile {
  name : string;
  size : N
}.

(** [QueueItem]; its optional field [error] is [errorText] here. *)
Record QueueItem := mkItem {
  id : string;
  file : File;
  status : FileStatus;
  progress : Q;
  errorText : option string
}.

Inductive ToastType := success | failure | info.

Record Toast := mkToast {
  toastId : string;
  type : ToastType;
  message : string
}.

(** What the host hands out while a handler runs: [Date.now()],
    [Math.random()] and a [crypto.randomUUID()] for each of the two toasts a
    handler may show. *)
Record Host := mkHost {
  dateNow : Z;
  random : Q;
  uuid1 : string;
  uuid2 : string
}.

(** A call of [startProcessing] suspended in its loop, at
    [await simulateConversion(item)]: the snapshot [queuedItems], the item
    being converted with the locals of its timer, and the items still to
    come. *)
Record Pass := mkPass {
  queuedItems : list QueueItem;
  current : QueueItem;
  startTime : Z;
  duration : Q;
  remaining : list QueueItem
}.

(** The component's state.  [converted] logs, in order, the id of every item
    [simulateConversion] was called on. *)
Record State := mkState {
  queue : list QueueItem;
  toasts : list Toast;
  processingRef : bool;
  pass : option Pass;
  converted : list string
}.

Definition init : State := mkState [] [] false None [].

Definition with_queue (v : list QueueItem) (st : State) : State :=
  mkState v (toasts st) (processingRef st) (pass st) (converted st).
Definition with_toasts (v : list Toast) (st : State) : State :=
  mkState (queue st) v (processingRef st) (pass st) (converted st).
Definition with_processingRef (v : bool) (st : State) : State :=
  mkState (queue st) (toasts st) v (pass st) (converted st).
Definition with_pass (v : option Pass) (st : State) : State :=
  mkState (queue st) (toasts st) (processingRef st) v (converted st).
Definition with_converted (v : list string) (st : State) : State :=
  mkState (queue st) (toasts st) (processingRef st) (pass st) v.

(** [setQueue(f)]. *)
Definition setQueue (f : list QueueItem -> list QueueItem) (st : State) : State :=
  with_queue (f (queue st)) st.

Definition showToast (u : string) (t : ToastType) (m : string) (st : State) : State :=
  with_toasts (toasts st ++ [mkToast u t m]) st.

Definition dismissToast (u : string) (st : State) : State :=
  with_toasts (List.filter (fun t => negb (String.eqb (toastId t) u)) (toasts st)) st.

(** The four-second timer of the toast effect: [prev.slice(1)]. *)
Definition expireToast (st : State) : State :=
  with_toasts (List.tl (toasts st)) st.

(** A number in a template literal. *)
Definition show (n : nat) : string := NilZero.string_of_uint (Nat.to_uint n).

(** [`file${n > 1 ? 's' : ''}`]. *)
Definition plural (n : nat) : string := if (1 <? n)%nat then "s" else "".

Definition is_queued (q : QueueItem) : bool := status_eqb (status q) queued.
Definition is_completed (q : QueueItem) : bool := status_eqb (status q) completed.
Definition is_converting (q : QueueItem) : bool := status_eqb (status q) converting.

(** What the render derives from the queue. *)
Definition hasQueued (st : State) : bool := existsb is_queued (queue st).
Definition hasCompleted (st : State) : bool := existsb is_completed (queue st).
Definition isProcessing (st : State) : bool := existsb is_converting (queue st).
Definition completedCount (st : State) : nat :=
  length (List.filter is_completed (queue st)).

Definition addFiles (files : list (string * File)) (u : string) (st : State) : State :=
  let newItems := map (fun f => mkItem (fst f) (snd f) queued 0 None) files in
  let st := setQueue (fun prev => prev ++ newItems) st in
  showToast u info
    ("Added " ++ show (length newItems) ++ " file" ++ plural (length newItems)
       ++ " to queue")%string st.

(** The executor of the promise [simulateConversion(item)] creates: the
    timer's locals are fixed and the interval is set. *)
Definition simulateConversion (items : list QueueItem) (item : QueueItem)
    (rest : list QueueItem) (h : Host) (st : State) : State :=
  let st := with_converted (converted st ++ [id item]) st in
  with_pass (Some (mkPass items item (dateNow h) (3000 + random h * 2000) rest)) st.

(** [startProcessing] at the head of its loop over [queuedItems]. *)
Definition loop (items rest : list QueueItem) (h : Host) (st : State) : State :=
  match rest with
  | item :: rest => simulateConversion items item rest h st
  | [] =>
      let n := length items in
      let st := showToast (uuid2 h) success
                  ("All " ++ show n ++ " file" ++ plural n ++ " converted!")%string
                  st in
      with_pass None (with_processingRef false st)
  end.

(** [startProcessing()], as created by the render that saw [rendered] as the
    queue. *)
Definition startProcessing (rendered : list QueueItem) (h : Host) (st : State) : State :=
  if processingRef st then st
  else
    let st := with_processingRef true st in
    let items := List.filter is_queued rendered in
    let n := length items in
    let st := showToast (uuid1 h) info
                ("Processing " ++ show n ++ " file" ++ plural n ++ "...")%string
                st in
    loop items items h st.

(** The interval callback of the running [simulateConversion], at time
    [now], followed by what its [resolve()] lets [startProcessing] do. *)
Definition tick (now : Z) (h : Host) (st : State) : State :=
  match pass st with
  | None => st
  | Some p =>
      let item := current p in
      let elapsed := inject_Z (now - startTime p) in
      let progress := Qmin (elapsed / duration p * 100) 100 in
      let st := setQueue
                  (map (fun q => if String.eqb (id q) (id item)
                                 then mkItem (id q) (file q) converting progress
                                        (errorText q)
                                 else q)) st in
      if Qle_bool 100 progress then
        let st := setQueue
                    (map (fun q => if String.eqb (id q) (id item)
                                   then mkItem (id q) (file q) completed 100
                                          (errorText q)
                                   else q)) st in
        loop (queuedItems p) (remaining p) h st
      else st
  end.

(** [removeItem(id)]. *)
Definition removeItem (i : string) (st : State) : State :=
  setQueue (List.filter (fun q => negb (String.eqb (id q) i))) st.

(** The close button of row [k] of the rendered queue: it exists only when
    the row's item is not converting, and calls [removeItem(item.id)]. *)
Definition clickRemove (k : nat) (st : State) : State :=
  match nth_error (queue st) k with
  | Some item => if is_converting item then st else removeItem (id item) st
  | None => st
  end.

(** What a handler returns to its caller. *)
Inductive Ret :=
| undefined
| number (n : nat).

(** [clearCompleted()], as created by the render that saw [rendered] as the
    queue; the function has no [return] statement. *)
Definition clearCompleted (rendered : list QueueItem) (u : string) (st : State)
    : State * Ret :=
  let count := length (List.filter is_completed rendered) in
  let st := setQueue (List.filter (fun q => negb (is_completed q))) st in
  let st := showToast u info
              ("Cleared " ++ show count ++ " completed file" ++ plural count)%string
              st in
  (st, undefined).

Inductive Event :=
| AddFiles (files : list (string * File)) (u : string)
| Start (h : Host)
| Tick (now : Z) (h : Host)
| RemoveItem (i : string)
| ClickRemove (k : nat)
| ClearCompleted (u : string)
| DismissToast (u : string)
| ToastTimeout.

(** Handlers are those of the latest render, which has seen every state
    update made so far. *)
Definition step (st : State) (e : Event) : State :=
  match e with
  | AddFiles files u => addFiles files u st
  | Start h => startProcessing (queue st) h st
  | Tick now h => tick now h st
  | RemoveItem i => removeItem i st
  | ClickRemove k => clickRemove k st
  | ClearCompleted u => fst (clearCompleted (queue st) u st)
  | DismissToast u => dismissToast u st
  | ToastTimeout => expireToast st
  end.

(** The events that arrive while a pass is underway. *)
Fixpoint run_pass (evs : list Event) (st : State) : State :=
  match evs with
  | [] => st
  | e :: evs => if processingRef st then run_pass evs (step st e) else st
  end.

Definition run (evs : list Event) (st : State) : State :=
  fold_left step evs st.

End Page.


(* ===================================================================== *)
(** * Downloads of the queue page ([downloadFile], [downloadAllAsZip]) *)
(* ===================================================================== *)

(** The two download handlers of the page.  The archive is the external
    JSZip object, which keeps its entries by name: [zip.file(name, data)]
    adds the entry [name] or replaces the entry of that name, after having
    added a folder entry for every folder of the path [name] that the
    archive does not hold yet ([createFolders] is on by default).  What the
    browser is asked to save is logged in [saved]. *)

Module Download.
Import Page.

(** [name.replace(/\.[^.]+$/, '.mp4')]: the characters before the leftmost
    match are kept, the match is replaced, and nothing follows it, the
    pattern ending at the end of the input; without a match the name is
    returned as it is. *)
Fixpoint replaceExtension (s : string) : string :=
  match Extension.match_here s with
  | Some _ => ".mp4"
  | None =>
      match s with
      | EmptyString => EmptyString
      | String c r => String c (replaceExtension r)
      end
  end.

Definition outputName (item : QueueItem) : string :=
  replaceExtension (name (file item)).

(** [downloadFile(item)]: the new state and the name given to the anchor's
    [download] attribute. *)
Definition downloadFile (item : QueueItem) (u : string) (st : State)
    : State * string :=
  let out := outputName item in
  (showToast u success ("Downloaded: " ++ out)%string st, out).

(** An entry of the archive: a file with its content, or a folder. *)
Inductive ZipObject :=
| zipData (data : string)
| zipDir.

(** [path.slice(-1) === "/"]. *)
Fixpoint endsWithSlash (path : string) : bool :=
  match path with
  | EmptyString => false
  | String c EmptyString => Ascii.eqb c "/"
  | String _ r => endsWithSlash r
  end.

(** [path.substring(0, path.length - 1)]. *)
Fixpoint dropLast (path : string) : string :=
  match path with
  | EmptyString => EmptyString
  | String _ EmptyString => EmptyString
  | String c r => String c (dropLast r)
  end.

(** [path.substring(0, path.lastIndexOf("/"))], when [path] has a slash. *)
Fixpoint beforeLastSlash (path : string) : option string :=
  match path with
  | EmptyString => None
  | String c r =>
      match beforeLastSlash r with
      | Some p => Some (String c p)
      | None => if Ascii.eqb c "/" then Some EmptyString else None
      end
  end.

(** JSZip's [forceTrailingSlash(path)]. *)
Definition forceTrailingSlash (path : string) : string :=
  if endsWithSlash path then path else (path ++ "/")%string.

(** JSZip's [parentFolder(path)]: a final slash is dropped, and the result
    is what precedes the last slash left; it is empty when there is none,
    and also when that slash comes first. *)
Definition parentFolder (path : string) : string :=
  let path := if endsWithSlash path then dropLast path else path in
  match beforeLastSlash path with
  | Some p => p
  | None => EmptyString
  end.

(** JSZip's [fileAdd(name, data, o)] with [folderAdd(parent, true)] inlined:
    [o] is a folder when called from [folderAdd] and a file with its data
    when called from [zip.file].  The parent folder is added first, unless
    the archive holds an entry of its name; then the entry is stored under
    [name].  Each nested call is on a shorter name: [fuel] bounds the
    nesting, and the length of the name is enough. *)
Fixpoint fileAdd (fuel : nat) (name : string) (o : ZipObject)
    (files : gmap string ZipObject) : gmap string ZipObject :=
  let name := match o with
              | zipDir => forceTrailingSlash name
              | zipData _ => name
              end in
  let parent := parentFolder name in
  let files :=
    if String.eqb parent EmptyString then files
    else
      match fuel with
      | 0 => files
      | S fuel =>
          let folder := forceTrailingSlash parent in
          match files !! folder with
          | Some _ => files
          | None => fileAdd fuel folder zipDir files
          end
      end in
  <[name := o]> files.

(** [zip.file(entry, data)]. *)
Definition zipFile (entry data : string) (zip : gmap string ZipObject)
    : gmap string ZipObject :=
  fileAdd (String.length entry) entry (zipData data) zip.

Definition mockContent (out : string) : string :=
  ("Mock MP4 content for " ++ out ++ " - this is a demo file")%string.

(** The loop of [downloadAllAsZip] over [completedItems]. *)
Definition fillZip (items : list QueueItem) : gmap string ZipObject :=
  fold_left (fun zip item => zipFile (outputName item)
                               (mockContent (outputName item)) zip)
    items ∅.

(** The page with the state and the effects of the archive download. *)
Record Zipping := mkZipping {
  page : State;
  isZipping : bool;
  saved : list (string * gmap string ZipObject)
}.

(** A number in a template literal ([Date.now()]). *)
Definition showZ (z : Z) : string := NilZero.string_of_int (Z.to_int z).

(** [downloadAllAsZip()], as created by the render that saw [rendered], up
    to [await zip.generateAsync(...)]: nothing at all without a completed
    job; otherwise the flag, the toast, and the archive filled. *)
Definition downloadAllAsZip (rendered : list QueueItem) (u : string)
    (z : Zipping) : Zipping * option (list QueueItem * gmap string ZipObject) :=
  let completedItems := List.filter is_completed rendered in
  match completedItems with
  | [] => (z, None)
  | _ :: _ =>
      let z := mkZipping (page z) true (saved z) in
      let z := mkZipping (showToast u info "Preparing ZIP archive..." (page z))
                 (isZipping z) (saved z) in
      (z, Some (completedItems, fillZip completedItems))
  end.

(** The rest of [downloadAllAsZip()] once [generateAsync] has settled:
    [generated = false] is the [catch] block; [finally] ends both. *)
Definition downloadAllAsZip_settled
    (pending : list QueueItem * gmap string ZipObject) (generated : bool)
    (now : Z) (u : string) (z : Zipping) : Zipping :=
  let z :=
    if generated then
      let file := ("videoforge-output-" ++ showZ now ++ ".zip")%string in
      mkZipping
        (showToast u success
           ("Downloaded " ++ show (length (fst pending)) ++ " files as ZIP")%string
           (page z))
        (isZipping z) (saved z ++ [(file, snd pending)])
    else
      mkZipping (showToast u failure "Failed to create ZIP archive" (page z))
        (isZipping z) (saved z) in
  mkZipping (page z) false (saved z).

End Download.

(* ===================================================================== *)
(** * Properties of [getExtension] and of the workspace names *)
(* ===================================================================== *)

Module ExtensionTheory.
Import Extension.

Lemma last_dot_suffix_none (s : string) :
  last_dot_suffix s = None <-> no_dot s = true.
Proof.
  induction s as [|c r IH]; simpl; [tauto|].
  unfold not_dot. destruct (last_dot_suffix r) as [m|].
  - split; [discriminate|]. intros H. apply andb_true_iff in H as [_ H].
    apply IH in H. discriminate.
  - destruct (Ascii.eqb c "."); simpl; split; try discriminate; tauto.
Qed.

Lemma regex_match_cons (c : ascii) (r : string) :
  regex_match (String c r) =
  match match_here (String c r) with
  | Some m => Some m
  | None => regex_match r
  end.
Proof. reflexivity. Qed.

Lemma match_here_cons (c : ascii) (r : string) :
  match_here (String c r) =
  if Ascii.eqb c "." && negb (String.eqb r "") && no_dot r
  then Some (String c r) else None.
Proof.
  destruct r as [|c' r']; simpl.
  - now rewrite andb_false_r.
  - now rewrite andb_true_r.
Qed.

(** The pattern finds what the specification calls the final dot-suffix. *)
Lemma regex_match_final (s : string) : regex_match s = final_dot_suffix s.
Proof.
  induction s as [|c r IH]; [reflexivity|].
  rewrite regex_match_cons, match_here_cons, IH.
  unfold final_dot_suffix. cbn [last_dot_suffix].
  destruct (last_dot_suffix r) as [m|] eqn:Hl.
  - assert (Hnd : no_dot r = false).
    { destruct (no_dot r) eqn:E; [|reflexivity].
      apply last_dot_suffix_none in E. congruence. }
    now rewrite Hnd, andb_false_r.
  - rewrite (proj1 (last_dot_suffix_none r) Hl), andb_true_r.
    destruct (Ascii.eqb c "."), r; reflexivity.
Qed.

Lemma no_dot_app (a b : string) :
  no_dot (a ++ b) = no_dot a && no_dot b.
Proof.
  induction a as [|c a IH]; simpl; [reflexivity|].
  now rewrite IH, andb_assoc.
Qed.

Lemma last_dot_suffix_app (pre suf : string) :
  no_dot suf = true ->
  last_dot_suffix (pre ++ String "." suf) = Some (String "." suf).
Proof.
  intros H. induction pre as [|c pre IH]; simpl.
  - now rewrite (proj2 (last_dot_suffix_none _) H).
  - now rewrite IH.
Qed.

Lemma last_dot_suffix_some (s m : string) :
  last_dot_suffix s = Some m ->
  exists pre suf, s = (pre ++ String "." suf)%string /\ m = String "." suf
                  /\ no_dot suf = true.
Proof.
  revert m. induction s as [|c r IH]; intros m; simpl; [discriminate|].
  destruct (last_dot_suffix r) as [m'|] eqn:Hl.
  - intros [= <-]. destruct (IH _ eq_refl) as (pre & suf & -> & -> & Hs).
    exists (String c pre), suf. auto.
  - destruct (Ascii.eqb_spec c "."); [|discriminate].
    intros [= <-]. subst c. exists EmptyString, r.
    split; [reflexivity|]. split; [reflexivity|].
    now apply last_dot_suffix_none.
Qed.

(** The final dot-suffix, in full: the name ends with a dot followed by one
    or more characters none of which is a dot. *)
Lemma final_dot_suffix_spec (s m : string) :
  final_dot_suffix s = Some m <->
  exists pre suf, s = (pre ++ String "." suf)%string /\ m = String "." suf
                  /\ suf <> EmptyString /\ no_dot suf = true.
Proof.
  unfold final_dot_suffix. split.
  - destruct (last_dot_suffix s) as [m'|] eqn:Hl; [|discriminate].
    destruct (last_dot_suffix_some _ _ Hl) as (pre & suf & -> & -> & Hs).
    destruct suf; [discriminate|]. intros [= <-].
    exists pre, (String a suf). repeat split; auto.
  - intros (pre & suf & -> & -> & Hne & Hs).
    rewrite (last_dot_suffix_app _ _ Hs). destruct suf; [contradiction|reflexivity].
Qed.


(* ===================================================================== *)
(** ** Further properties of [getExtension] *)
(* ===================================================================== *)

Lemma last_dot_suffix_dot (s : string) :
  last_dot_suffix s = Some "." <-> exists g, s = (g ++ ".")%string.
Proof.
  split.
  - intros H. destruct (last_dot_suffix_some _ _ H) as (pre & suf & -> & E & _).
    injection E as <-. now exists pre.
  - intros (g & ->). now apply (last_dot_suffix_app g EmptyString).
Qed.

(** The default extension: [getExtension] finds no suffix, and so answers
    [".mp4"], exactly for the names that contain no dot at all (the empty
    name among them) and for the names that end with a dot. *)
Theorem default_extension_iff (s : string) :
  (regex_match s = None <->
   no_dot s = true \/ exists g, s = (g ++ ".")%string)
  /\ (forall lc, regex_match s = None -> getExtension lc s = ".mp4").
Proof.
  split.
  - rewrite regex_match_final. unfold final_dot_suffix.
    rewrite <- last_dot_suffix_none, <- last_dot_suffix_dot.
    destruct (last_dot_suffix s) as [[|c [|c' m]]|] eqn:E.
    + apply last_dot_suffix_some in E as (? & ? & _ & [=] & _).
    + apply last_dot_suffix_some in E as (? & ? & _ & [= -> <-] & _).
      split; auto.
    + split; [discriminate|]. intros [H|H]; [discriminate|].
      injection H as H. discriminate.
    + split; auto.
  - intros lc H. unfold getExtension. now rewrite H.
Qed.

(** *** Letter case *)

(** The characters below 128, on which [lower] is [toLowerCase]. *)
Definition ascii7 (s : string) : bool :=
  forallb (fun c => (nat_of_ascii c <? 128)%nat) (list_ascii_of_string s).

Lemma lower_ascii_dot (c : ascii) :
  Ascii.eqb (lower_ascii c) "." = Ascii.eqb c ".".
Proof.
  destruct c as [[] [] [] [] [] [] [] []]; reflexivity.
Qed.

Lemma lower_ascii_idem (c : ascii) : lower_ascii (lower_ascii c) = lower_ascii c.
Proof.
  destruct c as [[] [] [] [] [] [] [] []]; reflexivity.
Qed.

Lemma lower_idem (s : string) : lower (lower s) = lower s.
Proof.
  induction s as [|c s IH]; cbn; [reflexivity|].
  now rewrite lower_ascii_idem, IH.
Qed.

Lemma no_dot_lower (s : string) : no_dot (lower s) = no_dot s.
Proof.
  induction s as [|c s IH]; cbn; [reflexivity|].
  unfold not_dot. now rewrite lower_ascii_dot, IH.
Qed.

Lemma regex_match_lower (s : string) :
  regex_match (lower s) = option_map lower (regex_match s).
Proof.
  induction s as [|c s IH]; [reflexivity|].
  change (lower (String c s)) with (String (lower_ascii c) (lower s)).
  rewrite !regex_match_cons, !match_here_cons, IH.
  rewrite lower_ascii_dot, no_dot_lower.
  replace (String.eqb (lower s) "") with (String.eqb s "") by now destruct s.
  destruct (Ascii.eqb c "." && negb (String.eqb s "") && no_dot s); reflexivity.
Qed.

(** With ASCII lower-casing for [toLowerCase], the extension does not
    depend on the letter case of the name: a name and its lower-cased form
    get the same extension, so two names of ASCII characters that differ
    only in case get the same input entry; and the extension is itself in
    lower case. *)
Theorem extension_ignores_case (s t : string) :
  ascii7 s = true -> ascii7 t = true -> lower s = lower t ->
  getExtension lower s = getExtension lower t
  /\ inputName lower s = inputName lower t
  /\ lower (getExtension lower s) = getExtension lower s.
Proof.
  intros _ _ Hst.
  assert (H : forall x, getExtension lower x = getExtension lower (lower x)).
  { intros x. unfold getExtension. rewrite regex_match_lower.
    destruct (regex_match x); cbn; [now rewrite lower_idem|reflexivity]. }
  assert (E : getExtension lower s = getExtension lower t).
  { now rewrite (H s), (H t), Hst. }
  split; [exact E|]. split; [unfold inputName; now rewrite E|].
  unfold getExtension. destruct (regex_match s); [apply lower_idem|reflexivity].
Qed.

Lemma extension_ignores_case_witness :
  ascii7 "Holiday.MOV" = true /\ ascii7 "holiday.mov" = true
  /\ inputName lower "Holiday.MOV" = inputName lower "holiday.mov".
Proof.
  split; [reflexivity|]. split; [reflexivity|].
  destruct (extension_ignores_case "Holiday.MOV" "holiday.mov"
              eq_refl eq_refl eq_refl) as (_ & H & _).
  exact H.
Defined.

End ExtensionTheory.

(* ===================================================================== *)
(** * Properties of the conversion runner *)
(* ===================================================================== *)

Module ConverterTheory.
Import Js Converter.

(** ** The progress listeners *)

Lemma listeners_fold (p t : Q) (l : list nat) (w : World) :
  fold_left (listener p t) l w =
  if abortRef w then w
  else with_delivered
         (delivered w ++ map (fun j => (j, mkProgress (clamp p) (Some t))) l) w.
Proof.
  revert w. induction l as [|j l IH]; intros w; simpl.
  - destruct w as [rd ab er fs ls cs ds]; simpl. destruct ab; [reflexivity|].
    unfold with_delivered; simpl. now rewrite app_nil_r.
  - rewrite IH. unfold listener. destruct (abortRef w) eqn:Hab.
    + now rewrite Hab.
    + simpl. rewrite Hab. unfold with_delivered, onProgress, with_delivered; simpl.
      now rewrite <- app_assoc.
Qed.

Lemma emitProgress_spec (p t : Q) (w : World) :
  emitProgress p t w =
  if abortRef w then w
  else with_delivered
         (delivered w
            ++ map (fun j => (j, mkProgress (clamp p) (Some t))) (listeners w)) w.
Proof. apply listeners_fold. Qed.



(** ** What one step changes *)

Definition same_run (r r' : Run) : Prop :=
  job r' = job r /\ file r' = file r /\ mode r' = mode r
  /\ inputName r' = inputName r.

(** Case analysis on everything [step] inspects. *)
Ltac step_cases :=
  cbn [step]; repeat case_match; subst;
  unfold cleanup, convertCatch; repeat case_match; subst;
  cbn [cleanup convertCatch cancel call onProgress with_pc with_error
       with_files with_calls with_delivered with_abortRef
       fst snd pc job file mode inputName
       ready abortRef error files listeners calls delivered] in *.

Lemma step_same_run s e : same_run (snd s) (snd (step s e)).
Proof. destruct s as [w r]. step_cases; repeat split. Qed.

Lemma step_listeners s e : listeners (fst (step s e)) = listeners (fst s).
Proof.
  destruct s as [w r]. step_cases; try reflexivity.
  rewrite emitProgress_spec. now destruct (abortRef w).
Qed.

Lemma step_abortRef s e :
  abortRef (fst (step s e)) =
  match e with CancelInvoked => true | _ => abortRef (fst s) end.
Proof.
  destruct s as [w r]. step_cases; try reflexivity.
  rewrite emitProgress_spec. now destruct (abortRef w) eqn:E.
Qed.

Lemma run_returned evs s : returned s = true -> run evs s = s.
Proof. intros H. destruct evs; simpl; [reflexivity|now rewrite H]. Qed.


(** ** The values one job's callback receives *)




Lemma step_cancel_pc s : pc (snd (step s CancelInvoked)) = pc (snd s).
Proof. destruct s as [w r]. reflexivity. Qed.



(** ** Clamping *)







(** ** The engine calls of one run *)

Definition readCall (k : After) : list EngineCall :=
  match k with
  | AfterCancel => []
  | AfterRead _ => [ReadFile outputName]
  end.

(** The calls a run has made on the engine, by the point it has reached. *)
Definition shape (r : Run) (cs : list EngineCall) : Prop :=
  let i := inputName r in
  let W := WriteFile i (content (file r)) in
  let E := Exec (args (mode r) i outputName) in
  match pc r with
  | AwaitFetch => cs = [OnProgress]
  | AwaitWrite d => d = content (file r) /\ cs = [OnProgress; W]
  | AwaitExec => cs = [OnProgress; W; E]
  | AwaitRead => cs = [OnProgress; W; E; ReadFile outputName]
  | AwaitDelete k es =>
      (es = [i; outputName]
       /\ cs = [OnProgress; W; E] ++ readCall k ++ [DeleteFile i])
      \/ (es = [outputName]
          /\ cs = [OnProgress; W; E] ++ readCall k
                  ++ [DeleteFile i; DeleteFile outputName])
  | Returned NotReady res => res = None /\ cs = []
  | Returned Cancelled res =>
      res = None
      /\ cs = [OnProgress; W; E; DeleteFile i; DeleteFile outputName]
  | Returned Completed res =>
      (exists d, res = Some (mkBlob d "video/mp4"))
      /\ cs = [OnProgress; W; E; ReadFile outputName;
               DeleteFile i; DeleteFile outputName]
  | Returned Failed res =>
      res = None
      /\ (cs = [OnProgress] \/ cs = [OnProgress; W] \/ cs = [OnProgress; W; E]
          \/ cs = [OnProgress; W; E; ReadFile outputName])
  end.

Lemma step_shape s e c0 cs :
  calls (fst s) = c0 ++ cs -> shape (snd s) cs ->
  exists cs', calls (fst (step s e)) = c0 ++ cs' /\ shape (snd (step s e)) cs'.
Proof.
  destruct s as [w r]. cbn [fst snd]. intros Hc Hs.
  destruct e as [x|x|out x|x|ok|q t|].
  6: { exists cs. split; [|exact Hs]. cbn [step fst].
       rewrite emitProgress_spec. now destruct (abortRef w). }
  6: { exists cs. split; [exact Hc|exact Hs]. }
  all: step_cases; try (exists cs; split; [exact Hc|exact Hs]).
  all: unfold shape in *;
    cbn [pc with_pc inputName file mode job readCall app] in *;
    match goal with H : pc ?r0 = _, Hs : context [pc ?r0] |- _ =>
      rewrite H in Hs end;
    repeat match goal with
           | H : _ /\ _ |- _ => destruct H
           | H : _ \/ _ |- _ => destruct H
           | H : _ :: _ = _ :: _ |- _ => injection H as ? ?
           end; subst; try discriminate;
    match goal with Hc : calls _ = _ |- _ => rewrite Hc end;
    (eexists; split;
     [first [reflexivity | rewrite <- app_assoc; reflexivity]|]);
    cbn [readCall app]; eauto 8.
  all: destruct k; cbn; auto.
Qed.

Lemma run_shape evs : forall s c0 cs,
  calls (fst s) = c0 ++ cs -> shape (snd s) cs ->
  exists cs', calls (fst (run evs s)) = c0 ++ cs' /\ shape (snd (run evs s)) cs'.
Proof.
  induction evs as [|e evs IH]; intros s c0 cs Hc Hs; cbn [run]; [eauto|].
  destruct (returned s); [eauto|].
  destruct (step_shape s e c0 cs Hc Hs) as (cs' & Hc' & Hs'). eauto.
Qed.

Lemma convert_shape lc j f m w :
  exists cs, calls (fst (convert lc j f m w)) = calls w ++ cs
             /\ shape (snd (convert lc j f m w)) cs.
Proof.
  unfold convert. destruct (ready w); cbn.
  - exists [OnProgress]. split; reflexivity.
  - exists []. split; [now rewrite app_nil_r|]. split; reflexivity.
Qed.

Lemma convert_run_shape lc j f m w evs :
  let s := run evs (convert lc j f m w) in
  exists cs, calls (fst s) = calls w ++ cs /\ shape (snd s) cs.
Proof.
  destruct (convert_shape lc j f m w) as (cs & Hc & Hs).
  apply (run_shape evs _ _ _ Hc Hs).
Qed.

Lemma run_same_run evs : forall s, same_run (snd s) (snd (run evs s)).
Proof.
  induction evs as [|e evs IH]; intros s; cbn [run]; [repeat split|].
  destruct (returned s); [repeat split|].
  destruct (step_same_run s e) as (H1 & H2 & H3 & H4).
  destruct (IH (step s e)) as (K1 & K2 & K3 & K4).
  repeat split; congruence.
Qed.

Lemma convert_locals lc j f m w :
  let r := snd (convert lc j f m w) in
  job r = j /\ file r = f /\ mode r = m
  /\ inputName r = Extension.inputName lc (name f).
Proof. unfold convert. destruct (ready w); repeat split. Qed.

(** ** Cancellation before the engine command has returned *)

Definition before_command_returns (p : Pc) : bool :=
  match p with
  | AwaitFetch | AwaitWrite _ | AwaitExec => true
  | _ => false
  end.

(** Where a run can be once the flag was set before the command returned. *)
Definition cancelling (s : World * Run) : Prop :=
  abortRef (fst s) = true /\
  match pc (snd s) with
  | AwaitFetch | AwaitWrite _ | AwaitExec | AwaitDelete AfterCancel _
  | Returned Cancelled None | Returned Failed None => True
  | _ => False
  end.

Definition failed (s : World * Run) : bool :=
  match pc (snd s) with Returned Failed _ => true | _ => false end.

Lemma cancelling_step s e :
  cancelling s ->
  cancelling (step s e)
  /\ delivered (fst (step s e)) = delivered (fst s)
  /\ (exists cs, calls (fst (step s e)) = calls (fst s) ++ cs
                 /\ existsb is_read cs = false)
  /\ (failed s = false -> throws e = false -> failed (step s e) = false).
Proof.
  destruct s as [w r]. unfold cancelling, failed.
  cbn [fst snd]. intros [Hab Hpc].
  assert (Hnil : exists cs, calls w = calls w ++ cs /\ existsb is_read cs = false).
  { exists []. now rewrite app_nil_r. }
  destruct e as [x|x|out x|x|ok|q t|].
  6: { cbn [step fst snd]. rewrite emitProgress_spec, Hab. auto. }
  6: { cbn [step fst snd cancel with_abortRef abortRef delivered calls]. auto. }
  all: step_cases; try (rewrite Hab; tauto); try congruence;
    try match goal with H : pc ?r0 = _ |- _ => rewrite H in * end;
    try contradiction;
    (split; [split; [assumption|exact I]|]);
    (split; [reflexivity|]);
    (split; [first [exact Hnil | eexists; split; reflexivity]|]);
    cbn; auto; try discriminate.
Qed.

Lemma cancelling_run evs : forall s,
  cancelling s ->
  cancelling (run evs s)
  /\ delivered (fst (run evs s)) = delivered (fst s)
  /\ (exists cs, calls (fst (run evs s)) = calls (fst s) ++ cs
                 /\ existsb is_read cs = false)
  /\ (failed s = false -> existsb throws evs = false ->
      failed (run evs s) = false).
Proof.
  assert (Hstay : forall s, cancelling s ->
            cancelling s /\ delivered (fst s) = delivered (fst s)
            /\ (exists cs, calls (fst s) = calls (fst s) ++ cs
                           /\ existsb is_read cs = false)).
  { intros s Hs. split; [exact Hs|]. split; [reflexivity|].
    exists []. now rewrite app_nil_r. }
  induction evs as [|e evs IH]; intros s Hs; cbn [run].
  - destruct (Hstay s Hs) as (H1 & H2 & H3). auto.
  - destruct (returned s) eqn:Hret.
    + destruct (Hstay s Hs) as (H1 & H2 & H3). auto.
    + destruct (cancelling_step s e Hs) as (H1 & H2 & (cs1 & H3 & H3') & H4).
      destruct (IH _ H1) as (K1 & K2 & (cs2 & K3 & K3') & K4).
      split; [exact K1|]. split; [congruence|]. split.
      * exists (cs1 ++ cs2). rewrite K3, H3, <- app_assoc. split; [reflexivity|].
        rewrite existsb_app, H3', K3'. reflexivity.
      * cbn [existsb]. intros Hf Hth. apply orb_false_iff in Hth as [Ht1 Ht2].
        auto.
Qed.

(** ** Cancellation after the flag was checked *)

(** The run is past the check of the flag: it awaits [readFile] or a
    deletion of [cleanup]. *)
Definition after_check (p : Pc) : bool :=
  match p with
  | AwaitRead | AwaitDelete _ _ => true
  | _ => false
  end.

(** The flag is not read by the run any more. *)
Definition past_check (p : Pc) : bool :=
  match p with
  | AwaitFetch | AwaitWrite _ | AwaitExec => false
  | _ => true
  end.

(** Two states that differ at most in the flag and in the log of the
    callbacks. *)
Definition agree (s s' : World * Run) : Prop :=
  snd s = snd s' /\ ready (fst s) = ready (fst s')
  /\ error (fst s) = error (fst s') /\ files (fst s) = files (fst s')
  /\ listeners (fst s) = listeners (fst s') /\ calls (fst s) = calls (fst s').

Lemma agree_step s s' e :
  agree s s' -> past_check (pc (snd s)) = true ->
  agree (step s e) (step s' e) /\ past_check (pc (snd (step s e))) = true.
Proof.
  destruct s as [[rd ab er fs ls cs ds] r], s' as [[rd' ab' er' fs' ls' cs' ds'] r'].
  unfold agree. cbn [fst snd ready error files listeners calls].
  intros (<- & <- & <- & <- & <- & <-) Hp.
  destruct e as [x|x|out x|x|ok|q t|].
  6: { cbn [step fst snd]. rewrite !emitProgress_spec. cbn [abortRef].
       destruct ab, ab'; cbn; auto 10. }
  6: { cbn; auto 10. }
  all: step_cases; simplify_eq; try discriminate;
    try match goal with H : pc ?r0 = _ |- _ => rewrite H in * end;
    try discriminate; cbn; auto 10.
Qed.

Lemma agree_run evs : forall s s',
  agree s s' -> past_check (pc (snd s)) = true ->
  agree (run evs s) (run evs s').
Proof.
  induction evs as [|e evs IH]; intros s s' H Hp; cbn [run]; [exact H|].
  assert (Hret : returned s = returned s').
  { unfold returned. destruct H as (-> & _). reflexivity. }
  rewrite <- Hret. destruct (returned s); [exact H|].
  destruct (agree_step s s' e H Hp) as (H1 & H2). now apply IH.
Qed.

(** The one call of the callback a run makes itself. *)
Definition last_call (s : World * Run) : list (nat * ConversionProgress) :=
  match pc (snd s) with
  | Returned Completed _ => [(job (snd s), mkProgress 100 None)]
  | _ => []
  end.

Lemma flagged_step s e :
  abortRef (fst s) = true -> past_check (pc (snd s)) = true ->
  returned s = false ->
  abortRef (fst (step s e)) = true
  /\ past_check (pc (snd (step s e))) = true
  /\ delivered (fst (step s e)) = delivered (fst s) ++ last_call (step s e).
Proof.
  destruct s as [w r]. unfold returned, last_call. cbn [fst snd].
  intros Hab Hp Hret. rewrite step_abortRef. cbn [fst].
  split; [now destruct e|].
  destruct e as [x|x|out x|x|ok|q t|].
  6: { cbn [step fst snd]. rewrite emitProgress_spec, Hab.
       split; [exact Hp|]. destruct (pc r) as [| | | | |[] res];
         try discriminate; now rewrite app_nil_r. }
  6: { cbn [step fst snd cancel with_abortRef delivered].
       split; [exact Hp|]. destruct (pc r) as [| | | | |[] res];
         try discriminate; now rewrite app_nil_r. }
  all: step_cases; simplify_eq; try discriminate;
    try match goal with H : pc ?r0 = _ |- _ => rewrite H in * end;
    try discriminate; cbn; rewrite ?app_nil_r; auto.
Qed.

Lemma flagged_run evs : forall s,
  abortRef (fst s) = true -> past_check (pc (snd s)) = true ->
  returned s = false ->
  delivered (fst (run evs s)) = delivered (fst s) ++ last_call (run evs s).
Proof.
  induction evs as [|e evs IH]; intros s Hab Hp Hret; cbn [run].
  - unfold last_call, returned in *.
    destruct (pc (snd s)); try discriminate; now rewrite app_nil_r.
  - rewrite Hret. destruct (flagged_step s e Hab Hp Hret) as (H1 & H2 & H3).
    destruct (returned (step s e)) eqn:Hret'.
    + now rewrite run_returned.
    + assert (Hl : last_call (step s e) = []).
      { unfold last_call, returned in *.
        now destruct (pc (snd (step s e))). }
      rewrite IH by assumption. now rewrite H3, Hl, app_nil_r.
Qed.

(** ** The statements about progress, cancellation and cleanup *)

Definition clip : File := mkFile "clip.mov" "bytes".

Definition boom : JsErr := ErrorObj "Error" "boom" None.






(** C3 as the specification words it: [cancel()] is invoked while the run
    has not returned; then the run, if it returns, returns no Blob, calls
    the progress callback no more, reads no output and has deleted both
    workspace entries. *)
Definition cancel_honoured (lc : string -> string) (j : nat) (f : File)
    (m : Mode) (w : World) (pre post : list Event) : Prop :=
  let s1 := run pre (convert lc j f m w) in
  returned s1 = false ->
  let s2 := run (CancelInvoked :: post) s1 in
  forall x res, pc (snd s2) = Returned x res ->
    res = None
    /\ delivered (fst s2) = delivered (fst s1)
    /\ (exists cs, calls (fst s2) = calls (fst s1) ++ cs
                   /\ existsb is_read cs = false)
    /\ (exists cs, calls (fst s2) =
                   cs ++ [DeleteFile (inputName (snd s2)); DeleteFile outputName]).

(** C3, counterexample: [cancel()] is invoked while [readFile] is awaited,
    after the flag was checked; the run delivers 100 and returns the Blob. *)
Lemma cancel_after_check_ignored :
  ~ cancel_honoured Extension.lower 0 clip fast (initial true)
      [Fetched None; Written None; Executed (Some "out") None]
      [ReadDone None; Deleted true; Deleted true].
Proof.
  unfold cancel_honoured. intros H.
  specialize (H eq_refl Completed (Some (mkBlob "out" "video/mp4")) eq_refl).
  destruct H as [H _]. discriminate H.
Qed.

Lemma cancel_before_check (lc : string -> string) (j : nat)
    (f : File) (m : Mode) (w : World) (pre post : list Event) :
  let s1 := run pre (convert lc j f m w) in
  before_command_returns (pc (snd s1)) = true ->
  let s2 := run (CancelInvoked :: post) s1 in
  delivered (fst s2) = delivered (fst s1)
  /\ (exists cs, calls (fst s2) = calls (fst s1) ++ cs
                 /\ existsb is_read cs = false)
  /\ (forall x res, pc (snd s2) = Returned x res ->
        res = None /\ (x = Cancelled \/ x = Failed))
  /\ (forall x res, pc (snd s2) = Returned x res ->
        existsb throws post = false ->
        x = Cancelled
        /\ exists cs, calls (fst s2) =
                      cs ++ [DeleteFile (Extension.inputName lc (name f));
                             DeleteFile outputName]).
Proof.
  intros s1 Hpc s2.
  assert (Hret : returned s1 = false).
  { unfold returned. now destruct (pc (snd s1)). }
  assert (Hstep : s2 = run post (step s1 CancelInvoked)).
  { subst s2. cbn [run]. now rewrite Hret. }
  assert (Hc : cancelling (step s1 CancelInvoked)).
  { split; [now rewrite step_abortRef|]. rewrite step_cancel_pc.
    now destruct (pc (snd s1)). }
  assert (Hd1 : delivered (fst (step s1 CancelInvoked)) = delivered (fst s1)).
  { now destruct s1. }
  assert (Hc1 : calls (fst (step s1 CancelInvoked)) = calls (fst s1)).
  { now destruct s1. }
  assert (Hf1 : failed (step s1 CancelInvoked) = false).
  { unfold failed. rewrite step_cancel_pc. now destruct (pc (snd s1)). }
  destruct (cancelling_run post _ Hc) as ((_ & Hpc2) & Hd & (cs & Hcs & Hrd) & Hf).
  rewrite <- Hstep in *. rewrite Hd1 in Hd. rewrite Hc1 in Hcs.
  split; [exact Hd|]. split; [eauto|]. split.
  - intros x res Hx. rewrite Hx in Hpc2. destruct x, res; try contradiction; auto.
  - intros x res Hx Hth. specialize (Hf Hf1 Hth). unfold failed in Hf.
    rewrite Hx in Hpc2, Hf. destruct x, res; try contradiction; try discriminate.
    split; [reflexivity|].
    assert (Hs2 : s2 = run (pre ++ CancelInvoked :: post) (convert lc j f m w)).
    { subst s2 s1. clear. generalize (convert lc j f m w).
      induction pre as [|e pre IH]; intros s; [reflexivity|].
      cbn [app run]. destruct (returned s) eqn:E; [|apply IH].
      cbn [run]. now rewrite E. }
    destruct (convert_run_shape lc j f m w (pre ++ CancelInvoked :: post))
      as (cs' & Hc' & Hs').
    rewrite <- Hs2 in Hc', Hs'. unfold shape in Hs'. rewrite Hx in Hs'.
    destruct Hs' as [_ ->].
    destruct (run_same_run (pre ++ CancelInvoked :: post) (convert lc j f m w))
      as (_ & _ & _ & Hin).
    rewrite <- Hs2 in Hin. destruct (convert_locals lc j f m w) as (_ & _ & _ & Hin').
    rewrite Hin' in Hin. rewrite Hin in Hc'.
    eexists (calls w ++ [_; _; _]). rewrite Hc', <- app_assoc. reflexivity.
Qed.

Lemma cancel_after_check (lc : string -> string) (j : nat)
    (f : File) (m : Mode) (w : World) (pre post : list Event) :
  let s1 := run pre (convert lc j f m w) in
  after_check (pc (snd s1)) = true ->
  let s2 := run (CancelInvoked :: post) s1 in
  let s' := run post s1 in
  snd s2 = snd s'
  /\ calls (fst s2) = calls (fst s')
  /\ files (fst s2) = files (fst s')
  /\ error (fst s2) = error (fst s')
  /\ delivered (fst s2) =
     delivered (fst s1)
       ++ match pc (snd s2) with
          | Returned Completed _ => [(j, mkProgress 100 None)]
          | _ => []
          end.
Proof.
  intros s1 Hpc s2 s'.
  assert (Hret : returned s1 = false).
  { unfold returned. now destruct (pc (snd s1)). }
  assert (Hpast : past_check (pc (snd s1)) = true).
  { now destruct (pc (snd s1)). }
  assert (Hstep : s2 = run post (step s1 CancelInvoked)).
  { subst s2. cbn [run]. now rewrite Hret. }
  assert (Hag : agree (step s1 CancelInvoked) s1).
  { destruct s1 as [w1 r1]. repeat split. }
  assert (Hpast' : past_check (pc (snd (step s1 CancelInvoked))) = true).
  { now rewrite step_cancel_pc. }
  destruct (agree_run post _ _ Hag Hpast') as (H1 & _ & H3 & H4 & _ & H6).
  rewrite <- Hstep in H1, H3, H4, H6. fold s' in H1, H3, H4, H6.
  split; [exact H1|]. split; [exact H6|]. split; [exact H4|].
  split; [exact H3|].
  rewrite Hstep, flagged_run;
    [|now rewrite step_abortRef|exact Hpast'|].
  2: { unfold returned. rewrite step_cancel_pc. exact Hret. }
  rewrite <- Hstep. unfold last_call.
  assert (Hj : job (snd s2) = j).
  { rewrite Hstep.
    destruct (run_same_run post (step s1 CancelInvoked)) as (E1 & _).
    destruct (step_same_run s1 CancelInvoked) as (E2 & _).
    destruct (run_same_run pre (convert lc j f m w)) as (E3 & _).
    destruct (convert_locals lc j f m w) as (E4 & _).
    fold s1 in E3. congruence. }
  rewrite Hj. f_equal. now destruct s1.
Qed.

(** C3, amended: one run of [convert] is followed, no other call of
    [convert] being started on the hook meanwhile (a new call resets the
    flag), and [cancel()] is invoked during it.  If the run is then still
    before the return of the engine command: from then on no progress callback is called, the output is
    never read, and the run cannot return a Blob; if moreover none of the
    awaited operations throws, the run leaves by the cancellation return,
    after [cleanup] has issued the deletion of both workspace entries.  If
    the run is then past the check of the flag (it awaits [readFile] or a
    deletion of [cleanup]): the run is not cancelled; it makes the same
    engine calls, leaves the same workspace and the same error, and returns
    by the same exit with the same result as it does without the [cancel()],
    the Blob included; the only effect of the [cancel()] is that the
    engine's progress reports are delivered no more, so that the callback
    is called once more, with 100, exactly when the run returns the Blob. *)
Theorem cancel_before_command_returns (lc : string -> string) (j : nat)
    (f : File) (m : Mode) (w : World) (pre post : list Event) :
  let s1 := run pre (convert lc j f m w) in
  let s2 := run (CancelInvoked :: post) s1 in
  (before_command_returns (pc (snd s1)) = true ->
   delivered (fst s2) = delivered (fst s1)
   /\ (exists cs, calls (fst s2) = calls (fst s1) ++ cs
                  /\ existsb is_read cs = false)
   /\ (forall x res, pc (snd s2) = Returned x res ->
         res = None /\ (x = Cancelled \/ x = Failed))
   /\ (forall x res, pc (snd s2) = Returned x res ->
         existsb throws post = false ->
         x = Cancelled
         /\ exists cs, calls (fst s2) =
                       cs ++ [DeleteFile (Extension.inputName lc (name f));
                              DeleteFile outputName]))
  /\ (after_check (pc (snd s1)) = true ->
      let s' := run post s1 in
      snd s2 = snd s'
      /\ calls (fst s2) = calls (fst s')
      /\ files (fst s2) = files (fst s')
      /\ error (fst s2) = error (fst s')
      /\ delivered (fst s2) =
         delivered (fst s1)
           ++ match pc (snd s2) with
              | Returned Completed _ => [(j, mkProgress 100 None)]
              | _ => []
              end).
Proof.
  intros s1 s2. split.
  - apply cancel_before_check.
  - apply cancel_after_check.
Qed.

Lemma cancel_before_command_returns_witness :
  let c := convert Extension.lower 0 clip fast (initial true) in
  let s1 := run [Fetched None; Written None; Progress (1 # 2) 1] c in
  let s2 := run [CancelInvoked; Progress (3 # 4) 2; Executed (Some "out") None;
                 Deleted true; Deleted true] s1 in
  let t1 := run [Fetched None; Written None; Executed (Some "out") None] c in
  let t2 := run [CancelInvoked; Progress (3 # 4) 2; ReadDone None;
                 Deleted true; Deleted true] t1 in
  (before_command_returns (pc (snd s1)) = true
   /\ pc (snd s2) = Returned Cancelled None
   /\ delivered (fst s2) = delivered (fst s1)
   /\ exists cs, calls (fst s2) =
                 cs ++ [DeleteFile "input.mov"; DeleteFile "output.mp4"])
  /\ (after_check (pc (snd t1)) = true
      /\ pc (snd t2) = Returned Completed (Some (mkBlob "out" "video/mp4"))
      /\ delivered (fst t2) = [(0, mkProgress 100 None)]).
Proof.
  intros c s1 s2 t1 t2. split.
  - destruct (cancel_before_command_returns Extension.lower 0 clip fast
                (initial true) [Fetched None; Written None; Progress (1 # 2) 1]
                [Progress (3 # 4) 2; Executed (Some "out") None;
                 Deleted true; Deleted true])
      as (Ha & _).
    destruct (Ha eq_refl) as (Hd & _ & _ & Hx).
    destruct (Hx Cancelled None eq_refl eq_refl) as (_ & cs & Hcs).
    split; [reflexivity|]. split; [reflexivity|]. split; [exact Hd|].
    exists cs. exact Hcs.
  - destruct (cancel_before_command_returns Extension.lower 0 clip fast
                (initial true)
                [Fetched None; Written None; Executed (Some "out") None]
                [Progress (3 # 4) 2; ReadDone None; Deleted true; Deleted true])
      as (_ & Hb).
    destruct (Hb eq_refl) as (Hs & _ & _ & _ & Hd).
    split; [reflexivity|]. split; [reflexivity|]. exact Hd.
Defined.

(** C4: the engine command throws after the input entry was written.  The
    run leaves by the [catch] block: no [deleteFile] is ever issued and the
    input entry stays in the workspace. *)
Theorem failure_skips_cleanup :
  let s := run [Fetched None; Written None; Executed None (Some boom)]
             (convert Extension.lower 0 clip fast (initial true)) in
  pc (snd s) = Returned Failed None
  /\ error (fst s) = Some "boom"
  /\ existsb is_delete (calls (fst s)) = false
  /\ files (fst s) !! "input.mov" = Some "bytes".
Proof. vm_compute. repeat split. Qed.

(** Which returns of [convert] clean up: a run that returned through the
    [catch] block has issued no [deleteFile] at all; a run that returned
    through the cancellation branch or with the Blob has issued, as its last
    two engine calls, [deleteFile] for its input entry and then for the
    output entry; a call that found the engine not ready has issued no
    engine call. *)
Lemma cleanup_by_exit (lc : string -> string) (j : nat) (f : File) (m : Mode)
    (w : World) (evs : list Event) :
  let s := run evs (convert lc j f m w) in
  exists cs, calls (fst s) = calls w ++ cs /\
    forall x res, pc (snd s) = Returned x res ->
      match x with
      | Failed => existsb is_delete cs = false
      | Cancelled | Completed =>
          exists cs0, cs = cs0 ++ [DeleteFile (inputName (snd s));
                                   DeleteFile outputName]
      | NotReady => cs = []
      end.
Proof.
  intros s. destruct (convert_run_shape lc j f m w evs) as (cs & Hc & Hs).
  fold s in Hc, Hs. exists cs. split; [exact Hc|].
  intros x res Hx. unfold shape in Hs. rewrite Hx in Hs. destruct x.
  - now destruct Hs.
  - destruct Hs as [_ ->]. now eexists [_; _; _].
  - destruct Hs as [_ ->]. now eexists [_; _; _; _].
  - destruct Hs as [_ [->|[->|[->| ->]]]]; reflexivity.
Qed.

(** A listener outlives the run that registered it: the next run's progress
    reaches the callback of the finished job. *)
Lemma listener_outlives_run :
  let done := run [Fetched None; Written None; Executed (Some "out") None;
                   ReadDone None; Deleted true; Deleted true]
                (convert Extension.lower 0 clip fast (initial true)) in
  let next := run [Progress (1 # 4) 1]
                (convert Extension.lower 1 clip fast (fst done)) in
  for_job 0 (delivered (fst next)) = [100%Q; clamp (1 # 4)].
Proof. reflexivity. Qed.


(** ** The names of the workspace entries *)

(** The engine call [c] names no workspace entry but [input] and
    ["output.mp4"]. *)
Definition names_ok (input : string) (m : Mode) (c : EngineCall) : Prop :=
  match c with
  | OnProgress => True
  | WriteFile n _ => n = input
  | Exec a => a = args m input "output.mp4"
  | ReadFile n => n = "output.mp4"
  | DeleteFile n => n = input \/ n = "output.mp4"
  end.

Lemma shape_names_ok (r : Run) (cs : list EngineCall) :
  shape r cs -> Forall (names_ok (inputName r) (mode r)) cs.
Proof.
  unfold shape. destruct (pc r) as [|d| | |k es|[] res]; intros H;
    repeat match goal with
           | H : _ /\ _ |- _ => destruct H
           | H : _ \/ _ |- _ => destruct H
           | k : After |- _ => destruct k
           end; subst; cbn;
    repeat (apply List.Forall_cons;
            [cbn; first [reflexivity | now left | now right | exact I]|]);
    apply List.Forall_nil.
Qed.

(** C10: [getExtension] returns the lower-cased final dot-suffix of the file
    name (a dot followed by one or more characters that are not dots, at the
    end of the name), or [".mp4"] when the name has none; the input entry of
    a run is ["input"] followed by that extension and the output entry is
    ["output.mp4"], whatever the mode: every engine call of the run names
    these two entries only, and in either mode the command takes the input
    entry after [-i] and the output entry last. *)
Theorem workspace_names_deterministic (lc : string -> string) (j : nat)
    (f : File) (m : Mode) (w : World) (evs : list Event) :
  let ext := match Extension.final_dot_suffix (name f) with
             | Some x => lc x
             | None => ".mp4"
             end in
  let s := run evs (convert lc j f m w) in
  Extension.getExtension lc (name f) = ext
  /\ inputName (snd s) = ("input" ++ ext)%string
  /\ outputName = "output.mp4"
  /\ (exists cs, calls (fst s) = calls w ++ cs
                 /\ Forall (names_ok ("input" ++ ext)%string m) cs)
  /\ (forall m' i o, List.nth 0 (args m' i o) "" = "-i"
                     /\ List.nth 1 (args m' i o) "" = i
                     /\ List.last (args m' i o) "" = o).
Proof.
  intros ext s.
  assert (Hext : Extension.getExtension lc (name f) = ext).
  { unfold Extension.getExtension. now rewrite ExtensionTheory.regex_match_final. }
  destruct (run_same_run evs (convert lc j f m w)) as (_ & _ & Hm & Hin).
  destruct (convert_locals lc j f m w) as (_ & _ & Hm' & Hin').
  fold s in Hm, Hin. rewrite Hm' in Hm. rewrite Hin' in Hin.
  unfold Extension.inputName in Hin. rewrite Hext in Hin.
  split; [exact Hext|]. split; [exact Hin|]. split; [reflexivity|]. split.
  - destruct (convert_run_shape lc j f m w evs) as (cs & Hc & Hs).
    fold s in Hc, Hs. exists cs. split; [exact Hc|].
    apply shape_names_ok in Hs. now rewrite Hin, Hm in Hs.
  - intros m' i o. destruct m'; repeat split.
Qed.


(* ===================================================================== *)
(** ** Further properties of the conversion runner *)
(* ===================================================================== *)

Lemma run_app (a b : list Event) : forall s, run (a ++ b) s = run b (run a s).
Proof.
  induction a as [|e a IH]; intros s; [reflexivity|].
  cbn [app run]. destruct (returned s) eqn:E; [|apply IH].
  symmetry. now apply run_returned.
Qed.

(** *** The listeners of a hook only accumulate *)

Lemma run_listeners evs : forall s,
  listeners (fst (run evs s)) = listeners (fst s).
Proof.
  induction evs as [|e evs IH]; intros s; cbn [run]; [reflexivity|].
  destruct (returned s); [reflexivity|]. now rewrite IH, step_listeners.
Qed.

(** A call of [convert] on a ready engine registers one more progress
    listener and nothing ever removes one: after the run, whatever happened
    during it, the engine holds the earlier listeners followed by the new
    one; and a progress event, unless the abort flag is set, calls the
    callback of every registered listener, in registration order, with the
    same clamped value and the engine's time. *)
Theorem listeners_accumulate (lc : string -> string) (j : nat) (f : File)
    (m : Mode) (w : World) (evs : list Event) :
  ready w = true ->
  let s := run evs (convert lc j f m w) in
  listeners (fst s) = listeners w ++ [j]
  /\ (forall q t, abortRef (fst s) = false ->
        delivered (fst (step s (Progress q t))) =
        delivered (fst s)
          ++ map (fun i => (i, mkProgress (clamp q) (Some t)))
               (listeners w ++ [j])).
Proof.
  intros Hr s.
  assert (Hl : listeners (fst s) = listeners w ++ [j]).
  { subst s. rewrite run_listeners. unfold convert. now rewrite Hr. }
  split; [exact Hl|]. intros q t Hab. destruct s as [w' r]. cbn [step fst] in *.
  now rewrite emitProgress_spec, Hab, Hl.
Qed.

Lemma listeners_accumulate_witness :
  ready (initial true) = true
  /\ listeners
       (fst (run [Fetched None]
               (convert Extension.lower 1 clip fast
                  (fst (run [Fetched (Some boom)]
                          (convert Extension.lower 0 clip fast (initial true)))))))
     = [0; 1].
Proof.
  split; [reflexivity|].
  destruct (listeners_accumulate Extension.lower 1 clip fast
              (fst (run [Fetched (Some boom)]
                      (convert Extension.lower 0 clip fast (initial true))))
              [Fetched None] eq_refl) as (H & _).
  exact H.
Defined.

(** *** The error message *)

Definition error_ok (e0 : option string) (s : World * Run) : Prop :=
  match pc (snd s) with
  | Returned Failed _ => exists e, error (fst s) = Some (conversionMessage e)
  | _ => error (fst s) = e0
  end.

Lemma step_error_ok e0 s e : error_ok e0 s -> error_ok e0 (step s e).
Proof.
  destruct s as [w r]. unfold error_ok. cbn [fst snd]. intros H.
  destruct e as [x|x|out x|x|ok|q t|].
  6: { cbn [step fst snd]. rewrite emitProgress_spec.
       destruct (abortRef w); exact H. }
  6: { exact H. }
  all: step_cases; try congruence;
    try match goal with Hp : pc ?r0 = _ |- _ => rewrite Hp in * end;
    eauto.
Qed.

Lemma run_error_ok e0 evs : forall s, error_ok e0 s -> error_ok e0 (run evs s).
Proof.
  induction evs as [|e evs IH]; intros s H; cbn [run]; [exact H|].
  destruct (returned s); [exact H|]. apply IH. now apply step_error_ok.
Qed.

(** What the operation a run is waiting for throws when event [e] settles
    it: the error the environment has it throw, or, for a [readFile] that
    finds no output entry, the engine's own rejection. *)
Definition thrown (s : World * Run) (e : Event) : option JsErr :=
  match pc (snd s), e with
  | AwaitFetch, Fetched x => x
  | AwaitWrite _, Written x => x
  | AwaitExec, Executed _ x => x
  | AwaitRead, ReadDone (Some x) => Some x
  | AwaitRead, ReadDone None =>
      match files (fst s) !! outputName with
      | None => Some missingEntry
      | Some _ => None
      end
  | _, _ => None
  end.

Lemma step_thrown s e x :
  thrown s e = Some x ->
  returned s = false
  /\ pc (snd (step s e)) = Returned Failed None
  /\ error (fst (step s e)) = Some (conversionMessage x).
Proof.
  destruct s as [w r]. unfold thrown, returned. cbn [fst snd]. intros H.
  destruct e as [y|y|out y|y|ok|q t|]; destruct (pc r) eqn:Hp;
    try discriminate; cbn [step]; rewrite Hp.
  - subst y. repeat split.
  - subst y. repeat split.
  - subst y. destruct out; repeat split.
  - destruct y as [y|].
    + injection H as ->. repeat split.
    + destruct (files w !! outputName); [discriminate|].
      injection H as <-. repeat split.
Qed.

Lemma step_failed s e res :
  returned s = false -> pc (snd (step s e)) = Returned Failed res ->
  exists x, thrown s e = Some x.
Proof.
  destruct s as [w r]. unfold thrown, returned. cbn [fst snd]. intros Hret H.
  destruct e as [y|y|out y|y|ok|q t|].
  6: { cbn [step snd] in H. rewrite H in Hret. discriminate. }
  6: { cbn [step snd] in H. rewrite H in Hret. discriminate. }
  all: cbn [step] in H; repeat case_match; subst;
    unfold cleanup, convertCatch in H; repeat case_match;
    simplify_eq; cbn in *; try discriminate; try congruence; eauto.
Qed.

Lemma run_failed evs : forall s res,
  returned s = false -> pc (snd (run evs s)) = Returned Failed res ->
  exists pre e post x,
    evs = pre ++ e :: post /\ thrown (run pre s) e = Some x.
Proof.
  induction evs as [|e evs IH]; intros s res Hret H; cbn [run] in H.
  - unfold returned in Hret. rewrite H in Hret. discriminate.
  - rewrite Hret in H. destruct (returned (step s e)) eqn:Hret'.
    + rewrite run_returned in H by exact Hret'.
      destruct (step_failed s e res Hret H) as (x & Hx).
      exists [], e, evs, x. split; [reflexivity|exact Hx].
    + destruct (IH _ _ Hret' H) as (pre & e' & post & x & -> & Hx).
      exists (e :: pre), e', post, x. split; [reflexivity|].
      cbn [run]. now rewrite Hret.
Qed.

Lemma run_thrown pre e post s x :
  thrown (run pre s) e = Some x ->
  let s' := run (pre ++ e :: post) s in
  pc (snd s') = Returned Failed None
  /\ error (fst s') = Some (conversionMessage x).
Proof.
  intros H s'. destruct (step_thrown _ _ _ H) as (Hret & Hpc & Herr).
  assert (E : s' = step (run pre s) e).
  { subst s'. rewrite run_app. cbn [run]. rewrite Hret.
    apply run_returned. unfold returned. now rewrite Hpc. }
  rewrite E. split; assumption.
Qed.

(** [convert] fails exactly when an operation it awaits throws, and the
    hook's error is then the message of what was thrown.  A run returns by
    the [catch] block only if, at some event, the operation it was waiting
    for threw (for [readFile], also when the output entry does not exist);
    whenever that happens the run returns [null] by the [catch] block and
    the error is set to the [message] of the thrown [Error], or to
    ['Conversion failed'] when the thrown value is not an [Error].  On no
    other path is the error touched: a run that is suspended, or returned
    the Blob, or was cancelled, or found the engine not ready, has left it
    as it was. *)
Theorem error_only_on_failure (lc : string -> string) (j : nat) (f : File)
    (m : Mode) (w : World) (evs : list Event) :
  let s0 := convert lc j f m w in
  let s := run evs s0 in
  (forall res, pc (snd s) = Returned Failed res ->
     res = None
     /\ exists pre e post x,
          evs = pre ++ e :: post /\ thrown (run pre s0) e = Some x)
  /\ (forall pre e post x,
        evs = pre ++ e :: post -> thrown (run pre s0) e = Some x ->
        pc (snd s) = Returned Failed None
        /\ error (fst s) = Some (conversionMessage x)
        /\ (forall n msg c, x = ErrorObj n msg c -> error (fst s) = Some msg)
        /\ (forall t, x = Thrown t ->
              error (fst s) = Some "Conversion failed"))
  /\ ((forall res, pc (snd s) <> Returned Failed res) ->
      error (fst s) = error w).
Proof.
  intros s0 s. split; [|split].
  - intros res Hres. split.
    + destruct (convert_run_shape lc j f m w evs) as (cs & _ & Hs).
      fold s0 in Hs. fold s in Hs. unfold shape in Hs. rewrite Hres in Hs. tauto.
    + apply (run_failed evs s0 res); [|exact Hres].
      destruct (returned s0) eqn:E; [|reflexivity].
      subst s. rewrite run_returned in Hres by exact E.
      subst s0. unfold convert in *. destruct (ready w); discriminate.
  - intros pre e post x -> Hx.
    destruct (run_thrown pre e post s0 x Hx) as (Hpc & Herr).
    fold s in Hpc, Herr. split; [exact Hpc|]. split; [exact Herr|].
    split; [intros n msg c ->|intros t ->]; exact Herr.
  - intros Hnf.
    assert (H : error_ok (error w) s).
    { apply run_error_ok. subst s0. unfold error_ok, convert.
      now destruct (ready w). }
    unfold error_ok in H. destruct (pc (snd s)) as [| | | | |[] res]; auto.
    destruct (Hnf res eq_refl).
Qed.

Lemma error_only_on_failure_witness :
  let c := convert Extension.lower 0 clip reencode (initial true) in
  let s := run [CancelInvoked; Fetched None; Written None;
                Executed None None; Deleted false; Deleted false] c in
  let t := run [Fetched None; Written None; Executed None None;
                ReadDone None] c in
  let u := run [Fetched None; Written (Some boom); Written None] c in
  (pc (snd s) = Returned Cancelled None /\ error (fst s) = None)
  /\ (pc (snd t) = Returned Failed None
      /\ error (fst t) = Some "Conversion failed")
  /\ (pc (snd u) = Returned Failed None /\ error (fst u) = Some "boom").
Proof.
  intros c s t u. split; [|split].
  - split; [reflexivity|].
    destruct (error_only_on_failure Extension.lower 0 clip reencode
                (initial true)
                [CancelInvoked; Fetched None; Written None;
                 Executed None None; Deleted false; Deleted false])
      as (_ & _ & H).
    apply H. intros res. discriminate.
  - destruct (error_only_on_failure Extension.lower 0 clip reencode
                (initial true)
                [Fetched None; Written None; Executed None None; ReadDone None])
      as (_ & H & _).
    destruct (H [Fetched None; Written None; Executed None None]
                (ReadDone None) [] missingEntry eq_refl eq_refl)
      as (Hpc & _ & _ & Ht).
    split; [exact Hpc|]. exact (Ht _ eq_refl).
  - destruct (error_only_on_failure Extension.lower 0 clip reencode
                (initial true)
                [Fetched None; Written (Some boom); Written None])
      as (_ & H & _).
    destruct (H [Fetched None] (Written (Some boom)) [Written None] boom
                eq_refl eq_refl)
      as (Hpc & _ & Hm & _).
    split; [exact Hpc|]. exact (Hm _ _ _ eq_refl).
Defined.


(** *** The workspace *)

(** The entries [cleanup] still has to delete are the run's own two. *)
Definition own_entries (r : Run) : Prop :=
  match pc r with
  | AwaitDelete _ es =>
      List.Forall (fun n => n = inputName r \/ n = outputName) es
  | _ => True
  end.

Lemma step_own_entries s e : own_entries (snd s) -> own_entries (snd (step s e)).
Proof.
  destruct s as [w r]. unfold own_entries. cbn [snd]. intros H.
  destruct e as [x|x|out x|x|ok|q t|]; try exact H.
  all: step_cases; try congruence;
    try match goal with Hp : pc ?r0 = _ |- _ => rewrite Hp in * end;
    auto; try (repeat constructor; auto; fail).
  all: try (apply List.Forall_inv_tail in H; apply List.Forall_inv_tail in H;
            assumption).
  all: try (apply List.Forall_inv_tail in H; assumption).
  all: simplify_eq; try (repeat constructor; auto; fail).
  all: try (apply List.Forall_inv_tail in H; assumption).
Qed.

Lemma step_other_entries s e n :
  own_entries (snd s) -> n <> inputName (snd s) -> n <> outputName ->
  files (fst (step s e)) !! n = files (fst s) !! n.
Proof.
  destruct s as [w r]. unfold own_entries. cbn [fst snd]. intros H Hi Ho.
  destruct e as [x|x|out x|x|ok|q t|].
  6: { cbn [step fst]. rewrite emitProgress_spec. now destruct (abortRef w). }
  6: { reflexivity. }
  all: step_cases; try reflexivity; try congruence;
    try match goal with Hp : pc ?r0 = _ |- _ => rewrite Hp in * end;
    rewrite ?lookup_insert_ne by congruence; try reflexivity.
  all: apply List.Forall_inv in H; rewrite lookup_delete_ne; [reflexivity|];
    destruct H; congruence.
Qed.

(** A run touches no workspace entry but its own two: whatever the events,
    every entry with another name holds after the run what it held
    before. *)
Theorem other_entries_untouched (lc : string -> string) (j : nat) (f : File)
    (m : Mode) (w : World) (evs : list Event) (n : string) :
  n <> ("input" ++ Extension.getExtension lc (name f))%string ->
  n <> "output.mp4" ->
  files (fst (run evs (convert lc j f m w))) !! n = files w !! n.
Proof.
  intros Hi Ho.
  assert (H0 : files (fst (convert lc j f m w)) !! n = files w !! n).
  { unfold convert. now destruct (ready w). }
  rewrite <- H0.
  assert (Hown : own_entries (snd (convert lc j f m w))).
  { unfold convert, own_entries. now destruct (ready w). }
  assert (Hin : n <> inputName (snd (convert lc j f m w))).
  { destruct (convert_locals lc j f m w) as (_ & _ & _ & ->). exact Hi. }
  revert Hown Hin. generalize (convert lc j f m w). clear H0.
  induction evs as [|e evs IH]; intros s Hown Hin; cbn [run]; [reflexivity|].
  destruct (returned s); [reflexivity|].
  rewrite IH.
  - now apply step_other_entries.
  - now apply step_own_entries.
  - destruct (step_same_run s e) as (_ & _ & _ & ->). exact Hin.
Qed.

Lemma other_entries_untouched_witness :
  let w := with_files {[ "subtitles.srt" := "text" ]} (initial true) in
  files (fst (run [Fetched None; Written None; Executed (Some "out") None;
                   ReadDone None; Deleted true; Deleted true]
                (convert Extension.lower 0 clip fast w))) !! "subtitles.srt"
  = Some "text".
Proof.
  intros w.
  rewrite (other_entries_untouched Extension.lower 0 clip fast w
             [Fetched None; Written None; Executed (Some "out") None;
              ReadDone None; Deleted true; Deleted true] "subtitles.srt");
    [reflexivity|discriminate|discriminate].
Defined.


(** *** A conversion that meets no error *)

Definition is_progress (e : Event) : bool :=
  match e with Progress _ _ => true | _ => false end.

(** The events other than the engine's progress reports. *)
Definition control (evs : list Event) : list Event :=
  List.filter (fun e => negb (is_progress e)) evs.

(** A state without its log of delivered values. *)
Definition forget (s : World * Run) : World * Run :=
  (with_delivered [] (fst s), snd s).

Lemma forget_step s e :
  forget (step s e)
  = if is_progress e then forget s else forget (step (forget s) e).
Proof.
  destruct s as [w r]. destruct w as [rd ab er fs ls cs ds].
  destruct e as [x|x|out x|x|ok|q t|]; cbn [is_progress].
  6: { cbn [step]. rewrite emitProgress_spec. cbn [abortRef].
       destruct ab; reflexivity. }
  6: { reflexivity. }
  all: unfold forget; cbn [fst snd with_delivered ready abortRef error files
                           listeners calls delivered];
    step_cases; simplify_eq; try reflexivity; congruence.
Qed.

Lemma forget_forget s : forget (forget s) = forget s.
Proof. reflexivity. Qed.

Lemma forget_returned s s' : forget s = forget s' -> returned s = returned s'.
Proof. intros H. apply (f_equal snd) in H. unfold returned. cbn in H. now rewrite H. Qed.

Lemma forget_step_congr s s' e :
  forget s = forget s' -> forget (step s e) = forget (step s' e).
Proof.
  intros H. rewrite (forget_step s e), (forget_step s' e), H. reflexivity.
Qed.

Lemma forget_run_congr evs : forall s s',
  forget s = forget s' -> forget (run evs s) = forget (run evs s').
Proof.
  induction evs as [|e evs IH]; intros s s' H; cbn [run]; [exact H|].
  rewrite (forget_returned s s' H). destruct (returned s'); [exact H|].
  apply IH. now apply forget_step_congr.
Qed.

Lemma forget_run evs : forall s,
  forget (run evs s) = forget (run (control evs) (forget s)).
Proof.
  induction evs as [|e evs IH]; intros s; cbn [run control List.filter].
  - reflexivity.
  - assert (Hret : returned (forget s) = returned s) by reflexivity.
    destruct (returned s) eqn:E.
    + now rewrite run_returned by (now rewrite Hret).
    + pose proof (forget_step s e) as Hstep.
      destruct (is_progress e); cbn [negb].
      * rewrite IH, Hstep. reflexivity.
      * cbn [run]. rewrite Hret, IH, Hstep.
        apply forget_run_congr, forget_forget.
Qed.

Lemma input_is_not_output lc n : Extension.inputName lc n <> outputName.
Proof. unfold Extension.inputName. cbn. discriminate. Qed.

Definition after_delete (ok : bool) (n : string) (fs : gmap string string)
    : gmap string string :=
  if ok then delete n fs else fs.

Lemma quiet_run_completes er fs ls cs j f m input d ok1 ok2 :
  let s := run [Fetched None; Written None; Executed (Some d) None;
                ReadDone None; Deleted ok1; Deleted ok2]
             (mkWorld true false er fs ls cs [], mkRun j f m input AwaitFetch) in
  pc (snd s) = Returned Completed (Some (mkBlob d "video/mp4"))
  /\ files (fst s) =
     after_delete ok2 outputName
       (after_delete ok1 input
          (<[outputName := d]> (<[input := content f]> fs)))
  /\ error (fst s) = er.
Proof.
  cbn [run returned step pc snd fst with_abortRef with_listeners call
       with_calls with_delivered with_pc with_files cleanup cancel onProgress
       ready abortRef error files listeners calls delivered
       job file mode inputName].
  rewrite lookup_insert_eq.
  destruct ok1, ok2;
    cbn [run returned step pc snd fst with_abortRef with_listeners call
         with_calls with_delivered with_pc with_files cleanup cancel onProgress
         ready abortRef error files listeners calls delivered
         job file mode inputName after_delete];
    repeat split.
Qed.

(** The engine and the host doing their part, and [cancel()] not being
    called during the run, [convert] returns the bytes the engine left in
    the output entry, as a Blob of type video/mp4, whatever progress the
    engine reports in between, whether or not the two deletions succeed,
    and even if the abort flag was still set from before the call.  An entry
    whose deletion succeeded is gone; one whose deletion failed is left with
    its content; the hook's error is unchanged. *)
Theorem conversion_returns_engine_output (lc : string -> string) (j : nat)
    (f : File) (m : Mode) (w : World) (evs : list Event) (d : string)
    (ok1 ok2 : bool) :
  ready w = true ->
  control evs = [Fetched None; Written None; Executed (Some d) None;
                 ReadDone None; Deleted ok1; Deleted ok2] ->
  let s := run evs (convert lc j f m w) in
  pc (snd s) = Returned Completed (Some (mkBlob d "video/mp4"))
  /\ files (fst s) !! Extension.inputName lc (name f)
     = (if ok1 then None else Some (content f))
  /\ files (fst s) !! outputName = (if ok2 then None else Some d)
  /\ error (fst s) = error w.
Proof.
  intros Hr Hc s.
  pose proof (forget_run evs (convert lc j f m w)) as H. fold s in H.
  rewrite Hc in H.
  pose proof (input_is_not_output lc (name f)) as Hne.
  destruct w as [rd ab er fs ls cs ds]. cbn [ready] in Hr. subst rd.
  destruct (quiet_run_completes er fs (ls ++ [j]) (cs ++ [OnProgress]) j f m
              (Extension.inputName lc (name f)) d ok1 ok2) as (Q1 & Q2 & Q3).
  change (forget (convert lc j f m (mkWorld true ab er fs ls cs ds)))
    with (mkWorld true false er fs (ls ++ [j]) (cs ++ [OnProgress]) [],
          mkRun j f m (Extension.inputName lc (name f)) AwaitFetch) in H.
  assert (Hpc : pc (snd s) = pc (snd (forget s))) by reflexivity.
  assert (Hf : files (fst s) = files (fst (forget s))) by now destruct s as [[] ?].
  assert (He : error (fst s) = error (fst (forget s))) by now destruct s as [[] ?].
  rewrite Hpc, Hf, He, H. clear H Hpc Hf He.
  unfold forget at 1 2 3 4. cbn [fst snd with_delivered files error].
  rewrite Q1, Q2, Q3. split; [reflexivity|]. unfold after_delete.
  assert (Hne' : outputName <> Extension.inputName lc (name f)) by auto.
  destruct ok1, ok2;
    rewrite ?lookup_delete_eq, ?(lookup_delete_ne _ _ _ Hne),
      ?(lookup_delete_ne _ _ _ Hne'), ?lookup_delete_eq, ?lookup_insert_eq,
      ?(lookup_insert_ne _ _ _ _ Hne'), ?(lookup_insert_ne _ _ _ _ Hne),
      ?lookup_insert_eq; repeat split.
Qed.

Lemma conversion_returns_engine_output_witness :
  let evs := [Progress (1 # 8) 1; Fetched None; Written None;
              Progress (1 # 2) 2; Executed (Some "mp4") None;
              ReadDone None; Deleted true; Progress 1 3; Deleted false] in
  let s := run evs (convert Extension.lower 3 clip fast
                      (cancel (initial true))) in
  ready (cancel (initial true)) = true
  /\ pc (snd s) = Returned Completed (Some (mkBlob "mp4" "video/mp4"))
  /\ files (fst s) !! "input.mov" = None
  /\ files (fst s) !! "output.mp4" = Some "mp4".
Proof.
  intros evs s. split; [reflexivity|].
  destruct (conversion_returns_engine_output Extension.lower 3 clip fast
              (cancel (initial true)) evs "mp4" true false eq_refl eq_refl)
    as (H1 & H2 & H3 & _).
  split; [exact H1|]. split; [exact H2|exact H3].
Defined.

End ConverterTheory.

(* ===================================================================== *)
(** * Properties of the engine loader *)
(* ===================================================================== *)

Module LoaderTheory.
Import Js Loader.

(** ** The invariant of the singleton *)

Record Inv (w : World) : Prop := mkInv {
  (* at most one doLoad is suspended; its promise is pending and stored *)
  inv_tasks :
    tasks w = [] \/
    exists t, tasks w = [t] /\ loadPromise w = Some (t_promise t)
              /\ promises w !! t_promise t = None
              /\ t_promise t < loadsStarted w
              /\ ffmpegInstance w <> None;
  (* a pending promise belongs to a suspended doLoad *)
  inv_pending :
    forall p, in_flight w p -> exists t, In t (tasks w) /\ t_promise t = p;
  inv_settled :
    forall p b, promises w !! p = Some b -> p < loadsStarted w;
  inv_stored :
    forall p, loadPromise w = Some p -> p < loadsStarted w;
  inv_ready :
    isReady w = true ->
    ffmpegInstance w <> None /\ tasks w = []
    /\ exists p, loadPromise w = Some p /\ promises w !! p = Some true;
  inv_count :
    loadsStarted w =
    loadsFailed w + length (tasks w) + (if isReady w then 1 else 0);
  inv_returned :
    forall r, In r (returned w) ->
      match r_promise r with
      | Some p => promises w !! p = Some (r_value r)
      | None => r_value r = true
      end;
  inv_waiters :
    forall x, In x (waiters w) -> w_call x < calls w
}.

(** Projections of updated worlds, computed by need. *)
Ltac wsimpl :=
  cbn [loadPromise ffmpegInstance isReady promises hooks tasks waiters returned
       effects loadsStarted loadsFailed calls
       with_loadPromise with_ffmpegInstance with_isReady with_promises
       with_hooks with_tasks with_waiters with_returned with_effects
       with_loadsStarted with_loadsFailed with_calls
       setState setError setDebugInfo settle removeTask emit loadCatch] in *.

(** The invariant does not read the components' state nor the effects: a
    world inherits it from any world with the same other fields. *)
Lemma inv_fields w w' :
  loadPromise w' = loadPromise w -> ffmpegInstance w' = ffmpegInstance w ->
  isReady w' = isReady w -> promises w' = promises w -> tasks w' = tasks w ->
  waiters w' = waiters w -> returned w' = returned w ->
  loadsStarted w' = loadsStarted w -> loadsFailed w' = loadsFailed w ->
  calls w' = calls w ->
  Inv w -> Inv w'.
Proof.
  intros E1 E2 E3 E4 E5 E6 E7 E8 E9 E10 [HT HP HS HL HR HC HRet HW].
  constructor; unfold in_flight in *;
    rewrite ?E1, ?E2, ?E3, ?E4, ?E5, ?E6, ?E7, ?E8, ?E9, ?E10; auto.
Qed.

(** [w'] has the fields of an explicit world. *)
Ltac by_fields :=
  eapply inv_fields;
  [wsimpl; reflexivity .. |].

Lemma inv_with_hooks v w : Inv w -> Inv (with_hooks v w).
Proof. intros H. apply inv_fields with (w := w); [reflexivity ..|exact H]. Qed.

Lemma inv_setState h s w : Inv w -> Inv (setState h s w).
Proof. apply inv_with_hooks. Qed.

Lemma init_inv : Inv init.
Proof.
  constructor; cbn; auto; try discriminate; try contradiction.
  intros p [H _]. cbn in H. lia.
Qed.

Lemma in_flight_task w p :
  Inv w -> in_flight w p ->
  exists t, tasks w = [t] /\ t_promise t = p /\ loadPromise w = Some p
            /\ isReady w = false /\ ffmpegInstance w <> None.
Proof.
  intros [HT HP HS HL HR HC HRet HW] Hp.
  destruct (HP p Hp) as (t & Ht & <-).
  destruct HT as [HT|(t' & HT & Hlp & _ & _ & Hinst)].
  - rewrite HT in Ht. destruct Ht.
  - rewrite HT in Ht. destruct Ht as [->|[]]. exists t.
    repeat split; auto. destruct (isReady w) eqn:E; [|reflexivity].
    destruct (HR eq_refl) as (_ & Hnil & _). congruence.
Qed.

Lemma ensureLoaded_inv h host ctor w : Inv w -> Inv (ensureLoaded h host ctor w).
Proof.
  intros Hinv. pose proof Hinv as [HT HP HS HL HR HC HRet HW].
  unfold ensureLoaded. wsimpl.
  destruct (isReady w && bool_decide (ffmpegInstance w <> None)) eqn:Hfast.
  - (* already loaded *)
    apply inv_fields with
      (w := with_returned (returned w ++ [mkReturn (calls w) None true])
              (with_calls (S (calls w)) w)); [reflexivity ..|].
    constructor; wsimpl; auto.
    + intros r Hr. apply in_app_or in Hr as [Hr|[<-|[]]]; [now apply HRet|].
      reflexivity.
    + intros x Hx. specialize (HW _ Hx). lia.
  - destruct (loadPromise w) as [p|] eqn:Hlp.
    + (* already loading *)
      apply inv_fields with
        (w := with_waiters (waiters w ++ [mkWaiter (calls w) h p true])
                (with_calls (S (calls w)) w)); [reflexivity ..|].
      constructor; wsimpl; rewrite ?Hlp; auto.
      intros x Hx. apply in_app_or in Hx as [Hx|[<-|[]]].
      * specialize (HW _ Hx). lia.
      * cbn. lia.
    + (* start a new load *)
      assert (Htasks : tasks w = []).
      { destruct HT as [HT|(t & _ & HT & _)]; [exact HT|discriminate]. }
      assert (Hnr : isReady w = false).
      { destruct (isReady w) eqn:E; [|reflexivity].
        destruct (HR eq_refl) as (_ & _ & p & Hp & _). discriminate. }
      assert (Hfresh : promises w !! loadsStarted w = None).
      { destruct (promises w !! loadsStarted w) eqn:E; [|reflexivity].
        apply HS in E. lia. }
      assert (Hwait : forall x,
                 In x (waiters w ++ [mkWaiter (calls w) h (loadsStarted w) false]) ->
                 w_call x < S (calls w)).
      { intros x Hx. apply in_app_or in Hx as [Hx|[<-|[]]]; cbn; [|lia].
        specialize (HW _ Hx). lia. }
      assert (Hold : forall p, p < S (loadsStarted w) -> p <> loadsStarted w ->
                 promises w !! p = None -> False).
      { intros p Hlt Hne Hnone. destruct (HP p) as (t & Ht & _); [split; [lia|auto]|].
        rewrite Htasks in Ht. destruct Ht. }
      assert (Hfailed : forall inst,
                 Inv (mkWorld (Some (loadsStarted w)) inst false
                        (<[loadsStarted w := false]> (promises w)) (hooks w)
                        [] (waiters w ++ [mkWaiter (calls w) h (loadsStarted w) false])
                        (returned w) (effects w) (S (loadsStarted w))
                        (S (loadsFailed w)) (S (calls w)))).
      { intros inst. constructor; wsimpl; auto.
        - intros p [Hlt Hnone]. wsimpl.
          destruct (decide (p = loadsStarted w)) as [->|Hne].
          + rewrite lookup_insert_eq in Hnone. discriminate.
          + rewrite lookup_insert_ne in Hnone by congruence.
            destruct (Hold p Hlt Hne Hnone).
        - intros p b' Hp. destruct (decide (p = loadsStarted w)) as [->|Hne]; [lia|].
          rewrite lookup_insert_ne in Hp by congruence. apply HS in Hp. lia.
        - intros p [= <-]. lia.
        - discriminate.
        - rewrite HC, Htasks, Hnr. cbn. lia.
        - intros r Hr. specialize (HRet r Hr). destruct (r_promise r) as [p|]; auto.
          rewrite lookup_insert_ne; auto. intros <-. congruence. }
      unfold doLoad. destruct (hasSharedArrayBuffer host); cbn [negb].
      * destruct ctor as [e|].
        -- eapply inv_fields; [..|apply (Hfailed None)];
             wsimpl; rewrite ?Htasks; cbn [List.filter]; reflexivity.
        -- apply inv_fields with
             (w := mkWorld (Some (loadsStarted w)) (Some (loadsStarted w)) false
                     (promises w) (hooks w)
                     [mkTask (loadsStarted w) h (origin host ++ "/ffmpeg")%string
                        AwaitCore]
                     (waiters w ++ [mkWaiter (calls w) h (loadsStarted w) false])
                     (returned w) (effects w) (S (loadsStarted w))
                     (loadsFailed w) (S (calls w)));
             [wsimpl; rewrite ?Htasks, ?Hnr; reflexivity ..|].
           constructor; wsimpl; auto.
           ++ right. eexists. split; [reflexivity|]. cbn.
              repeat split; auto.
           ++ intros p [Hlt Hnone]. wsimpl.
              destruct (decide (p = loadsStarted w)) as [->|Hne].
              ** eexists. split; [left; reflexivity|reflexivity].
              ** destruct (Hold p Hlt Hne Hnone).
           ++ intros p b Hp. apply HS in Hp. lia.
           ++ intros p [= <-]. lia.
           ++ discriminate.
           ++ rewrite HC, Htasks, Hnr. cbn. lia.
      * eapply inv_fields; [..|apply (Hfailed (ffmpegInstance w))];
          wsimpl; rewrite ?Htasks, ?Hnr; reflexivity.
Qed.

Lemma find_task w p t :
  Inv w -> List.find (fun t => Nat.eqb (t_promise t) p) (tasks w) = Some t ->
  tasks w = [t] /\ t_promise t = p /\ loadPromise w = Some p
  /\ promises w !! p = None /\ p < loadsStarted w /\ isReady w = false
  /\ ffmpegInstance w <> None.
Proof.
  intros Hinv Hfind. apply find_some in Hfind as [Hin Heq].
  apply Nat.eqb_eq in Heq. subst p.
  destruct (inv_tasks w Hinv) as [HT|(t' & HT & Hlp & Hnone & Hlt & Hinst)].
  - rewrite HT in Hin. destruct Hin.
  - rewrite HT in Hin. destruct Hin as [->|[]]. repeat split; auto.
    destruct (isReady w) eqn:E; [|reflexivity].
    destruct (inv_ready w Hinv E) as (_ & Hnil & _). congruence.
Qed.

Lemma resumeLoad_inv w p t host o :
  Inv w -> List.find (fun t => Nat.eqb (t_promise t) p) (tasks w) = Some t ->
  Inv (resumeLoad t host o w).
Proof.
  intros Hinv Hfind.
  destruct (find_task w p t Hinv Hfind)
    as (Htasks & Hp & Hlp & Hnone & Hlt & Hnr & Hinst).
  destruct Hinv as [HT HP HS HL HR HC HRet HW].
  assert (Hsettled : forall b q, q < loadsStarted w ->
            <[p := b]> (promises w) !! q = None -> False).
  { intros b q Hq Hnone'. destruct (decide (q = p)) as [->|Hne].
    - rewrite lookup_insert_eq in Hnone'. discriminate.
    - rewrite lookup_insert_ne in Hnone' by congruence.
      destruct (HP q) as (t' & Ht' & Hq'); [split; auto|].
      rewrite Htasks in Ht'. destruct Ht' as [<-|[]]. congruence. }
  assert (Hdom : forall b q b', <[p := b]> (promises w) !! q = Some b' ->
            q < loadsStarted w).
  { intros b q b' Hq. destruct (decide (q = p)) as [->|Hne]; [exact Hlt|].
    rewrite lookup_insert_ne in Hq by congruence. eauto. }
  assert (Hret : forall b r, In r (returned w) ->
            match r_promise r with
            | Some q => <[p := b]> (promises w) !! q = Some (r_value r)
            | None => r_value r = true
            end).
  { intros b r Hr. specialize (HRet r Hr). destruct (r_promise r) as [q|]; auto.
    rewrite lookup_insert_ne; auto. intros <-. congruence. }
  assert (Hfilter : List.filter (fun t' => negb (Nat.eqb (t_promise t') p)) [t] = []).
  { cbn. rewrite Hp, Nat.eqb_refl. reflexivity. }
  assert (Hmap : forall t1, t_promise t1 = p ->
            map (fun t' => if Nat.eqb (t_promise t') p then t1 else t') [t] = [t1]).
  { intros t1 _. cbn. now rewrite Hp, Nat.eqb_refl. }
  assert (Hstage : forall st,
            Inv (with_tasks [mkTask p (t_hook t) (t_base t) st] w)).
  { intros st. constructor; wsimpl; auto.
    - right. eexists. split; [reflexivity|]. cbn. auto.
    - intros q [Hq1 Hq2]. wsimpl. eexists. split; [now left|]. cbn.
      destruct (HP q) as (t' & Ht' & Hq'); [split; auto|].
      rewrite Htasks in Ht'. destruct Ht' as [<-|[]]. congruence.
    - intros E. congruence.
    - rewrite HC, Htasks. reflexivity. }
  unfold resumeLoad. rewrite Hp. destruct o as [v|e].
  - destruct (t_stage t).
    + eapply inv_fields; [..|apply (Hstage (AwaitWasm v))];
        wsimpl; rewrite ?Htasks, ?Hmap by reflexivity; reflexivity.
    + eapply inv_fields; [..|apply (Hstage AwaitLoad)];
        wsimpl; rewrite ?Htasks, ?Hmap by reflexivity; reflexivity.
    + apply inv_fields with
        (w := with_promises (<[p := true]> (promises w))
                (with_tasks [] (with_isReady true w)));
        [wsimpl; rewrite ?Htasks, ?Hfilter; reflexivity ..|].
      constructor; wsimpl; eauto.
      * intros q [Hq1 Hq2]. wsimpl. destruct (Hsettled true q Hq1 Hq2).
      * intros _. repeat split; auto. exists p. split; [exact Hlp|].
        apply lookup_insert_eq.
      * rewrite HC, Htasks, Hnr. cbn. lia.
      * apply Hret.
  - apply inv_fields with
      (w := mkWorld None None false (<[p := false]> (promises w)) (hooks w) []
              (waiters w) (returned w) (effects w) (loadsStarted w)
              (S (loadsFailed w)) (calls w));
      [wsimpl; rewrite ?Htasks, ?Hfilter; reflexivity ..|].
    constructor; wsimpl; eauto.
    + intros q [Hq1 Hq2]. wsimpl. destruct (Hsettled false q Hq1 Hq2).
    + discriminate.
    + discriminate.
    + rewrite HC, Htasks, Hnr. cbn. lia.
    + apply Hret.
Qed.

Lemma resumeCall_inv w x b :
  Inv w -> promises w !! w_promise x = Some b -> Inv (resumeCall x b w).
Proof.
  intros Hinv Hb. pose proof Hinv as [HT HP HS HL HR HC HRet HW].
  unfold resumeCall.
  apply inv_fields with
    (w := with_returned (returned w ++ [mkReturn (w_call x) (Some (w_promise x)) b])
            (with_waiters
               (List.filter (fun y => negb (Nat.eqb (w_call y) (w_call x)))
                  (waiters w)) w));
    [destruct (w_sync x); reflexivity ..|].
  constructor; wsimpl; auto.
  - intros r Hr. apply in_app_or in Hr as [Hr|[<-|[]]]; [now apply HRet|exact Hb].
  - intros y Hy. apply filter_In in Hy as [Hy _]. auto.
Qed.

Lemma syncEffect_inv w h : Inv w -> Inv (syncEffect h w).
Proof.
  intros H. unfold syncEffect.
  destruct (state (hook_of w h)); auto; destruct (isReady w); auto;
    now apply inv_setState.
Qed.

Lemma step_inv w e : Inv w -> Inv (step w e).
Proof.
  intros H. destruct e as [h host ctor|p host o|c|h]; cbn [step].
  - now apply ensureLoaded_inv.
  - destruct (List.find _ (tasks w)) as [t|] eqn:Hfind; [|exact H].
    now apply (resumeLoad_inv w p).
  - destruct (List.find _ (waiters w)) as [x|]; [|exact H].
    destruct (promises w !! w_promise x) as [b|] eqn:Hb; [|exact H].
    now apply resumeCall_inv.
  - now apply syncEffect_inv.
Qed.

Lemma run_inv evs : forall w, Inv w -> Inv (run evs w).
Proof.
  induction evs as [|e evs IH]; intros w H; [exact H|].
  apply IH. now apply step_inv.
Qed.

Lemma reachable_inv evs : Inv (run evs init).
Proof. apply run_inv, init_inv. Qed.


(** ** Single flight *)

Definition chrome : Host :=
  mkHost true "Chrome" true "2025-01-01T00:00:00.000Z" "https://app.example".

Definition legacy : Host :=
  mkHost false "Legacy" false "2025-01-01T00:00:00.000Z" "https://app.example".

Lemma call_while_in_flight w p h host ctor :
  Inv w -> in_flight w p ->
  let w' := step w (Call h host ctor) in
  loadsStarted w' = loadsStarted w
  /\ effects w' = effects w
  /\ tasks w' = tasks w
  /\ loadPromise w' = Some p
  /\ waiters w' = waiters w ++ [mkWaiter (calls w) h p true].
Proof.
  intros Hinv Hp.
  destruct (in_flight_task w p Hinv Hp) as (t & Ht & Htp & Hlp & Hnr & Hinst).
  cbn [step]. unfold ensureLoaded. wsimpl. rewrite Hnr, Hlp. cbn [andb].
  wsimpl. repeat split; auto.
Qed.

(** ** The callers that wait *)

(** The waiting calls are pairwise different calls, each on a promise that
    a call of [doLoad] returned. *)
Definition waiting (w : World) : Prop :=
  List.NoDup (map w_call (waiters w))
  /\ forall x, In x (waiters w) -> w_promise x < loadsStarted w.

Lemma doLoad_fields h host ctor w :
  waiters (fst (doLoad h host ctor w)) = waiters w
  /\ loadsStarted (fst (doLoad h host ctor w)) = S (loadsStarted w)
  /\ snd (doLoad h host ctor w) = loadsStarted w.
Proof.
  unfold doLoad. destruct (hasSharedArrayBuffer host); cbn [negb];
    [destruct ctor|]; repeat split.
Qed.

Lemma resumeLoad_fields t host o w :
  waiters (resumeLoad t host o w) = waiters w
  /\ loadsStarted (resumeLoad t host o w) = loadsStarted w.
Proof. unfold resumeLoad. destruct o; [destruct (t_stage t)|]; split; reflexivity. Qed.

Lemma nodup_map_filter {A B} (g : A -> B) (f : A -> bool) l :
  List.NoDup (map g l) -> List.NoDup (map g (List.filter f l)).
Proof.
  induction l as [|a l IH]; cbn [map List.filter]; [auto|].
  intros H. apply List.NoDup_cons_iff in H as [Ha Hl].
  destruct (f a); [|auto]. cbn [map]. apply List.NoDup_cons; [|auto].
  intros Hin. apply Ha. apply in_map_iff in Hin as (y & Hy & Hin).
  apply filter_In in Hin as [Hin _]. apply in_map_iff. eauto.
Qed.

Lemma nodup_snoc {A} (a : A) l :
  List.NoDup l -> ~ In a l -> List.NoDup (l ++ [a]).
Proof.
  induction l as [|b l IH]; cbn [app]; intros Hnd Ha.
  - constructor; [intros []|constructor].
  - apply List.NoDup_cons_iff in Hnd as [Hb Hnd]. apply List.NoDup_cons.
    + intros Hin. apply in_app_or in Hin as [Hin|[<-|[]]]; [auto|].
      apply Ha. now left.
    + apply IH; [exact Hnd|]. intros Hin. apply Ha. now right.
Qed.

Lemma waiting_step w e : Inv w -> waiting w -> waiting (step w e).
Proof.
  intros Hinv [Hnd Hlt]. destruct e as [h host ctor|p host o|c|h]; cbn [step].
  - unfold ensureLoaded. wsimpl.
    destruct (isReady w && bool_decide (ffmpegInstance w <> None)).
    + split; assumption.
    + assert (Hfresh : ~ In (calls w) (map w_call (waiters w))).
      { intros Hin. apply in_map_iff in Hin as (y & Hy & Hin).
        apply (inv_waiters w Hinv) in Hin. lia. }
      destruct (loadPromise w) as [p|] eqn:Hlp.
      * split; wsimpl.
        -- rewrite List.map_app. cbn [map w_call]. now apply nodup_snoc.
        -- intros x Hx. apply in_app_or in Hx as [Hx|[<-|[]]]; [auto|].
           cbn. now apply (inv_stored w Hinv).
      * destruct (doLoad_fields h host ctor (with_calls (S (calls w)) w))
          as (Hw & Hs & Hp).
        destruct (doLoad h host ctor (with_calls (S (calls w)) w)) as [w1 p].
        cbn [fst snd] in Hw, Hs, Hp. wsimpl. subst p.
        split; wsimpl; rewrite Hw, ?Hs.
        -- rewrite List.map_app. cbn [map w_call]. now apply nodup_snoc.
        -- intros x Hx. apply in_app_or in Hx as [Hx|[<-|[]]]; cbn; [|lia].
           specialize (Hlt x Hx). lia.
  - destruct (List.find _ (tasks w)) as [t|]; [|split; assumption].
    destruct (resumeLoad_fields t host o w) as (Hw & Hs).
    split; rewrite Hw, ?Hs; assumption.
  - destruct (List.find _ (waiters w)) as [x|]; [|split; assumption].
    destruct (promises w !! w_promise x) as [b|]; [|split; assumption].
    unfold resumeCall.
    assert (E1 : forall w0, waiters (with_returned
                   (returned (with_waiters
                      (List.filter (fun y => negb (Nat.eqb (w_call y) (w_call x)))
                         (waiters w0)) w0)
                    ++ [mkReturn (w_call x) (Some (w_promise x)) b])
                   (with_waiters
                      (List.filter (fun y => negb (Nat.eqb (w_call y) (w_call x)))
                         (waiters w0)) w0))
                 = List.filter (fun y => negb (Nat.eqb (w_call y) (w_call x)))
                     (waiters w0)) by reflexivity.
    split.
    + destruct (w_sync x); rewrite E1; wsimpl; now apply nodup_map_filter.
    + intros y Hy. destruct (w_sync x); rewrite E1 in Hy; wsimpl;
        apply filter_In in Hy as [Hy _]; auto.
  - unfold syncEffect.
    destruct (state (hook_of w h)), (isReady w); split; assumption.
Qed.

Lemma reachable_waiting evs : waiting (run evs init).
Proof.
  unfold run.
  assert (H : Inv init /\ waiting init).
  { split; [apply init_inv|]. split; [constructor|intros x []]. }
  revert H. generalize init.
  induction evs as [|e evs IH]; intros w [Hi Hw]; cbn [fold_left]; [exact Hw|].
  apply IH. split; [now apply step_inv|now apply waiting_step].
Qed.

Lemma find_waiter (l : list Waiter) (x : Waiter) :
  List.NoDup (map w_call l) -> In x l ->
  List.find (fun y => Nat.eqb (w_call y) (w_call x)) l = Some x.
Proof.
  induction l as [|y l IH]; cbn [map List.find]; intros Hnd Hin; [destruct Hin|].
  apply List.NoDup_cons_iff in Hnd as [Hy Hnd].
  destruct (Nat.eqb_spec (w_call y) (w_call x)) as [E|E].
  - destruct Hin as [->|Hin]; [reflexivity|].
    exfalso. apply Hy. rewrite E. now apply in_map.
  - destruct Hin as [->|Hin]; [congruence|auto].
Qed.

(** A waiting call whose promise has settled is answered when it resumes,
    with the value the promise settled with; it is not answered before. *)
Lemma resume_answers w x :
  Inv w -> waiting w -> In x (waiters w) ->
  let w' := step w (Resume (w_call x)) in
  match promises w !! w_promise x with
  | Some b =>
      returned w' = returned w ++ [mkReturn (w_call x) (Some (w_promise x)) b]
      /\ ~ In x (waiters w')
      /\ loadsStarted w' = loadsStarted w
      /\ effects w' = effects w
      /\ (w_sync x = true ->
          state (hook_of w' (w_hook x)) = if b then Ready else Error)
  | None => w' = w /\ in_flight w (w_promise x)
  end.
Proof.
  intros Hinv [Hnd Hlt] Hx w'. subst w'. cbn [step].
  rewrite (find_waiter _ _ Hnd Hx).
  destruct (promises w !! w_promise x) as [b|] eqn:Hb.
  - unfold resumeCall. destruct (w_sync x); wsimpl;
      (split; [reflexivity|]);
      (split; [|split; [reflexivity|split; [reflexivity|]]]);
      try (intros Hin; apply filter_In in Hin as [_ Hin];
           now rewrite Nat.eqb_refl in Hin);
      try discriminate.
    intros _. unfold hook_of. wsimpl. now rewrite lookup_insert_eq.
  - split; [reflexivity|]. split; [now apply Hlt|exact Hb].
Qed.

(** C1: in every reachable state of the loader at most one [doLoad] is in
    flight and its promise is the stored [loadPromise]; a call of
    [ensureLoaded] made while it is in flight starts no load, touches
    neither the engine nor the network, and waits for that same promise;
    every caller that waited for a promise received the boolean that promise
    settled with, so all the callers of one load received the same boolean;
    [doLoad] has been started at most once more than it has failed; and
    every call that is waiting is answered: once its promise has settled it
    returns, when resumed, the boolean the promise settled with, starting no
    load and touching neither the engine nor the network (a call that
    awaited the stored promise also sets its component's state to [Ready] or
    [Error] by that boolean), and as long as the
    promise has not settled the call stays suspended, on the promise of the
    one load in flight. *)
Theorem single_flight (evs : list Event) :
  let w := run evs init in
  (forall p q, in_flight w p -> in_flight w q -> p = q)
  /\ (forall p, in_flight w p -> loadPromise w = Some p)
  /\ (forall p h host ctor, in_flight w p ->
        let w' := step w (Call h host ctor) in
        loadsStarted w' = loadsStarted w
        /\ effects w' = effects w
        /\ tasks w' = tasks w
        /\ loadPromise w' = Some p
        /\ waiters w' = waiters w ++ [mkWaiter (calls w) h p true])
  /\ (forall r p, In r (returned w) -> r_promise r = Some p ->
        promises w !! p = Some (r_value r))
  /\ (forall r1 r2 p, In r1 (returned w) -> In r2 (returned w) ->
        r_promise r1 = Some p -> r_promise r2 = Some p ->
        r_value r1 = r_value r2)
  /\ loadsStarted w <= S (loadsFailed w)
  /\ (forall x b, In x (waiters w) -> promises w !! w_promise x = Some b ->
        let w' := step w (Resume (w_call x)) in
        returned w' = returned w ++ [mkReturn (w_call x) (Some (w_promise x)) b]
        /\ ~ In x (waiters w')
        /\ loadsStarted w' = loadsStarted w
        /\ effects w' = effects w
        /\ (w_sync x = true ->
            state (hook_of w' (w_hook x)) = if b then Ready else Error))
  /\ (forall x, In x (waiters w) -> promises w !! w_promise x = None ->
        step w (Resume (w_call x)) = w /\ in_flight w (w_promise x)).
Proof.
  intros w. pose proof (reachable_inv evs) as Hinv. fold w in Hinv.
  pose proof (reachable_waiting evs) as Hwait. fold w in Hwait.
  assert (Hstored : forall p, in_flight w p -> loadPromise w = Some p).
  { intros p Hp. now destruct (in_flight_task w p Hinv Hp) as (_ & _ & _ & H & _). }
  assert (Hval : forall r p, In r (returned w) -> r_promise r = Some p ->
            promises w !! p = Some (r_value r)).
  { intros r p Hr Hp. pose proof (inv_returned w Hinv r Hr) as H.
    now rewrite Hp in H. }
  split.
  { intros p q Hp Hq. apply Hstored in Hp, Hq. congruence. }
  split; [exact Hstored|]. split.
  { intros p h host ctor Hp. now apply call_while_in_flight. }
  split; [exact Hval|]. split.
  { intros r1 r2 p H1 H2 P1 P2. pose proof (Hval r1 p H1 P1).
    pose proof (Hval r2 p H2 P2). congruence. }
  split.
  { pose proof (inv_count w Hinv) as Hc.
    destruct (isReady w) eqn:Hr.
    - destruct (inv_ready w Hinv Hr) as (_ & Hnil & _). rewrite Hnil in Hc.
      cbn in Hc. lia.
    - destruct (inv_tasks w Hinv) as [Hnil|(t & Ht & _)];
        rewrite ?Hnil, ?Ht in Hc; cbn in Hc; lia. }
  split.
  - intros x b Hx Hb. pose proof (resume_answers w x Hinv Hwait Hx) as H.
    cbv zeta in H. rewrite Hb in H. exact H.
  - intros x Hx Hb. pose proof (resume_answers w x Hinv Hwait Hx) as H.
    cbv zeta in H. rewrite Hb in H. exact H.
Qed.

Lemma single_flight_witness :
  let w := run [Call 0 chrome None; Call 1 chrome None;
                Settle 0 chrome (Ok "blob:core")] init in
  let w2 := run [Call 0 chrome None; Call 1 chrome None;
                 Settle 0 chrome (Ok "blob:core");
                 Settle 0 chrome (Ok "blob:wasm"); Settle 0 chrome (Ok "")]
              init in
  let w3 := run [Call 0 chrome None; Call 1 chrome None;
                 Settle 0 chrome (Ok "blob:core");
                 Settle 0 chrome (Ok "blob:wasm"); Settle 0 chrome (Ok "");
                 Resume 1]
              init in
  (in_flight w 0
   /\ loadsStarted (step w (Call 2 chrome None)) = 1
   /\ waiters (step w (Call 2 chrome None)) = waiters w ++ [mkWaiter 2 2 0 true]
   /\ step w (Resume 1) = w)
  /\ (promises w2 !! 0 = Some true
      /\ returned (step w2 (Resume 1)) = [mkReturn 1 (Some 0) true]
      /\ returned (step w3 (Resume 0))
         = [mkReturn 1 (Some 0) true; mkReturn 0 (Some 0) true]).
Proof.
  intros w w2 w3. split.
  - assert (H : in_flight w 0) by (split; [cbn; lia|reflexivity]).
    destruct (single_flight [Call 0 chrome None; Call 1 chrome None;
                             Settle 0 chrome (Ok "blob:core")])
      as (_ & _ & Hcall & _ & _ & _ & _ & Hstay).
    destruct (Hcall 0 2 chrome None H) as (Hs & _ & _ & _ & Hw).
    destruct (Hstay (mkWaiter 1 1 0 true)) as (Hsame & _);
      [vm_compute; right; left; reflexivity|vm_compute; reflexivity|].
    split; [exact H|]. split; [exact Hs|]. split; [exact Hw|exact Hsame].
  - destruct (single_flight [Call 0 chrome None; Call 1 chrome None;
                             Settle 0 chrome (Ok "blob:core");
                             Settle 0 chrome (Ok "blob:wasm");
                             Settle 0 chrome (Ok "")])
      as (_ & _ & _ & _ & _ & _ & Hans & _).
    destruct (Hans (mkWaiter 1 1 0 true) true) as (Hr & _);
      [vm_compute; right; left; reflexivity|vm_compute; reflexivity|].
    split; [vm_compute; reflexivity|].
    split; [etransitivity; [exact Hr|vm_compute; reflexivity]|].
    destruct (single_flight [Call 0 chrome None; Call 1 chrome None;
                             Settle 0 chrome (Ok "blob:core");
                             Settle 0 chrome (Ok "blob:wasm");
                             Settle 0 chrome (Ok ""); Resume 1])
      as (_ & _ & _ & _ & _ & _ & Hans' & _).
    destruct (Hans' (mkWaiter 0 0 0 false) true) as (Hr' & _);
      [vm_compute; left; reflexivity|vm_compute; reflexivity|].
    etransitivity; [exact Hr'|vm_compute; reflexivity].
Defined.

(** ** Retry after a failure *)

(** The [catch] block resets the singleton: when the load in flight fails
    at one of its [await]s, the stored promise is cleared and the failed
    promise settles with [false], so that the next call of [ensureLoaded],
    from whichever component, starts a new load. *)
Lemma retry_after_rejection (evs : list Event) p host e h host' ctor :
  let w := run evs init in
  in_flight w p ->
  let w1 := step w (Settle p host (Throw e)) in
  loadPromise w1 = None
  /\ promises w1 !! p = Some false
  /\ loadsStarted (step w1 (Call h host' ctor)) = S (loadsStarted w).
Proof.
  intros w Hp w1. pose proof (reachable_inv evs) as Hinv. fold w in Hinv.
  destruct (in_flight_task w p Hinv Hp) as (t & Ht & Htp & Hlp & Hnr & Hinst).
  assert (Hfind : List.find (fun t => Nat.eqb (t_promise t) p) (tasks w) = Some t).
  { rewrite Ht. cbn. now rewrite Htp, Nat.eqb_refl. }
  assert (Hw1 : w1 = loadCatch p (t_hook t) host e w).
  { subst w1. cbn [step]. rewrite Hfind. unfold resumeLoad. now rewrite Htp. }
  rewrite Hw1. split; [reflexivity|]. split.
  { wsimpl. apply lookup_insert_eq. }
  cbn [step]. unfold ensureLoaded. wsimpl. cbn [andb].
  unfold doLoad.
  destruct (hasSharedArrayBuffer host'); cbn [negb]; [destruct ctor|];
    wsimpl; reflexivity.
Qed.

(** C5: the capability check returns [false] without resetting the
    singleton.  The caller stores the settled promise in [loadPromise], and
    the next call, here from a second component, waits for that promise
    instead of starting an attempt: [doLoad] has run once, the second caller
    receives the first attempt's [false], and its component ends in state
    [Error] with no message and no debug information. *)
Theorem capability_failure_is_sticky :
  let w := run [Call 0 legacy None; Resume 0; Call 1 legacy None; Resume 1]
             init in
  loadsStarted w = 1
  /\ loadPromise w = Some 0
  /\ returned w = [mkReturn 0 (Some 0) false; mkReturn 1 (Some 0) false]
  /\ hook_of w 1 = mkHook Error None None.
Proof. vm_compute. repeat split. Qed.

(** The state after the capability failure. *)
Definition stuck (w : World) : Prop :=
  loadPromise w = Some 0 /\ promises w = {[0 := false]} /\ tasks w = []
  /\ isReady w = false /\ loadsStarted w = 1 /\ effects w = []
  /\ Forall (fun r => r_value r = false) (returned w).

Lemma stuck_step w e : stuck w -> stuck (step w e).
Proof.
  intros (Hlp & Hpr & Ht & Hr & Hs & He & Hret).
  destruct e as [h host ctor|p host o|c|h]; cbn [step].
  - unfold ensureLoaded. wsimpl. rewrite Hr, Hlp. cbn [andb].
    unfold stuck. wsimpl. auto 10.
  - rewrite Ht. cbn. unfold stuck. auto 10.
  - destruct (List.find _ (waiters w)) as [x|]; [|unfold stuck; auto 10].
    destruct (promises w !! w_promise x) as [b|] eqn:Hb; [|unfold stuck; auto 10].
    assert (b = false) as ->.
    { rewrite Hpr in Hb. apply lookup_singleton_Some in Hb as [_ Hb].
      congruence. }
    unfold resumeCall, stuck. destruct (w_sync x); wsimpl;
      repeat split; auto; apply Forall_app; split; auto.
  - unfold syncEffect, stuck.
    destruct (state (hook_of w h)); rewrite ?Hr; wsimpl; auto 10.
Qed.

(** When the first call of [ensureLoaded] is made in a browser without
    [SharedArrayBuffer], the state it leaves absorbs every later event:
    whatever calls, settlements and resumptions follow, in whatever
    browser, that first load remains the only one ever started, no engine
    operation is ever issued and no caller is ever answered [true]. *)
Lemma capability_failure_absorbs (evs : list Event) h host ctor :
  hasSharedArrayBuffer host = false ->
  let w := run evs (step init (Call h host ctor)) in
  loadsStarted w = 1 /\ effects w = []
  /\ Forall (fun r => r_value r = false) (returned w).
Proof.
  intros Hsab w.
  assert (H0 : stuck (step init (Call h host ctor))).
  { cbn [step]. unfold ensureLoaded, doLoad. cbn [isReady init andb loadPromise].
    wsimpl. rewrite Hsab. cbn [negb]. unfold stuck. wsimpl. cbn [init].
    wsimpl. auto 10. }
  assert (H : stuck w).
  { subst w. revert H0. generalize (step init (Call h host ctor)).
    induction evs as [|e evs IH]; intros w0 H0; [exact H0|].
    apply IH. now apply stuck_step. }
  destruct H as (_ & _ & _ & _ & Hs & He & Hret). auto.
Qed.


(** ** The capability check *)

Lemma hook_of_setState h s w :
  hook_of (setState h s w) h
  = mkHook s (error (hook_of w h)) (debugInfo (hook_of w h)).
Proof. unfold hook_of at 1. wsimpl. now rewrite lookup_insert_eq. Qed.

Lemma hook_of_setError h e w :
  hook_of (setError h e w) h
  = mkHook (state (hook_of w h)) e (debugInfo (hook_of w h)).
Proof. unfold hook_of at 1. wsimpl. now rewrite lookup_insert_eq. Qed.

Lemma hook_of_setDebugInfo h d w :
  hook_of (setDebugInfo h d w) h
  = mkHook (state (hook_of w h)) (error (hook_of w h)) d.
Proof. unfold hook_of at 1. wsimpl. now rewrite lookup_insert_eq. Qed.

(** C6: without [SharedArrayBuffer], [doLoad] returns a promise that is
    already settled with [false]; it has constructed no engine, fetched no
    asset and initialised nothing (no engine operation was issued, nothing is
    left pending, [ffmpegInstance] is untouched); and it has left, in the
    calling component, the state [Error], the error message and a debug
    entry whose text are the message that names [SharedArrayBuffer]. *)
Theorem missing_capability_fails_fast (h : nat) (host : Host)
    (ctor : option JsErr) (w : World) :
  hasSharedArrayBuffer host = false ->
  let w' := fst (doLoad h host ctor w) in
  let p := snd (doLoad h host ctor w) in
  promises w' !! p = Some false
  /\ effects w' = effects w
  /\ tasks w' = tasks w
  /\ ffmpegInstance w' = ffmpegInstance w
  /\ hook_of w' h =
     mkHook Error (Some missingCapabilityMsg)
       (Some (createDebugInfo host missingCapabilityMsg None))
  /\ errorText (createDebugInfo host missingCapabilityMsg None)
     = missingCapabilityMsg
  /\ String.prefix "SharedArrayBuffer" missingCapabilityMsg = true.
Proof.
  intros Hsab. unfold doLoad. rewrite Hsab. cbn [negb fst snd].
  split; [wsimpl; apply lookup_insert_eq|].
  split; [reflexivity|]. split; [reflexivity|]. split; [reflexivity|].
  split; [|split; reflexivity].
  match goal with
  | |- hook_of (settle _ _ (with_loadsFailed _ ?x)) h = _ =>
      change (hook_of x h = mkHook Error (Some missingCapabilityMsg)
                (Some (createDebugInfo host missingCapabilityMsg None)))
  end.
  now rewrite hook_of_setState, hook_of_setDebugInfo, hook_of_setError.
Qed.

Lemma missing_capability_fails_fast_witness :
  hasSharedArrayBuffer legacy = false
  /\ promises (fst (doLoad 0 legacy None init)) !! 0 = Some false
  /\ effects (fst (doLoad 0 legacy None init)) = []
  /\ state (hook_of (fst (doLoad 0 legacy None init)) 0) = Error.
Proof.
  split; [reflexivity|].
  destruct (missing_capability_fails_fast 0 legacy None init eq_refl)
    as (Hp & He & _ & _ & Hh & _).
  split; [exact Hp|]. split; [exact He|]. now rewrite Hh.
Defined.

Lemma find_last {A} (f : A -> bool) (l : list A) (x : A) :
  (forall y, In y l -> f y = false) -> f x = true ->
  List.find f (l ++ [x]) = Some x.
Proof.
  intros Hl Hx. induction l as [|y l IH]; cbn.
  - now rewrite Hx.
  - rewrite (Hl y) by now left. apply IH. intros z Hz. apply Hl. now right.
Qed.

(** [ensureLoaded] without [SharedArrayBuffer]: called in a reachable
    state with no stored promise, it issues no engine operation, and its
    caller, once resumed, receives [false] from the load it started. *)
Lemma missing_capability_answer (evs : list Event) h host ctor :
  let w := run evs init in
  hasSharedArrayBuffer host = false -> loadPromise w = None ->
  let w1 := step w (Call h host ctor) in
  effects w1 = effects w
  /\ returned (step w1 (Resume (calls w)))
     = returned w ++ [mkReturn (calls w) (Some (loadsStarted w)) false].
Proof.
  intros w Hsab Hlp w1. pose proof (reachable_inv evs) as Hinv. fold w in Hinv.
  assert (Hnr : isReady w = false).
  { destruct (isReady w) eqn:E; [|reflexivity].
    destruct (inv_ready w Hinv E) as (_ & _ & p & Hp & _). congruence. }
  assert (Hw1 : w1 = with_waiters
                       (waiters w ++ [mkWaiter (calls w) h (loadsStarted w) false])
                       (with_loadPromise (Some (loadsStarted w))
                          (fst (doLoad h host ctor (with_calls (S (calls w)) w))))).
  { subst w1. cbn [step]. unfold ensureLoaded. wsimpl. rewrite Hnr, Hlp.
    cbn [andb]. unfold doLoad. rewrite Hsab. reflexivity. }
  assert (He : effects (fst (doLoad h host ctor (with_calls (S (calls w)) w)))
               = effects w).
  { unfold doLoad. rewrite Hsab. reflexivity. }
  rewrite Hw1. split; [exact He|].
  cbn [step]. wsimpl.
  rewrite find_last; cycle 1.
  { intros y Hy. apply (inv_waiters w Hinv) in Hy. apply Nat.eqb_neq. lia. }
  { cbn. apply Nat.eqb_refl. }
  cbn [w_promise]. unfold doLoad in *. rewrite Hsab in *. cbn [negb fst snd] in *.
  wsimpl. rewrite lookup_insert_eq. unfold resumeCall. cbn [w_sync w_call w_promise].
  wsimpl. reflexivity.
Qed.


(* ===================================================================== *)
(** ** Further properties of the loader *)
(* ===================================================================== *)

Lemma retry_after_rejection_witness :
  let w := run [Call 0 chrome None; Settle 0 chrome (Ok "blob:core")] init in
  let w1 := step w (Settle 0 chrome (Throw (ErrorObj "TypeError" "Failed to fetch" None))) in
  in_flight w 0
  /\ loadPromise w1 = None
  /\ loadsStarted (step w1 (Call 1 chrome None)) = 2.
Proof.
  intros w w1.
  assert (H : in_flight w 0) by (split; [cbn; lia|reflexivity]).
  destruct (retry_after_rejection
              [Call 0 chrome None; Settle 0 chrome (Ok "blob:core")]
              0 chrome (ErrorObj "TypeError" "Failed to fetch" None)
              1 chrome None H) as (H1 & _ & H3).
  split; [exact H|]. split; [exact H1|exact H3].
Defined.

Lemma missing_capability_answer_witness :
  hasSharedArrayBuffer legacy = false
  /\ loadPromise (run [] init) = None
  /\ returned (step (step init (Call 0 legacy None)) (Resume 0))
     = [mkReturn 0 (Some 0) false].
Proof.
  split; [reflexivity|]. split; [reflexivity|].
  destruct (missing_capability_answer [] 0 legacy None eq_refl eq_refl)
    as (_ & H). exact H.
Defined.

Lemma capability_failure_absorbs_witness :
  hasSharedArrayBuffer legacy = false
  /\ loadsStarted
       (run [Resume 0; Call 1 chrome None; Resume 1; Call 2 chrome None]
          (step init (Call 0 legacy None))) = 1.
Proof.
  split; [reflexivity|].
  destruct (capability_failure_absorbs
              [Resume 0; Call 1 chrome None; Resume 1; Call 2 chrome None]
              0 legacy None eq_refl) as (H & _). exact H.
Defined.

(** Once the engine is ready it stays ready. *)
Definition ready_like (w0 w : World) : Prop :=
  Inv w /\ isReady w = true /\ ffmpegInstance w = ffmpegInstance w0
  /\ loadsStarted w = loadsStarted w0 /\ effects w = effects w0.

Lemma ready_like_step w0 w e : ready_like w0 w -> ready_like w0 (step w e).
Proof.
  intros (Hinv & Hr & Hi & Hs & He).
  split; [now apply step_inv|].
  destruct (inv_ready w Hinv Hr) as (Hinst & Htasks & _).
  destruct e as [h host ctor|p host o|c|h]; cbn [step].
  - unfold ensureLoaded. wsimpl. rewrite Hr.
    rewrite (bool_decide_eq_true_2 _ Hinst). cbn [andb]. wsimpl. auto.
  - rewrite Htasks. cbn. auto.
  - destruct (List.find _ (waiters w)) as [x|]; [|auto].
    destruct (promises w !! w_promise x) as [b|]; [|auto].
    unfold resumeCall. destruct (w_sync x); wsimpl; auto.
  - unfold syncEffect. destruct (state (hook_of w h)); rewrite ?Hr; wsimpl; auto.
Qed.

(** Ready is final: from a reachable state in which [isReady] holds, no
    sequence of events changes [isReady], the engine instance, the number of
    loads started or the engine operations issued; an engine instance
    exists; and every further call of [ensureLoaded] answers [true] at
    once, leaving its component in state [Ready]. *)
Theorem ready_is_final (evs0 evs : list Event) :
  let w0 := run evs0 init in
  isReady w0 = true ->
  let w := run evs w0 in
  isReady w = true
  /\ ffmpegInstance w = ffmpegInstance w0
  /\ ffmpegInstance w <> None
  /\ loadsStarted w = loadsStarted w0
  /\ effects w = effects w0
  /\ (forall h host ctor,
        let w' := step w (Call h host ctor) in
        returned w' = returned w ++ [mkReturn (calls w) None true]
        /\ state (hook_of w' h) = Ready
        /\ waiters w' = waiters w).
Proof.
  intros w0 Hr w.
  assert (H0 : ready_like w0 w0).
  { split; [apply reachable_inv|auto]. }
  assert (H : ready_like w0 w).
  { subst w. revert H0. generalize w0 at 2 4.
    induction evs as [|e evs IH]; intros w1 H1; [exact H1|].
    apply IH. now apply ready_like_step. }
  destruct H as (Hinv & Hr' & Hi & Hs & He).
  destruct (inv_ready w Hinv Hr') as (Hinst & _).
  repeat (split; [assumption|]).
  intros h host ctor. cbn [step]. unfold ensureLoaded. wsimpl.
  rewrite Hr', (bool_decide_eq_true_2 _ Hinst). cbn [andb]. wsimpl.
  split; [reflexivity|]. split; [|reflexivity].
  unfold hook_of. wsimpl. now rewrite lookup_insert_eq.
Qed.

Definition loaded : list Event :=
  [Call 0 chrome None; Settle 0 chrome (Ok "blob:core");
   Settle 0 chrome (Ok "blob:wasm"); Settle 0 chrome (Ok "")].

Lemma ready_is_final_witness :
  isReady (run loaded init) = true
  /\ isReady (run [Resume 0; Call 1 legacy None; Render 1; Settle 0 chrome (Throw (Thrown "late"))]
               (run loaded init)) = true.
Proof.
  split; [reflexivity|].
  destruct (ready_is_final loaded
              [Resume 0; Call 1 legacy None; Render 1;
               Settle 0 chrome (Throw (Thrown "late"))] eq_refl) as (H & _).
  exact H.
Defined.


Lemma find_single {A} (f : A -> bool) (x : A) :
  f x = true -> List.find f [x] = Some x.
Proof. intros H. cbn. now rewrite H. Qed.

Lemma idle_no_task w : Inv w -> loadPromise w = None ->
  tasks w = [] /\ isReady w = false.
Proof.
  intros Hinv Hlp. split.
  - destruct (inv_tasks w Hinv) as [H|(t & _ & H & _)]; [exact H|congruence].
  - destruct (isReady w) eqn:E; [|reflexivity].
    destruct (inv_ready w Hinv E) as (_ & _ & p & Hp & _). congruence.
Qed.

(** A load that meets no error: started from a reachable state with no
    stored promise, in a browser with [SharedArrayBuffer], and with its three
    awaited operations succeeding, it constructs one engine, fetches the two
    assets under [origin/ffmpeg] with their MIME types, loads the engine
    with the two blob URLs those fetches returned, in that order, and ends
    with [isReady] set, its promise settled with [true] and the calling
    component in state [Ready]. *)
Theorem load_succeeds (evs0 : list Event) (h : nat) (host h1 h2 h3 : Host)
    (core wasm x : string) :
  let w := run evs0 init in
  let p := loadsStarted w in
  loadPromise w = None ->
  hasSharedArrayBuffer host = true ->
  let w' := run [Call h host None; Settle p h1 (Ok core);
                 Settle p h2 (Ok wasm); Settle p h3 (Ok x)] w in
  isReady w' = true
  /\ ffmpegInstance w' = Some p
  /\ loadPromise w' = Some p
  /\ promises w' !! p = Some true
  /\ loadsStarted w' = S p
  /\ tasks w' = []
  /\ effects w' =
     effects w ++
     [NewFFmpeg; OnLog;
      ToBlobURL ((origin host ++ "/ffmpeg") ++ "/ffmpeg-core.js")%string
        "text/javascript";
      ToBlobURL ((origin host ++ "/ffmpeg") ++ "/ffmpeg-core.wasm")%string
        "application/wasm";
      FFmpegLoad core wasm]
  /\ state (hook_of w' h) = Ready.
Proof.
  intros w p Hlp Hsab w'.
  pose proof (reachable_inv evs0) as Hinv. fold w in Hinv.
  destruct (idle_no_task w Hinv Hlp) as (Htasks & Hnr).
  set (base := (origin host ++ "/ffmpeg")%string).
  set (w1 := step w (Call h host None)).
  assert (T1 : tasks w1 = [mkTask p h base AwaitCore]).
  { subst w1. cbn [step]. unfold ensureLoaded. wsimpl. rewrite Hnr, Hlp.
    cbn [andb]. unfold doLoad. rewrite Hsab. cbn [negb]. wsimpl.
    now rewrite Htasks. }
  set (w2 := step w1 (Settle p h1 (Ok core))).
  assert (E2 : w2 = resumeLoad (mkTask p h base AwaitCore) h1 (Ok core) w1).
  { subst w2. cbn [step]. rewrite T1, find_single by apply Nat.eqb_refl.
    reflexivity. }
  assert (T2 : tasks w2 = [mkTask p h base (AwaitWasm core)]).
  { rewrite E2. unfold resumeLoad. cbn [t_promise t_hook t_base t_stage]. wsimpl.
    rewrite T1. cbn. now rewrite Nat.eqb_refl. }
  set (w3 := step w2 (Settle p h2 (Ok wasm))).
  assert (E3 : w3 = resumeLoad (mkTask p h base (AwaitWasm core)) h2 (Ok wasm) w2).
  { subst w3. cbn [step]. rewrite T2, find_single by apply Nat.eqb_refl.
    reflexivity. }
  assert (T3 : tasks w3 = [mkTask p h base AwaitLoad]).
  { rewrite E3. unfold resumeLoad. cbn [t_promise t_hook t_base t_stage]. wsimpl.
    rewrite T2. cbn. now rewrite Nat.eqb_refl. }
  assert (E4 : w' = resumeLoad (mkTask p h base AwaitLoad) h3 (Ok x) w3).
  { subst w'. cbn [run fold_left]. fold w1. fold w2. fold w3.
    cbn [step]. rewrite T3, find_single by apply Nat.eqb_refl. reflexivity. }
  assert (F1 : loadPromise w1 = Some p /\ ffmpegInstance w1 = Some p
               /\ loadsStarted w1 = S p
               /\ effects w1 = effects w ++
                    [NewFFmpeg; OnLog;
                     ToBlobURL (base ++ "/ffmpeg-core.js")%string "text/javascript"]).
  { subst w1. cbn [step]. unfold ensureLoaded. wsimpl. rewrite Hnr, Hlp.
    cbn [andb]. unfold doLoad. rewrite Hsab. cbn [negb]. wsimpl.
    repeat split; auto. now rewrite <- !app_assoc. }
  destruct F1 as (L1 & I1 & S1 & X1).
  assert (F2 : loadPromise w2 = Some p /\ ffmpegInstance w2 = Some p
               /\ loadsStarted w2 = S p
               /\ effects w2 = effects w1 ++
                    [ToBlobURL (base ++ "/ffmpeg-core.wasm")%string "application/wasm"]).
  { rewrite E2. unfold resumeLoad. cbn [t_promise t_hook t_base t_stage]. wsimpl.
    auto. }
  destruct F2 as (L2 & I2 & S2 & X2).
  assert (F3 : loadPromise w3 = Some p /\ ffmpegInstance w3 = Some p
               /\ loadsStarted w3 = S p
               /\ effects w3 = effects w2 ++ [FFmpegLoad core wasm]).
  { rewrite E3. unfold resumeLoad. cbn [t_promise t_hook t_base t_stage]. wsimpl.
    auto. }
  destruct F3 as (L3 & I3 & S3 & X3).
  rewrite E4. unfold resumeLoad. cbn [t_promise t_hook t_base t_stage].
  split; [reflexivity|]. split; [wsimpl; exact I3|]. split; [wsimpl; exact L3|].
  split; [wsimpl; apply lookup_insert_eq|]. split; [wsimpl; exact S3|].
  split; [wsimpl; rewrite T3; cbn; now rewrite Nat.eqb_refl|].
  split.
  - wsimpl. rewrite X3, X2, X1. now rewrite <- !app_assoc.
  - unfold hook_of. wsimpl. now rewrite lookup_insert_eq.
Qed.

Lemma load_succeeds_witness :
  loadPromise (run [] init) = None
  /\ hasSharedArrayBuffer chrome = true
  /\ isReady (run loaded init) = true
  /\ effects (run loaded init) =
     [NewFFmpeg; OnLog;
      ToBlobURL "https://app.example/ffmpeg/ffmpeg-core.js" "text/javascript";
      ToBlobURL "https://app.example/ffmpeg/ffmpeg-core.wasm" "application/wasm";
      FFmpegLoad "blob:core" "blob:wasm"].
Proof.
  split; [reflexivity|]. split; [reflexivity|].
  destruct (load_succeeds [] 0 chrome chrome chrome chrome
              "blob:core" "blob:wasm" "" eq_refl eq_refl)
    as (H1 & _ & _ & _ & _ & _ & H2 & _).
  split; [exact H1|exact H2].
Defined.

(** A load that fails at one of its [await]s: the component that started it
    gets the state [Error] and, as its error and as the text of its debug
    entry, the thrown error's [name: message] followed by its cause if it
    has one (or, for a thrown value that is not an [Error], its string, or
    the default text when that string is empty); [isReady] stays false, the
    engine instance and the stored promise are cleared, the promise settles
    with [false], and no engine operation is issued. *)
Theorem load_failure_is_reported (evs0 : list Event) (p : nat) (t : Task)
    (host : Host) (e : JsErr) :
  let w := run evs0 init in
  In t (tasks w) -> t_promise t = p ->
  let w' := step w (Settle p host (Throw e)) in
  hook_of w' (t_hook t) =
    mkHook Error (Some (fullError e))
      (Some (mkDebugInfo (navigatorUserAgent host)
               (windowCrossOriginIsolated host) (fullError e) None
               (isoTime host)))
  /\ isReady w' = false /\ ffmpegInstance w' = None /\ loadPromise w' = None
  /\ promises w' !! p = Some false
  /\ tasks w' = []
  /\ effects w' = effects w
  /\ loadsFailed w' = S (loadsFailed w).
Proof.
  intros w Ht Hp w'.
  pose proof (reachable_inv evs0) as Hinv. fold w in Hinv.
  assert (Hone : tasks w = [t]).
  { destruct (inv_tasks w Hinv) as [H|(t' & H & _)]; rewrite H in Ht.
    - destruct Ht.
    - destruct Ht as [->|[]]. exact H. }
  assert (E : w' = loadCatch p (t_hook t) host e w).
  { subst w'. cbn [step]. rewrite Hone, find_single by (now apply Nat.eqb_eq).
    unfold resumeLoad. now rewrite Hp. }
  rewrite E. split.
  - unfold loadCatch.
    match goal with
    | |- hook_of (settle _ _ (removeTask _ (with_loadsFailed _ (with_isReady _
           (with_ffmpegInstance _ (with_loadPromise _ ?y)))))) _ = _ =>
        transitivity (hook_of y (t_hook t)); [|idtac]
    end.
    + unfold hook_of. wsimpl. now rewrite !lookup_insert_eq.
    + now rewrite hook_of_setState, hook_of_setError, hook_of_setDebugInfo.
  - wsimpl. repeat split; auto.
    + apply lookup_insert_eq.
    + rewrite Hone. cbn. now rewrite Hp, Nat.eqb_refl.
Qed.

Lemma load_failure_is_reported_witness :
  let w := run [Call 7 chrome None; Settle 0 chrome (Ok "blob:core")] init in
  In (mkTask 0 7 "https://app.example/ffmpeg" (AwaitWasm "blob:core")) (tasks w)
  /\ error (hook_of (step w (Settle 0 chrome
                               (Throw (ErrorObj "TypeError" "Failed to fetch"
                                         (Some "offline"))))) 7)
     = Some "TypeError: Failed to fetch | Cause: offline".
Proof.
  intros w. split; [left; reflexivity|].
  destruct (load_failure_is_reported
              [Call 7 chrome None; Settle 0 chrome (Ok "blob:core")] 0
              (mkTask 0 7 "https://app.example/ffmpeg" (AwaitWasm "blob:core"))
              chrome (ErrorObj "TypeError" "Failed to fetch" (Some "offline"))
              (or_introl eq_refl) eq_refl) as (H & _).
  apply (f_equal error) in H. exact H.
Defined.

End LoaderTheory.

(* ===================================================================== *)
(** * Properties of the queue page *)
(* ===================================================================== *)

Module PageTheory.
Import Page.

(** ** One pass at a time, over the snapshot *)

Lemma startProcessing_busy rendered h st :
  processingRef st = true -> startProcessing rendered h st = st.
Proof. intros H. unfold startProcessing. now rewrite H. Qed.

(** Where a pass over [snapshot] stands: underway, it has called
    [simulateConversion] on the items up to the current one, in order;
    finished, on all of them. *)
Definition in_pass (c0 : list string) (snapshot : list QueueItem)
    (st : State) : Prop :=
  if processingRef st then
    exists pre p,
      pass st = Some p /\ queuedItems p = snapshot
      /\ snapshot = pre ++ current p :: remaining p
      /\ converted st = c0 ++ map id pre ++ [id (current p)]
  else
    pass st = None /\ converted st = c0 ++ map id snapshot.

Lemma loop_in_pass c0 snapshot pre rest h st :
  snapshot = pre ++ rest ->
  converted st = c0 ++ map id pre ->
  processingRef st = true ->
  in_pass c0 snapshot (loop snapshot rest h st).
Proof.
  intros Hsnap Hconv Hproc. unfold in_pass, loop.
  destruct rest as [|item rest]; cbn.
  - rewrite app_nil_r in Hsnap. subst pre. auto.
  - rewrite Hproc. exists pre. eexists. cbn.
    split; [reflexivity|]. split; [reflexivity|]. split; [exact Hsnap|].
    rewrite Hconv. now rewrite <- app_assoc.
Qed.

Lemma start_in_pass h st :
  processingRef st = false ->
  in_pass (converted st) (List.filter is_queued (queue st))
    (startProcessing (queue st) h st).
Proof.
  intros H. unfold startProcessing. rewrite H.
  apply loop_in_pass with (pre := []); cbn; [reflexivity| |reflexivity].
  now rewrite app_nil_r.
Qed.

Lemma step_in_pass c0 snapshot st e :
  processingRef st = true -> in_pass c0 snapshot st ->
  in_pass c0 snapshot (step st e).
Proof.
  intros Hproc Hin. pose proof Hin as Hin'. unfold in_pass in Hin'.
  rewrite Hproc in Hin'. destruct Hin' as (pre & p & Hpass & Hq & Hsnap & Hconv).
  destruct e as [files u|h|now h|i|k|u|u|]; cbn [step].
  - unfold in_pass. cbn. rewrite Hproc. eauto 10.
  - now rewrite startProcessing_busy.
  - unfold tick. rewrite Hpass.
    match goal with |- context [Qle_bool 100 ?x] => destruct (Qle_bool 100 x) end.
    + rewrite Hq. apply loop_in_pass with (pre := pre ++ [current p]).
      * now rewrite <- app_assoc.
      * cbn. rewrite Hconv, List.map_app. reflexivity.
      * exact Hproc.
    + unfold in_pass. cbn. rewrite Hproc. eauto 10.
  - unfold in_pass. cbn. rewrite Hproc. eauto 10.
  - unfold clickRemove. destruct (nth_error (queue st) k) as [item|]; [|exact Hin].
    destruct (is_converting item); [exact Hin|].
    unfold in_pass. cbn. rewrite Hproc. eauto 10.
  - unfold in_pass. cbn. rewrite Hproc. eauto 10.
  - unfold in_pass. cbn. rewrite Hproc. eauto 10.
  - unfold in_pass. cbn. rewrite Hproc. eauto 10.
Qed.

Lemma run_pass_in_pass c0 snapshot evs : forall st,
  in_pass c0 snapshot st -> in_pass c0 snapshot (run_pass evs st).
Proof.
  induction evs as [|e evs IH]; intros st Hin; cbn [run_pass]; [exact Hin|].
  destruct (processingRef st) eqn:Hproc; [|exact Hin].
  apply IH. now apply step_in_pass.
Qed.

(** C7: [startProcessing] invoked while a pass is underway changes nothing;
    a pass started in state [st] calls [simulateConversion] on the items of
    [st]'s queue whose status is [queued], in queue order, whatever else
    happens meanwhile (files added, items removed, further clicks on Start):
    at any moment it has converted the first [k] of them, and when it ends
    it has converted exactly all of them. *)
Theorem pass_processes_snapshot (st : State) (h : Host) (evs : list Event) :
  processingRef st = false ->
  let snapshot := List.filter is_queued (queue st) in
  let st' := run_pass evs (step st (Start h)) in
  (forall st0 rendered h', processingRef st0 = true ->
     startProcessing rendered h' st0 = st0)
  /\ (exists k, converted st' = converted st ++ map id (firstn k snapshot))
  /\ (processingRef st' = false ->
      converted st' = converted st ++ map id snapshot).
Proof.
  intros Hproc snapshot st'.
  split; [intros; now apply startProcessing_busy|].
  assert (Hin : in_pass (converted st) snapshot st').
  { apply run_pass_in_pass. cbn [step]. now apply start_in_pass. }
  unfold in_pass in Hin. destruct (processingRef st').
  - destruct Hin as (pre & p & _ & _ & Hsnap & Hconv). split; [|discriminate].
    exists (S (length pre)). rewrite Hconv. f_equal.
    rewrite Hsnap.
    replace (pre ++ current p :: remaining p)
      with ((pre ++ [current p]) ++ remaining p) by now rewrite <- app_assoc.
    rewrite firstn_app.
    replace (S (length pre) - length (pre ++ [current p])) with 0
      by (rewrite length_app; cbn; lia).
    rewrite firstn_all2 by (rewrite length_app; cbn; lia).
    cbn. now rewrite app_nil_r, List.map_app.
  - destruct Hin as (_ & Hconv). split; [|auto].
    exists (length snapshot). now rewrite firstn_all.
Qed.


Definition video (n : string) : File := mkFile n 1048576%N.

Definition noon : Host := mkHost 0 (1 # 2) "toast-1" "toast-2".

(** Two files queued, one already converted. *)
Definition sample : State :=
  mkState [mkItem "a" (video "a.mov") queued 0 None;
           mkItem "done" (video "old.ts") completed 100 None;
           mkItem "b" (video "b.mkv") queued 0 None]
    [] false None [].

Lemma pass_processes_snapshot_witness :
  let evs := [Tick 2000 noon; Start noon;
              AddFiles [("c", video "c.mp4")] "toast-3";
              Tick 9000 noon; Tick 18000 noon] in
  processingRef sample = false
  /\ converted (run_pass evs (step sample (Start noon))) = ["a"; "b"]
  /\ processingRef (run_pass evs (step sample (Start noon))) = false.
Proof.
  intros evs. split; [reflexivity|].
  destruct (pass_processes_snapshot sample noon evs eq_refl) as (_ & _ & Hall).
  split; [exact (Hall eq_refl)|reflexivity].
Defined.

(** ** The pass ends *)

(** Ticks that each come at least five seconds after the conversion they
    interrupt began, with [Math.random()] in its range. *)
Fixpoint punctual (start : Z) (evs : list Event) : Prop :=
  match evs with
  | [] => True
  | Tick now h :: evs =>
      (start + 5000 <= now)%Z /\ (0 <= random h)%Q /\ (random h < 1)%Q
      /\ punctual (dateNow h) evs
  | _ => False
  end.

Lemma late_tick_completes (elapsed : Z) (d : Q) :
  (5000 <= elapsed)%Z -> (0 < d)%Q -> (d <= 5000)%Q ->
  Qle_bool 100 (Qmin (inject_Z elapsed / d * 100) 100) = true.
Proof.
  intros He Hd0 Hd. apply Qle_bool_iff. apply Q.min_glb; [|apply Qle_refl].
  assert (H1 : (1 <= inject_Z elapsed / d)%Q).
  { apply Qle_shift_div_l; [exact Hd0|].
    rewrite Zle_Qle in He. change (inject_Z 5000) with 5000%Q in He. lra. }
  generalize dependent (inject_Z elapsed / d)%Q. intros x Hx. lra.
Qed.

Lemma pass_ends evs : forall st p,
  processingRef st = true -> pass st = Some p ->
  (0 < duration p)%Q -> (duration p <= 5000)%Q ->
  punctual (startTime p) evs ->
  length evs = S (length (remaining p)) ->
  processingRef (run_pass evs st) = false.
Proof.
  induction evs as [|e evs IH]; intros st p Hproc Hpass Hd0 Hd Hp Hlen;
    [discriminate|].
  cbn [run_pass]. rewrite Hproc.
  destruct e as [| |now h| | | | |]; cbn [punctual] in Hp; try contradiction.
  destruct Hp as (Hnow & Hr0 & Hr1 & Hp). cbn [step]. unfold tick. rewrite Hpass.
  rewrite (late_tick_completes (now - startTime p) (duration p) ltac:(lia) Hd0 Hd).
  unfold loop. destruct (remaining p) as [|item rest] eqn:Hrem.
  - destruct evs; [reflexivity|discriminate].
  - eapply IH;
      [cbn; exact Hproc | reflexivity | cbn; lra | cbn; lra | exact Hp
      | cbn in *; lia].
Qed.

(** Given ticks that let every conversion finish, a pass ends after one tick
    per item of the snapshot, having converted all of them. *)
Lemma pass_completes (st : State) (h : Host) (evs : list Event) :
  processingRef st = false ->
  (0 <= random h)%Q -> (random h < 1)%Q ->
  punctual (dateNow h) evs ->
  length evs = length (List.filter is_queued (queue st)) ->
  let st' := run_pass evs (step st (Start h)) in
  processingRef st' = false
  /\ converted st' = converted st ++ map id (List.filter is_queued (queue st)).
Proof.
  intros Hproc Hr0 Hr1 Hp Hlen st'.
  assert (Hdone : processingRef st' = false).
  { subst st'. cbn [step]. unfold startProcessing. rewrite Hproc. unfold loop.
    destruct (List.filter is_queued (queue st)) as [|item rest] eqn:Hsnap.
    - destruct evs; [reflexivity|discriminate].
    - eapply pass_ends;
        [reflexivity | reflexivity | cbn; lra | cbn; lra | exact Hp
        | cbn in *; lia]. }
  split; [exact Hdone|].
  assert (Hin : in_pass (converted st) (List.filter is_queued (queue st)) st').
  { apply run_pass_in_pass. cbn [step]. now apply start_in_pass. }
  unfold in_pass in Hin. rewrite Hdone in Hin. apply Hin.
Qed.


(** ** Clearing the completed jobs *)

Lemma filter_split {A} (f : A -> bool) (l : list A) :
  length l = length (List.filter (fun x => negb (f x)) l)
             + length (List.filter f l).
Proof.
  induction l as [|x l IH]; [reflexivity|].
  cbn. destruct (f x); cbn; lia.
Qed.

Lemma status_eqb_eq (a b : FileStatus) : status_eqb a b = true <-> a = b.
Proof. destruct a, b; cbn; split; congruence. Qed.

(** C8 as the specification words it: the call returns the number of jobs
    it removed. *)
Definition returns_removed_count (u : string) (st : State) : Prop :=
  snd (clearCompleted (queue st) u st)
  = number (length (queue st)
            - length (queue (fst (clearCompleted (queue st) u st)))).

(** C8, counterexample: one completed job is removed and the call returns
    [undefined]. *)
Lemma clearCompleted_returns_nothing : ~ returns_removed_count "toast-9" sample.
Proof. unfold returns_removed_count. cbn. discriminate. Qed.

(** C8, amended: [clearCompleted()] removes from the queue exactly the jobs
    whose status is [completed] and keeps every other job as it is, in
    order; it returns no value, and reports the number of completed jobs of
    the rendered queue, which is the number of jobs removed, in an info
    toast. *)
Theorem clearCompleted_removes_completed (u : string) (st : State) :
  let st' := fst (clearCompleted (queue st) u st) in
  let removed := length (List.filter is_completed (queue st)) in
  queue st' = List.filter (fun q => negb (is_completed q)) (queue st)
  /\ (forall q, In q (queue st') <-> In q (queue st) /\ status q <> completed)
  /\ length (queue st) = length (queue st') + removed
  /\ toasts st' =
     toasts st ++ [mkToast u info
                     ("Cleared " ++ show removed ++ " completed file"
                        ++ plural removed)%string]
  /\ snd (clearCompleted (queue st) u st) = undefined
  /\ processingRef st' = processingRef st /\ pass st' = pass st
  /\ converted st' = converted st.
Proof.
  intros st' removed. subst st' removed. cbn.
  split; [reflexivity|]. split.
  { intros q. rewrite filter_In. unfold is_completed.
    split; intros [Hq Hs]; (split; [exact Hq|]).
    - intros E. rewrite E in Hs. discriminate.
    - destruct (status_eqb (status q) completed) eqn:E; [|reflexivity].
      apply status_eqb_eq in E. contradiction. }
  split; [apply filter_split|]. repeat split.
Qed.

(** ** Removing a job *)

(** C9 as the specification words it: [removeItem] on the id of a converting
    job leaves the state as it is. *)
Definition remove_rejected (i : string) (st : State) : Prop :=
  (exists q, In q (queue st) /\ id q = i /\ status q = converting) ->
  removeItem i st = st.

Definition busy : State :=
  mkState [mkItem "a" (video "a.mov") converting (1 # 2) None;
           mkItem "b" (video "b.mkv") queued 0 None]
    [] true
    (Some (mkPass [mkItem "a" (video "a.mov") queued 0 None;
                   mkItem "b" (video "b.mkv") queued 0 None]
             (mkItem "a" (video "a.mov") queued 0 None) 0 4000
             [mkItem "b" (video "b.mkv") queued 0 None]))
    ["a"].

(** C9, counterexample: [removeItem] called with the id of the converting
    job takes it out of the queue. *)
Lemma removeItem_removes_converting : ~ remove_rejected "a" busy.
Proof.
  unfold remove_rejected. intros H.
  assert (Hq : exists q, In q (queue busy) /\ id q = "a" /\ status q = converting).
  { eexists. split; [left; reflexivity|]. split; reflexivity. }
  specialize (H Hq). discriminate H.
Qed.

Lemma removeItem_queue (i : string) (st : State) :
  queue (removeItem i st)
  = List.filter (fun q => negb (String.eqb (id q) i)) (queue st).
Proof. reflexivity. Qed.

(** C9, amended: [removeItem(id)] itself removes every job with that id,
    whatever its status; the page offers the remove control only on rows
    whose job is not converting.  So a click on the row of a converting job
    changes nothing, a click on any other row removes the jobs with that
    row's id and nothing else, and, ids being unique, no click removes a
    converting job. *)
Theorem remove_only_when_not_converting (st : State) (k : nat) (q : QueueItem) :
  nth_error (queue st) k = Some q ->
  (status q = converting -> clickRemove k st = st)
  /\ (status q <> converting ->
      clickRemove k st = removeItem (id q) st
      /\ forall q', In q' (queue (clickRemove k st))
                    <-> In q' (queue st) /\ id q' <> id q)
  /\ (List.NoDup (map id (queue st)) ->
      forall q', In q' (queue st) -> status q' = converting ->
                 In q' (queue (clickRemove k st))).
Proof.
  intros Hk. unfold clickRemove. rewrite Hk. unfold is_converting.
  assert (Hin : In q (queue st)) by (eapply nth_error_In; eauto).
  assert (Hmem : forall q', In q' (queue (removeItem (id q) st))
                   <-> In q' (queue st) /\ id q' <> id q).
  { intros q'. rewrite removeItem_queue, filter_In.
    split; intros [H1 H2]; (split; [exact H1|]).
    - intros E. rewrite E, String.eqb_refl in H2. discriminate.
    - apply negb_true_iff. now apply String.eqb_neq. }
  split; [|split].
  - intros Hs. now rewrite Hs.
  - intros Hs. destruct (status_eqb (status q) converting) eqn:E.
    + apply status_eqb_eq in E. contradiction.
    + split; [reflexivity|exact Hmem].
  - intros Hnd q' Hq' Hs'.
    destruct (status_eqb (status q) converting) eqn:E; [exact Hq'|].
    apply Hmem. split; [exact Hq'|]. intros Hid.
    assert (q' = q).
    { clear - Hnd Hq' Hin Hid. induction (queue st) as [|x l IH]; [destruct Hin|].
      cbn in Hnd. apply List.NoDup_cons_iff in Hnd as [Hx Hnd].
      destruct Hq' as [->|Hq'], Hin as [->|Hin]; auto.
      - exfalso. apply Hx. rewrite Hid. now apply in_map.
      - exfalso. apply Hx. rewrite <- Hid. now apply in_map. }
    subst q'. rewrite Hs' in E. cbn in E. discriminate.
Qed.

Lemma remove_only_when_not_converting_witness :
  nth_error (queue busy) 0
    = Some (mkItem "a" (video "a.mov") converting (1 # 2) None)
  /\ clickRemove 0 busy = busy
  /\ map id (queue (clickRemove 1 busy)) = ["a"].
Proof.
  split; [reflexivity|].
  destruct (remove_only_when_not_converting busy 0
              (mkItem "a" (video "a.mov") converting (1 # 2) None) eq_refl)
    as (Hstay & _ & _).
  split; [exact (Hstay eq_refl)|reflexivity].
Defined.


(* ===================================================================== *)
(** ** Further properties of the queue page *)
(* ===================================================================== *)

Definition on_time : list Event :=
  [Tick 5000 (mkHost 5001 (3 # 4) "t" "t-done");
   Tick 10001 (mkHost 10002 0 "t" "t-done")].

Lemma pass_completes_witness :
  punctual (dateNow noon) on_time
  /\ length on_time = length (List.filter is_queued (queue sample))
  /\ processingRef (run_pass on_time (step sample (Start noon))) = false
  /\ converted (run_pass on_time (step sample (Start noon))) = ["a"; "b"].
Proof.
  assert (Hp : punctual (dateNow noon) on_time).
  { cbn. repeat split; try lia; try lra. }
  destruct (pass_completes sample noon on_time eq_refl) as (H1 & H2);
    [cbn; lra | cbn; lra | exact Hp | reflexivity |].
  split; [exact Hp|]. split; [reflexivity|]. split; [exact H1|exact H2].
Defined.

(** *** What a pass leaves in the queue *)

(** The job as its last tick leaves it, for the jobs whose id is in [ids]. *)
Definition finish (ids : list string) (q : QueueItem) : QueueItem :=
  if existsb (String.eqb (id q)) ids
  then mkItem (id q) (file q) completed 100 (errorText q)
  else q.

Lemma finish_nil l : map (finish []) l = l.
Proof. induction l as [|q l IH]; cbn; [reflexivity|]. now rewrite IH. Qed.

Lemma finish_cons c ids q : finish ids (finish [c] q) = finish (c :: ids) q.
Proof.
  unfold finish. cbn [existsb]. rewrite orb_false_r.
  destruct (String.eqb (id q) c) eqn:E; cbn [orb id file errorText].
  - now destruct (existsb (String.eqb (id q)) ids).
  - reflexivity.
Qed.

Lemma last_tick_queue c p l :
  map (fun q => if String.eqb (id q) c
                then mkItem (id q) (file q) completed 100 (errorText q) else q)
    (map (fun q => if String.eqb (id q) c
                   then mkItem (id q) (file q) converting p (errorText q) else q)
       l)
  = map (finish [c]) l.
Proof.
  rewrite List.map_map. apply map_ext. intros q. unfold finish. cbn [existsb].
  rewrite orb_false_r. destruct (String.eqb (id q) c) eqn:E; cbn [id]; now rewrite E.
Qed.

Lemma loop_queue items rest h st : queue (loop items rest h st) = queue st.
Proof. unfold loop. now destruct rest. Qed.

Lemma pass_ends_queue evs : forall st p,
  processingRef st = true -> pass st = Some p ->
  (0 < duration p)%Q -> (duration p <= 5000)%Q ->
  punctual (startTime p) evs ->
  length evs = S (length (remaining p)) ->
  queue (run_pass evs st)
  = map (finish (id (current p) :: map id (remaining p))) (queue st).
Proof.
  induction evs as [|e evs IH]; intros st p Hproc Hpass Hd0 Hd Hp Hlen;
    [discriminate|].
  cbn [run_pass]. rewrite Hproc.
  destruct e as [| |now h| | | | |]; cbn [punctual] in Hp; try contradiction.
  destruct Hp as (Hnow & Hr0 & Hr1 & Hp). cbn [step]. unfold tick. rewrite Hpass.
  rewrite (late_tick_completes (now - startTime p) (duration p) ltac:(lia) Hd0 Hd).
  unfold loop. destruct (remaining p) as [|item rest] eqn:Hrem.
  - destruct evs; [|discriminate]. cbn. apply last_tick_queue.
  - erewrite IH;
      [| cbn; exact Hproc | reflexivity | cbn; lra | cbn; lra | exact Hp
       | cbn in *; lia].
    cbn [current remaining simulateConversion with_pass with_converted queue
         setQueue with_queue].
    rewrite last_tick_queue, List.map_map. apply map_ext. intros q.
    apply finish_cons.
Qed.

(** Left to its ticks, a pass completes every job that was queued when it
    started and touches no other: when it ends, the queue is the queue of
    the start in which each job with the id of a queued job has status
    [completed] and progress 100, and no job is left queued. *)
Theorem pass_completes_queued_jobs (st : State) (h : Host) (evs : list Event) :
  processingRef st = false ->
  (0 <= random h)%Q -> (random h < 1)%Q ->
  punctual (dateNow h) evs ->
  length evs = length (List.filter is_queued (queue st)) ->
  let st' := run_pass evs (step st (Start h)) in
  queue st' = map (finish (map id (List.filter is_queued (queue st)))) (queue st)
  /\ hasQueued st' = false
  /\ (forall q, In q (queue st) -> status q = queued ->
        In (mkItem (id q) (file q) completed 100 (errorText q)) (queue st')).
Proof.
  intros Hproc Hr0 Hr1 Hp Hlen st'.
  assert (Hq : queue st'
               = map (finish (map id (List.filter is_queued (queue st)))) (queue st)).
  { subst st'. cbn [step]. unfold startProcessing. rewrite Hproc. unfold loop.
    destruct (List.filter is_queued (queue st)) as [|item rest] eqn:Hsnap.
    - destruct evs; [|discriminate]. cbn. now rewrite finish_nil.
    - erewrite pass_ends_queue;
        [| reflexivity | reflexivity | cbn; lra | cbn; lra | exact Hp
         | cbn in *; lia].
      reflexivity. }
  assert (Hmem : forall q, In q (queue st) -> status q = queued ->
            existsb (String.eqb (id q))
              (map id (List.filter is_queued (queue st))) = true).
  { intros q Hin Hs. apply existsb_exists. exists (id q).
    split; [|apply String.eqb_refl]. apply in_map, filter_In.
    split; [exact Hin|]. unfold is_queued. now rewrite Hs. }
  split; [exact Hq|]. split.
  - unfold hasQueued. rewrite Hq.
    destruct (existsb is_queued _) eqn:E; [|reflexivity].
    apply existsb_exists in E as (q' & Hin & Hs).
    apply in_map_iff in Hin as (q & <- & Hin). unfold finish in Hs.
    destruct (existsb (String.eqb (id q)) _) eqn:Ex; [discriminate Hs|].
    unfold is_queued in Hs. apply status_eqb_eq in Hs.
    rewrite (Hmem q Hin Hs) in Ex. discriminate.
  - intros q Hin Hs. rewrite Hq. apply in_map_iff. exists q.
    split; [|exact Hin]. unfold finish. now rewrite (Hmem q Hin Hs).
Qed.

Lemma pass_completes_queued_jobs_witness :
  punctual (dateNow noon) on_time
  /\ map status (queue (run_pass on_time (step sample (Start noon))))
     = [completed; completed; completed]
  /\ hasQueued (run_pass on_time (step sample (Start noon))) = false.
Proof.
  assert (Hp : punctual (dateNow noon) on_time).
  { cbn. repeat split; try lia; try lra. }
  destruct (pass_completes_queued_jobs sample noon on_time eq_refl) as (H1 & H2 & _);
    [cbn; lra | cbn; lra | exact Hp | reflexivity |].
  split; [exact Hp|]. split; [now rewrite H1|exact H2].
Defined.


(** *** What every job of the queue satisfies *)

Definition well_formed (q : QueueItem) : Prop :=
  (progress q <= 100)%Q
  /\ (status q = queued -> progress q = 0%Q)
  /\ (status q = completed -> progress q = 100%Q)
  /\ status q <> error
  /\ errorText q = None.

Lemma well_formed_filter (f : QueueItem -> bool) l :
  List.Forall well_formed l -> List.Forall well_formed (List.filter f l).
Proof.
  intros H. apply List.Forall_forall. intros q Hq. apply filter_In in Hq as [Hq _].
  revert q Hq. now apply List.Forall_forall.
Qed.

Lemma well_formed_mark (c : string) (s : FileStatus) (p : Q) l :
  (p <= 100)%Q -> s <> error -> s <> queued -> (s = completed -> p = 100%Q) ->
  List.Forall well_formed l ->
  List.Forall well_formed
    (map (fun q => if String.eqb (id q) c
                   then mkItem (id q) (file q) s p (errorText q) else q) l).
Proof.
  intros Hp He Hq Hc H. induction H as [|q l Hwf _ IH]; cbn; constructor; auto.
  destruct (String.eqb (id q) c); [|exact Hwf].
  destruct Hwf as (_ & _ & _ & _ & Hn). repeat split; cbn; auto. congruence.
Qed.

Lemma loop_well_formed items rest h st :
  List.Forall well_formed (queue st) ->
  List.Forall well_formed (queue (loop items rest h st)).
Proof. now rewrite loop_queue. Qed.

Lemma step_well_formed st e :
  List.Forall well_formed (queue st) ->
  List.Forall well_formed (queue (step st e)).
Proof.
  intros H. destruct e as [files u|h|now h|i|k|u|u|]; cbn [step].
  - cbn. apply Forall_app. split; [exact H|].
    apply List.Forall_forall. intros q Hq. apply in_map_iff in Hq as (x & <- & _).
    repeat split; cbn; auto; discriminate.
  - unfold startProcessing. destruct (processingRef st); [exact H|].
    now apply loop_well_formed.
  - unfold tick. destruct (pass st) as [p|]; [|exact H].
    match goal with |- context [Qle_bool 100 ?x] => destruct (Qle_bool 100 x) end.
    + apply loop_well_formed. cbn.
      apply well_formed_mark;
        [apply Qle_refl | discriminate | discriminate | reflexivity |].
      apply well_formed_mark;
        [apply Q.le_min_r | discriminate | discriminate | discriminate | exact H].
    + cbn. apply well_formed_mark;
        [apply Q.le_min_r | discriminate | discriminate | discriminate | exact H].
  - now apply well_formed_filter.
  - unfold clickRemove. destruct (nth_error (queue st) k) as [item|]; [|exact H].
    destruct (is_converting item); [exact H|]. now apply well_formed_filter.
  - now apply well_formed_filter.
  - exact H.
  - exact H.
Qed.

(** Whatever the user and the timers do, starting from the empty page: no
    job has a progress above 100, a queued job has progress 0, a completed
    job has progress 100, and no job ever has the status [error] or an
    error text, which nothing in the page assigns. *)
Theorem queue_jobs_well_formed (evs : list Event) (q : QueueItem) :
  In q (queue (run evs init)) ->
  (progress q <= 100)%Q
  /\ (status q = queued -> progress q = 0%Q)
  /\ (status q = completed -> progress q = 100%Q)
  /\ status q <> error
  /\ errorText q = None.
Proof.
  assert (H : List.Forall well_formed (queue (run evs init))).
  { unfold run. generalize init (List.Forall_nil well_formed : List.Forall well_formed (queue init)).
    induction evs as [|e evs IH]; intros st Hst; cbn [fold_left]; [exact Hst|].
    apply IH. now apply step_well_formed. }
  intros Hq. revert q Hq. now apply List.Forall_forall.
Qed.

Lemma queue_jobs_well_formed_witness :
  let evs := [AddFiles [("a", video "a.mov")] "t1"; Start noon;
              Tick 1000 noon] in
  In (mkItem "a" (video "a.mov") converting
        (Qmin (inject_Z 1000 / (3000 + (1 # 2) * 2000) * 100) 100) None)
     (queue (run evs init))
  /\ (Qmin (inject_Z 1000 / (3000 + (1 # 2) * 2000) * 100) 100 <= 100)%Q.
Proof.
  intros evs.
  assert (H : In (mkItem "a" (video "a.mov") converting
                    (Qmin (inject_Z 1000 / (3000 + (1 # 2) * 2000) * 100) 100) None)
                (queue (run evs init))) by (left; reflexivity).
  split; [exact H|].
  destruct (queue_jobs_well_formed evs _ H) as (Hle & _). exact Hle.
Defined.

(** *** Adding and removing *)

Lemma filter_none {A} (f : A -> bool) l :
  (forall x, In x l -> f x = true) -> List.filter f l = l.
Proof.
  intros H. induction l as [|x l IH]; [reflexivity|].
  cbn. rewrite (H x) by now left. f_equal. apply IH. intros y Hy. apply H. now right.
Qed.

(** Adding a file under an id no job of the queue has and then removing
    that id gives back the queue as it was; removing an id no job has
    changes nothing. *)
Theorem add_then_remove (i : string) (f : File) (u : string) (st : State) :
  ~ In i (map id (queue st)) ->
  queue (removeItem i (addFiles [(i, f)] u st)) = queue st
  /\ queue (removeItem i st) = queue st.
Proof.
  intros Hfresh.
  assert (Hkeep : List.filter (fun q => negb (String.eqb (id q) i)) (queue st)
                  = queue st).
  { apply filter_none. intros q Hq. apply negb_true_iff, String.eqb_neq.
    intros E. apply Hfresh. rewrite <- E. now apply in_map. }
  split; [|exact Hkeep].
  cbn. rewrite List.filter_app, Hkeep. cbn. rewrite String.eqb_refl. cbn.
  apply app_nil_r.
Qed.

Lemma add_then_remove_witness :
  ~ In "c" (map id (queue sample))
  /\ queue (removeItem "c" (addFiles [("c", video "c.mp4")] "t" sample))
     = queue sample.
Proof.
  assert (H : ~ In "c" (map id (queue sample))).
  { cbn. intros [E|[E|[E|[]]]]; discriminate E. }
  split; [exact H|].
  destruct (add_then_remove "c" (video "c.mp4") "t" sample H) as (H1 & _).
  exact H1.
Defined.

(** *** Starting with nothing queued *)

(** [startProcessing()] with no queued job in the rendered queue ends at
    once: it converts nothing, leaves the queue and [processingRef] as they
    were, and shows the two toasts with the count 0 and the singular
    "file". *)
Theorem start_with_nothing_queued (h : Host) (st : State) :
  processingRef st = false -> hasQueued st = false ->
  let st' := startProcessing (queue st) h st in
  queue st' = queue st /\ converted st' = converted st
  /\ processingRef st' = false /\ pass st' = None
  /\ toasts st' = toasts st ++ [mkToast (uuid1 h) info "Processing 0 file...";
                               mkToast (uuid2 h) success "All 0 file converted!"].
Proof.
  intros Hproc Hq st'.
  assert (Hnil : List.filter is_queued (queue st) = []).
  { unfold hasQueued in Hq. induction (queue st) as [|q l IH]; [reflexivity|].
    cbn in *. apply orb_false_iff in Hq as [Hq1 Hq2]. rewrite Hq1. auto. }
  subst st'. unfold startProcessing. rewrite Hproc, Hnil. cbn.
  repeat split; auto. now rewrite <- app_assoc.
Qed.

Lemma start_with_nothing_queued_witness :
  processingRef init = false /\ hasQueued init = false
  /\ map message (toasts (startProcessing (queue init) noon init))
     = ["Processing 0 file..."; "All 0 file converted!"].
Proof.
  split; [reflexivity|]. split; [reflexivity|].
  destruct (start_with_nothing_queued noon init eq_refl eq_refl)
    as (_ & _ & _ & _ & H).
  now rewrite H.
Defined.

(** ** The order of the queue *)

Definition entry (q : QueueItem) : string * File := (id q, file q).

Definition added (e : Event) : list (string * File) :=
  match e with
  | AddFiles files _ => files
  | _ => []
  end.

Lemma entries_mark (c : string) (s : FileStatus) (p : Q) l :
  map entry (map (fun q => if String.eqb (id q) c
                           then mkItem (id q) (file q) s p (errorText q)
                           else q) l)
  = map entry l.
Proof.
  induction l as [|q l IH]; [reflexivity|]. cbn [map]. rewrite IH. f_equal.
  now destruct (String.eqb (id q) c).
Qed.

Lemma entries_filter (f : QueueItem -> bool) l :
  sublist (map entry (List.filter f l)) (map entry l).
Proof.
  induction l as [|q l IH]; cbn [List.filter map]; [constructor|].
  destruct (f q); cbn [map]; now constructor.
Qed.

Lemma entries_new (files : list (string * File)) :
  map entry (map (fun f => mkItem (fst f) (snd f) queued 0 None) files) = files.
Proof.
  induction files as [|[i f] files IH]; [reflexivity|]. cbn [map]. now rewrite IH.
Qed.

Lemma step_entries st e :
  sublist (map entry (queue (step st e))) (map entry (queue st) ++ added e).
Proof.
  destruct e as [files u|h|now h|i|k|u|u|]; cbn [step added];
    rewrite ?app_nil_r.
  - cbn. now rewrite List.map_app, entries_new.
  - unfold startProcessing. destruct (processingRef st); [reflexivity|].
    now rewrite loop_queue.
  - unfold tick. destruct (pass st) as [p|]; [|reflexivity].
    match goal with |- context [Qle_bool 100 ?x] => destruct (Qle_bool 100 x) end.
    + rewrite loop_queue. cbn. now rewrite !entries_mark.
    + cbn. now rewrite entries_mark.
  - apply entries_filter.
  - unfold clickRemove. destruct (nth_error (queue st) k) as [item|]; [|reflexivity].
    destruct (is_converting item); [reflexivity|]. apply entries_filter.
  - apply entries_filter.
  - reflexivity.
  - reflexivity.
Qed.

(** Whatever the user and the timers do, the jobs of the queue, each taken
    as its id with its file, are in order a sublist of the jobs the run
    started with followed by the files added during it in the order they
    were added: no handler reorders the queue, duplicates a job, gives a job
    another file, or brings a removed job back, even when the job is removed
    while its conversion is still running. *)
Theorem queue_order_kept (evs : list Event) (st : State) :
  sublist (map entry (queue (run evs st)))
          (map entry (queue st) ++ flat_map added evs).
Proof.
  unfold run. revert st.
  induction evs as [|e evs IH]; intros st; cbn [fold_left flat_map].
  - now rewrite app_nil_r.
  - etransitivity; [apply IH|]. rewrite app_assoc.
    apply sublist_app; [apply step_entries|reflexivity].
Qed.

End PageTheory.

(* ===================================================================== *)
(** * Properties of the downloads *)
(* ===================================================================== *)

Module DownloadTheory.
Import Page Download.

(** ** The name of a downloaded file *)

Lemma replaceExtension_cons (c : ascii) (r : string) :
  replaceExtension (String c r) =
  match Extension.match_here (String c r) with
  | Some _ => ".mp4"
  | None => String c (replaceExtension r)
  end.
Proof. reflexivity. Qed.

Lemma replace_without_match (s : string) :
  Extension.regex_match s = None -> replaceExtension s = s.
Proof.
  induction s as [|c r IH]; [reflexivity|].
  rewrite ExtensionTheory.regex_match_cons, replaceExtension_cons.
  destruct (Extension.match_here (String c r)); [discriminate|].
  intros H. now rewrite IH.
Qed.

Lemma match_here_suffix (suf : string) :
  suf <> EmptyString -> Extension.no_dot suf = true ->
  Extension.match_here (String "." suf) = Some (String "." suf).
Proof.
  intros Hne Hnd. rewrite ExtensionTheory.match_here_cons, Hnd.
  destruct suf; [contradiction|reflexivity].
Qed.

Lemma append_cons (c : ascii) (a b : string) :
  (String c a ++ b)%string = String c (a ++ b)%string.
Proof. reflexivity. Qed.

Lemma match_here_before (c : ascii) (pre suf : string) :
  Extension.match_here (String c (pre ++ String "." suf)%string) = None.
Proof.
  rewrite ExtensionTheory.match_here_cons, ExtensionTheory.no_dot_app.
  cbn [Extension.no_dot]. unfold Extension.not_dot at 1. cbn.
  now rewrite !andb_false_r.
Qed.

Lemma replace_suffix (pre suf : string) :
  suf <> EmptyString -> Extension.no_dot suf = true ->
  replaceExtension (pre ++ String "." suf)%string = (pre ++ ".mp4")%string.
Proof.
  intros Hne Hnd. induction pre as [|c pre IH].
  - change (replaceExtension (String "." suf) = ".mp4").
    now rewrite replaceExtension_cons, match_here_suffix.
  - rewrite !append_cons, replaceExtension_cons, match_here_before.
    now rewrite IH.
Qed.

(** The name a converted file is saved under: the file name with its final
    dot-suffix replaced by [".mp4"]; a name with no such suffix (no dot, or
    a dot at the very end) is kept as it is, without [".mp4"] being added;
    and a name that went through the replacement is not changed by it
    again. *)
Theorem download_name (s : string) :
  (forall pre suf, suf <> EmptyString -> Extension.no_dot suf = true ->
     s = (pre ++ String "." suf)%string ->
     replaceExtension s = (pre ++ ".mp4")%string)
  /\ (Extension.regex_match s = None -> replaceExtension s = s)
  /\ replaceExtension (replaceExtension s) = replaceExtension s.
Proof.
  split; [intros pre suf Hne Hnd ->; now apply replace_suffix|].
  split; [apply replace_without_match|].
  destruct (Extension.regex_match s) as [m|] eqn:E.
  - rewrite ExtensionTheory.regex_match_final in E.
    apply ExtensionTheory.final_dot_suffix_spec in E
      as (pre & suf & -> & _ & Hne & Hnd).
    rewrite (replace_suffix pre suf Hne Hnd).
    apply (replace_suffix pre "mp4"); [discriminate|reflexivity].
  - now rewrite !(replace_without_match s E).
Qed.

Lemma download_name_witness :
  replaceExtension "trip.2024.MTS" = "trip.2024.mp4"
  /\ replaceExtension "README" = "README"
  /\ replaceExtension "clip." = "clip.".
Proof.
  destruct (download_name "trip.2024.MTS") as (H1 & _).
  destruct (download_name "README") as (_ & H2 & _).
  destruct (download_name "clip.") as (_ & H3 & _).
  split; [apply (H1 "trip.2024" "MTS"); [discriminate|reflexivity|reflexivity]|].
  split; [apply H2; reflexivity|apply H3; reflexivity].
Defined.

(** ** The archive *)

(** *** Paths *)

Lemma length_append (a b : string) :
  String.length (a ++ b)%string = String.length a + String.length b.
Proof.
  induction a as [|c a IH]; [reflexivity|].
  rewrite append_cons. cbn [String.length]. now rewrite IH.
Qed.

Lemma append_assoc (a b c : string) :
  ((a ++ b) ++ c)%string = (a ++ b ++ c)%string.
Proof.
  induction a as [|x a IH]; [reflexivity|].
  rewrite !append_cons. now rewrite IH.
Qed.

Lemma endsWithSlash_cons (c : ascii) (r : string) :
  endsWithSlash (String c r) =
  match r with
  | EmptyString => Ascii.eqb c "/"
  | _ => endsWithSlash r
  end.
Proof. reflexivity. Qed.

Lemma endsWithSlash_snoc (p : string) : endsWithSlash (p ++ "/") = true.
Proof.
  induction p as [|c p IH]; [reflexivity|].
  rewrite append_cons, endsWithSlash_cons.
  destruct p; [reflexivity|]. rewrite append_cons in *. exact IH.
Qed.

Lemma forceTrailingSlash_ends (p : string) :
  endsWithSlash (forceTrailingSlash p) = true.
Proof.
  unfold forceTrailingSlash. destruct (endsWithSlash p) eqn:E; [exact E|].
  apply endsWithSlash_snoc.
Qed.

Lemma forceTrailingSlash_idem (p : string) :
  forceTrailingSlash (forceTrailingSlash p) = forceTrailingSlash p.
Proof.
  unfold forceTrailingSlash at 1. now rewrite forceTrailingSlash_ends.
Qed.

Lemma dropLast_spec (s : string) :
  endsWithSlash s = true -> s = (dropLast s ++ "/")%string.
Proof.
  induction s as [|c s IH]; [discriminate|].
  rewrite endsWithSlash_cons. destruct s as [|d s].
  - intros E. apply Ascii.eqb_eq in E. now subst c.
  - intros E. change (dropLast (String c (String d s)))
      with (String c (dropLast (String d s))).
    rewrite append_cons. now rewrite <- IH.
Qed.

Lemma beforeLastSlash_spec (s p : string) :
  beforeLastSlash s = Some p ->
  exists r, s = (p ++ String "/" r)%string /\ beforeLastSlash r = None.
Proof.
  revert p. induction s as [|c s IH]; intros p; [discriminate|].
  cbn [beforeLastSlash]. destruct (beforeLastSlash s) as [q|] eqn:E.
  - intros [= <-]. destruct (IH q eq_refl) as (r & -> & Hr).
    exists r. now rewrite append_cons.
  - destruct (Ascii.eqb_spec c "/") as [->|_]; [|discriminate].
    intros [= <-]. exists s. split; [reflexivity|exact E].
Qed.

(** A path with a parent folder is that folder, with its slash, followed by
    something more. *)
Lemma parent_prefix (n : string) :
  parentFolder n <> EmptyString ->
  exists rest, rest <> EmptyString
               /\ n = (forceTrailingSlash (parentFolder n) ++ rest)%string.
Proof.
  unfold parentFolder.
  set (path := if endsWithSlash n then dropLast n else n).
  destruct (beforeLastSlash path) as [p|] eqn:E; [|congruence]. intros Hp.
  destruct (beforeLastSlash_spec path p E) as (r & Hpath & Hr).
  assert (Hn : exists r', r' <> EmptyString
                          /\ n = (p ++ String "/" r')%string
                                 \/ (r' = EmptyString /\ endsWithSlash n = false
                                     /\ n = (p ++ "/")%string)).
  { subst path. destruct (endsWithSlash n) eqn:Hend.
    - exists (r ++ "/")%string. left. split.
      + destruct r; discriminate.
      + rewrite (dropLast_spec n Hend), Hpath, append_assoc.
        now rewrite append_cons.
    - destruct r as [|c r].
      + exists EmptyString. right. auto.
      + exists (String c r). left. split; [discriminate|exact Hpath]. }
  destruct Hn as (r' & [[Hr' Hn]|(_ & Hend & Hn)]).
  - unfold forceTrailingSlash. destruct (endsWithSlash p).
    + exists (String "/" r'). split; [discriminate|exact Hn].
    + exists r'. split; [exact Hr'|]. rewrite append_assoc. exact Hn.
  - rewrite Hn, endsWithSlash_snoc in Hend. discriminate.
Qed.

Lemma parent_shorter (n : string) :
  parentFolder n <> EmptyString ->
  String.length (forceTrailingSlash (parentFolder n)) < String.length n.
Proof.
  intros H. destruct (parent_prefix n H) as (rest & Hrest & Hn).
  rewrite Hn at 2. rewrite length_append.
  destruct rest; [congruence|]. cbn [String.length]. lia.
Qed.

(** *** Adding an entry *)

(** The name an entry is stored under. *)
Definition entryName (n : string) (o : ZipObject) : string :=
  match o with
  | zipDir => forceTrailingSlash n
  | zipData _ => n
  end.

Definition withParent (fuel : nat) (n : string)
    (files : gmap string ZipObject) : gmap string ZipObject :=
  if String.eqb (parentFolder n) EmptyString then files
  else
    match fuel with
    | 0 => files
    | S fuel =>
        match files !! forceTrailingSlash (parentFolder n) with
        | Some _ => files
        | None => fileAdd fuel (forceTrailingSlash (parentFolder n)) zipDir files
        end
    end.

Lemma fileAdd_eq (fuel : nat) (n : string) (o : ZipObject)
    (files : gmap string ZipObject) :
  fileAdd fuel n o files
  = <[entryName n o := o]> (withParent fuel (entryName n o) files).
Proof. destruct fuel; reflexivity. Qed.

(** The nesting of [fileAdd] never runs out of fuel that is at least the
    length of the name: no more fuel changes the result. *)
Lemma fileAdd_fuel (f1 : nat) : forall f2 n o files,
  String.length (entryName n o) <= f1 ->
  String.length (entryName n o) <= f2 ->
  fileAdd f1 n o files = fileAdd f2 n o files.
Proof.
  induction f1 as [|f1 IH]; intros f2 n o files H1 H2;
    rewrite !fileAdd_eq; f_equal; unfold withParent;
    destruct (String.eqb_spec (parentFolder (entryName n o)) EmptyString)
      as [E|E]; try reflexivity;
    pose proof (parent_shorter _ E) as Hlt; [lia|].
  destruct f2 as [|f2]; [lia|].
  destruct (files !! forceTrailingSlash (parentFolder (entryName n o)));
    [reflexivity|].
  apply IH; cbn [entryName]; rewrite forceTrailingSlash_idem; lia.
Qed.

(** What an entry of the archive is after [fileAdd]: the new entry under
    its name; what it was before, for another name; or, for a name the
    archive did not hold, possibly a folder of the new entry's path. *)
Lemma fileAdd_lookup (fuel : nat) : forall n o files k,
  (k = entryName n o /\ fileAdd fuel n o files !! k = Some o)
  \/ (k <> entryName n o
      /\ (fileAdd fuel n o files !! k = files !! k
          \/ (files !! k = None
              /\ fileAdd fuel n o files !! k = Some zipDir
              /\ endsWithSlash k = true
              /\ exists rest, entryName n o = (k ++ rest)%string))).
Proof.
  induction fuel as [|fuel IH]; intros n o files k; rewrite fileAdd_eq;
    (destruct (decide (k = entryName n o)) as [->|Hk];
     [left; split; [reflexivity|apply lookup_insert_eq]|]);
    right; (split; [exact Hk|]); rewrite lookup_insert_ne by congruence;
    unfold withParent;
    destruct (String.eqb_spec (parentFolder (entryName n o)) EmptyString)
      as [E|E]; auto.
  destruct (files !! forceTrailingSlash (parentFolder (entryName n o)))
    eqn:Hf; [auto|].
  destruct (parent_prefix _ E) as (rest & _ & Hn).
  destruct (IH (forceTrailingSlash (parentFolder (entryName n o))) zipDir
              files k) as [[-> Hl]|[_ [Hl|(Hnone & Hl & Hend & rest' & Hp)]]];
    cbn [entryName] in *; rewrite ?forceTrailingSlash_idem in *.
  - right. split; [exact Hf|]. split; [exact Hl|].
    split; [apply forceTrailingSlash_ends|]. exists rest. exact Hn.
  - now left.
  - right. split; [exact Hnone|]. split; [exact Hl|]. split; [exact Hend|].
    exists (rest' ++ rest)%string. rewrite <- append_assoc, <- Hp. exact Hn.
Qed.

(** *** Names without a slash *)

Fixpoint slashFree (s : string) : bool :=
  match s with
  | EmptyString => true
  | String c r => negb (Ascii.eqb c "/") && slashFree r
  end.

Lemma slashFree_before (s : string) :
  slashFree s = true -> beforeLastSlash s = None.
Proof.
  induction s as [|c s IH]; [reflexivity|]. cbn [slashFree]. intros H.
  apply andb_true_iff in H as [Hc Hs]. cbn [beforeLastSlash].
  rewrite (IH Hs). apply negb_true_iff in Hc. now rewrite Hc.
Qed.

Lemma slashFree_ends (s : string) :
  slashFree s = true -> endsWithSlash s = false.
Proof.
  induction s as [|c s IH]; [reflexivity|]. cbn [slashFree]. intros H.
  apply andb_true_iff in H as [Hc Hs]. rewrite endsWithSlash_cons.
  destruct s; [now apply negb_true_iff in Hc|]. now apply IH.
Qed.

Lemma slashFree_parent (s : string) :
  slashFree s = true -> parentFolder s = EmptyString.
Proof.
  intros H. unfold parentFolder.
  now rewrite (slashFree_ends s H), (slashFree_before s H).
Qed.

Lemma zipFile_plain (n d : string) (zip : gmap string ZipObject) :
  slashFree n = true -> zipFile n d zip = <[n := zipData d]> zip.
Proof.
  intros H. unfold zipFile. rewrite fileAdd_eq. cbn [entryName].
  unfold withParent. now rewrite (slashFree_parent n H).
Qed.

(** *** Filling the archive *)

Definition addEntry (zip : gmap string ZipObject) (item : QueueItem)
    : gmap string ZipObject :=
  zipFile (outputName item) (mockContent (outputName item)) zip.

Definition plainEntry (zip : gmap string ZipObject) (item : QueueItem)
    : gmap string ZipObject :=
  <[outputName item := zipData (mockContent (outputName item))]> zip.

Lemma fill_plain (items : list QueueItem) : forall zip,
  (forall item, In item items -> slashFree (outputName item) = true) ->
  fold_left addEntry items zip = fold_left plainEntry items zip.
Proof.
  induction items as [|item items IH]; intros zip H; cbn [fold_left];
    [reflexivity|].
  unfold addEntry at 2. rewrite zipFile_plain by (apply H; now left).
  apply IH. intros i Hi. apply H. now right.
Qed.

Lemma fill_lookup (items : list QueueItem) : forall (zip : gmap string ZipObject) n,
  fold_left plainEntry items zip !! n =
  if existsb (fun item => String.eqb (outputName item) n) items
  then Some (zipData (mockContent n)) else zip !! n.
Proof.
  induction items as [|item items IH]; intros zip n; cbn [fold_left existsb];
    [reflexivity|].
  rewrite IH. destruct (existsb _ items); cbn [orb].
  - now rewrite orb_true_r.
  - rewrite orb_false_r. unfold plainEntry.
    destruct (String.eqb_spec (outputName item) n) as [->|Hne].
    + now rewrite lookup_insert_eq.
    + now rewrite lookup_insert_ne.
Qed.

Lemma fill_size (items : list QueueItem) : forall zip : gmap string ZipObject,
  base.size (fold_left plainEntry items zip) <= base.size zip + length items.
Proof.
  induction items as [|item items IH]; intros zip; cbn [fold_left length]; [lia|].
  specialize (IH (plainEntry zip item)). unfold plainEntry in *.
  destruct (zip !! outputName item) eqn:E.
  - rewrite map_size_insert_Some in IH by eauto. lia.
  - rewrite map_size_insert_None in IH by exact E. lia.
Qed.

Lemma fill_size_distinct (items : list QueueItem) : forall zip : gmap string ZipObject,
  List.NoDup (map outputName items) ->
  (forall item, In item items -> zip !! outputName item = None) ->
  base.size (fold_left plainEntry items zip) = base.size zip + length items.
Proof.
  induction items as [|item items IH]; intros zip Hnd Hfresh;
    cbn [fold_left length map] in *; [lia|].
  apply List.NoDup_cons_iff in Hnd as [Hx Hnd].
  rewrite IH; [|exact Hnd|].
  - unfold plainEntry. rewrite map_size_insert_None; [lia|].
    apply Hfresh. now left.
  - intros i Hi. unfold plainEntry. rewrite lookup_insert_ne.
    + apply Hfresh. now right.
    + intros E. apply Hx. rewrite E. now apply in_map.
Qed.

(** What the archive holds after the jobs [items] were added to it, for
    any names: every job's output name is a file entry with the mock content
    of that name, the file entries are those, and every other entry is a
    folder of the path of some job's output name. *)
Definition filled (items : list QueueItem) (zip : gmap string ZipObject) : Prop :=
  (forall item, In item items ->
     zip !! outputName item = Some (zipData (mockContent (outputName item))))
  /\ (forall n d, zip !! n = Some (zipData d) ->
        d = mockContent n /\ exists item, In item items /\ outputName item = n)
  /\ (forall n, zip !! n = Some zipDir ->
        endsWithSlash n = true
        /\ exists item rest, In item items
                             /\ outputName item = (n ++ rest)%string).

Lemma filled_add (items : list QueueItem) (zip : gmap string ZipObject)
    (x : QueueItem) :
  filled items zip -> filled (items ++ [x]) (addEntry zip x).
Proof.
  intros (H1 & H2 & H3). unfold addEntry, zipFile.
  set (n := outputName x). set (fuel := String.length n).
  pose proof (fileAdd_lookup fuel n (zipData (mockContent n)) zip) as L.
  cbn [entryName] in L. split; [|split].
  - intros item Hin. apply in_app_or in Hin as [Hin|[<-|[]]].
    + destruct (L (outputName item)) as [[E ->]|[_ [->|(Hnone & _)]]].
      * now rewrite E.
      * now apply H1.
      * rewrite (H1 item Hin) in Hnone. discriminate.
    + destruct (L n) as [[_ E]|[Hne _]]; [exact E|congruence].
  - intros k d Hk. destruct (L k) as [[-> E]|[_ [E|(_ & E & _)]]].
    + rewrite E in Hk. injection Hk as <-. split; [reflexivity|].
      exists x. split; [apply in_or_app; right; now left|reflexivity].
    + rewrite E in Hk. destruct (H2 k d Hk) as (Hd & item & Hin & Hn).
      split; [exact Hd|]. exists item. split; [|exact Hn].
      apply in_or_app. now left.
    + rewrite E in Hk. discriminate.
  - intros k Hk. destruct (L k) as [[-> E]|[_ [E|(_ & _ & Hend & rest & Hr)]]].
    + rewrite E in Hk. discriminate.
    + rewrite E in Hk. destruct (H3 k Hk) as (Hend & item & rest & Hin & Hn).
      split; [exact Hend|]. exists item, rest. split; [|exact Hn].
      apply in_or_app. now left.
    + split; [exact Hend|]. exists x, rest.
      split; [apply in_or_app; right; now left|exact Hr].
Qed.

Lemma fillZip_filled (items : list QueueItem) : filled items (fillZip items).
Proof.
  unfold fillZip. fold addEntry.
  induction items as [|x items IH] using rev_ind.
  - split; [intros item []|]. split; intros n; cbn [fold_left];
      rewrite lookup_empty; discriminate.
  - rewrite fold_left_app. cbn [fold_left]. now apply filled_add.
Qed.

(** When [downloadAllAsZip] finds completed jobs it sets [isZipping] and
    fills the archive from them.  Whatever the names: the output name of
    every completed job is a file entry holding the mock content of that
    name, there is no other file entry, and every other entry is a folder
    on the path of some job's output name.  When no output name contains a
    slash there are no folders: the archive has one entry per distinct
    output name, so that the number of entries is at most the number of
    completed jobs, which is the number the toast reports, and equals it
    when the output names are pairwise different. *)
Theorem archive_entries (rendered : list QueueItem) (u : string) (z : Zipping)
    (items : list QueueItem) (zip : gmap string ZipObject) :
  snd (downloadAllAsZip rendered u z) = Some (items, zip) ->
  items = List.filter is_completed rendered
  /\ (forall item, In item items ->
        zip !! outputName item = Some (zipData (mockContent (outputName item))))
  /\ (forall n d, zip !! n = Some (zipData d) ->
        d = mockContent n /\ exists item, In item items /\ outputName item = n)
  /\ (forall n, zip !! n = Some zipDir ->
        endsWithSlash n = true
        /\ exists item rest, In item items
                             /\ outputName item = (n ++ rest)%string)
  /\ ((forall item, In item items -> slashFree (outputName item) = true) ->
      (forall n, zip !! n =
                 if existsb (fun item => String.eqb (outputName item) n) items
                 then Some (zipData (mockContent n)) else None)
      /\ base.size zip <= length items
      /\ (List.NoDup (map outputName items) -> base.size zip = length items))
  /\ isZipping (fst (downloadAllAsZip rendered u z)) = true.
Proof.
  unfold downloadAllAsZip.
  destruct (List.filter is_completed rendered) as [|i l] eqn:E; [discriminate|].
  cbn [snd fst isZipping]. intros [= <- <-].
  split; [reflexivity|].
  destruct (fillZip_filled (i :: l)) as (H1 & H2 & H3).
  split; [exact H1|]. split; [exact H2|]. split; [exact H3|].
  split; [|reflexivity].
  intros Hfree. unfold fillZip. fold addEntry.
  rewrite (fill_plain (i :: l) ∅ Hfree). split; [|split].
  - intros n. rewrite (fill_lookup (i :: l) ∅ n). now rewrite lookup_empty.
  - pose proof (fill_size (i :: l) ∅) as H. now rewrite map_size_empty in H.
  - intros Hnd.
    rewrite (fill_size_distinct (i :: l) ∅ Hnd); [now rewrite map_size_empty|].
    intros. apply lookup_empty.
Qed.

Definition twins : list QueueItem :=
  [mkItem "1" (mkFile "a.mov" 10) completed 100 None;
   mkItem "2" (mkFile "a.mkv" 20) completed 100 None;
   mkItem "3" (mkFile "b.ts" 30) queued 0 None].

Lemma archive_entries_witness :
  let z := mkZipping init false [] in
  let r := downloadAllAsZip twins "t" z in
  snd r = Some (List.filter is_completed twins, fillZip (List.filter is_completed twins))
  /\ length (List.filter is_completed twins) = 2
  /\ base.size (fillZip (List.filter is_completed twins)) <= 2
  /\ fillZip (List.filter is_completed twins) !! "a.mp4"
     = Some (zipData (mockContent "a.mp4")).
Proof.
  intros z r.
  assert (H : snd r = Some (List.filter is_completed twins,
                            fillZip (List.filter is_completed twins)))
    by reflexivity.
  destruct (archive_entries twins "t" z _ _ H) as (_ & _ & _ & _ & Hplain & _).
  destruct Hplain as (Hl & Hs & _).
  { intros item [<-|[<-|[]]]; reflexivity. }
  split; [exact H|]. split; [reflexivity|]. split; [exact Hs|].
  rewrite Hl. reflexivity.
Defined.

(** Two completed jobs whose names differ only in the extension share one
    entry: the archive that the toast announces as two files holds one. *)
Lemma archive_collision :
  base.size (fillZip (List.filter is_completed twins)) = 1.
Proof. vm_compute. reflexivity. Qed.

(** A completed job whose name has a folder gives two entries, the folder
    and the file. *)
Lemma archive_folder :
  let zip := fillZip [mkItem "1" (mkFile "dir/a.mov" 10) completed 100 None] in
  base.size zip = 2
  /\ zip !! "dir/" = Some zipDir
  /\ zip !! "dir/a.mp4" = Some (zipData (mockContent "dir/a.mp4")).
Proof. vm_compute. repeat split. Qed.

End DownloadTheory.
